(** * udapi-python: the tree node (udapi/core/node.py) and the MarkBugs block
      (udapi/block/ud/markbugs.py), embedded in Rocq.

    Python objects live in a store indexed by object identity; a method is a
    computation over that store which returns a value, raises an exception
    (the store keeps what was written before the raise) or has no finite
    behaviour.  Definitions come first, the properties follow. *)

From Stdlib Require Import ZArith Ascii String DecimalString.
From Stdlib Require DecimalPos.
From stdpp Require Import gmap strings list sorting.

Open Scope Z_scope.

(** ** Python strings and built-ins *)
Module Py.

(** A Python string is the list of its code points; the model holds the
    strings whose code points are below 256. *)

(** [s.split(sep)] for a one-character separator: never the empty list. *)
Fixpoint split (sep : ascii) (s : string) : list string :=
  match s with
  | EmptyString => [EmptyString]
  | String c rest =>
      if decide (c = sep) then EmptyString :: split sep rest
      else match split sep rest with
           | [] => [String c EmptyString]
           | w :: ws => String c w :: ws
           end
  end.

(** [sep.join(l)]. *)
Fixpoint join (sep : string) (l : list string) : string :=
  match l with
  | [] => ""
  | [w] => w
  | w :: ws => w +:+ sep +:+ join sep ws
  end.

(** [s.find(sub)]: the lowest index where [sub] starts in [s], or -1. *)
Fixpoint find_from (i : Z) (sub s : string) : Z :=
  if String.prefix sub s then i
  else match s with
       | EmptyString => -1
       | String _ rest => find_from (i + 1) sub rest
       end.

Definition find (s sub : string) : Z := find_from 0 sub s.

(** [sub in s] on strings. *)
Definition contains (sub s : string) : bool := negb (find s sub =? -1).

(** ['%d' % n] for an integer [n]. *)
Definition format_d (n : Z) : string := NilZero.string_of_int (Z.to_int n).

(** [s.rjust(w)], which is what ['%20s'] and ['%10d'] do to their argument. *)
Definition rjust (w : nat) (s : string) : string :=
  String.concat "" (replicate (w - String.length s)%nat " "%string) +:+ s.

(** The white space [int()] skips at both ends of a text (the interpreter's
    [Py_ISSPACE]): tab to carriage return, and the blank. *)
Definition is_space (c : ascii) : bool :=
  let n := nat_of_ascii c in
  ((9 <=? n) && (n <=? 13) || (n =? 32))%nat.

(** The white space above the ASCII range, which [int()] turns into blanks
    before it reads the text.  Below 256 these are U+0085 and U+00A0; no
    decimal digit lies between 128 and 255. *)
Definition is_unicode_space (c : ascii) : bool :=
  let n := nat_of_ascii c in ((n =? 133) || (n =? 160))%nat.

Fixpoint to_ascii_space (s : string) : string :=
  match s with
  | EmptyString => EmptyString
  | String c rest =>
      String (if is_unicode_space c then " "%char else c) (to_ascii_space rest)
  end.

Definition digit_value (c : ascii) : option Z :=
  let n := nat_of_ascii c in
  if ((48 <=? n) && (n <=? 57))%nat then Some (Z.of_nat n - 48) else None.

Fixpoint lstrip (s : string) : string :=
  match s with
  | String c rest => if is_space c then lstrip rest else s
  | EmptyString => s
  end.

Fixpoint rstrip (s : string) : string :=
  match s with
  | EmptyString => EmptyString
  | String c rest =>
      match rstrip rest with
      | EmptyString => if is_space c then EmptyString else String c EmptyString
      | r => String c r
      end
  end.

(** Digits of a decimal literal; one underscore is allowed between two
    digits.  [after_digit] tells whether the previous character was a digit,
    [acc] is the value read so far. *)
Fixpoint digits (after_digit : bool) (acc : Z) (s : string) : option Z :=
  match s with
  | EmptyString => if after_digit then Some acc else None
  | String c rest =>
      match digit_value c with
      | Some d => digits true (10 * acc + d) rest
      | None =>
          if decide (c = "_"%char) then
            if after_digit then digits false acc rest else None
          else None
      end
  end.

(** [int(s)] on a string, base 10; [None] stands for the ValueError.  The
    interpreter's optional cap on the number of digits of a literal is taken
    as switched off. *)
Definition int (s : string) : option Z :=
  match lstrip (rstrip (to_ascii_space s)) with
  | String "-" rest => Z.opp <$> digits false 0 rest
  | String "+" rest => digits false 0 rest
  | body => digits false 0 body
  end.

(** Exceptions, by class; the message names the raise site. *)
Inductive exn : Type :=
| ValueError (msg : string)
| Exception (msg : string)
| AttributeError (msg : string)
| IndexError (msg : string)
| TypeError (msg : string).

(** Why a computation has no result at all.  [Unbounded]: a walk over the
    links of a finite store that took more steps than there are objects, so
    it runs in a cycle ([while] loops forever, a recursive walk goes on until
    the interpreter gives up).  [Dangling]: an identity that denotes no
    object, which no Python state has. *)
Inductive stuck : Type :=
| Unbounded
| Dangling.

Inductive outcome (A : Type) : Type :=
| Ret (a : A)
| Raise (e : exn)
| NoResult (w : stuck).
Arguments Ret {A} a.
Arguments Raise {A} e.
Arguments NoResult {A} w.

(** The values an attribute access can evaluate to in the conditions below. *)
Inductive value : Type :=
| PyNone
| PyBool (b : bool)
| PyFunction (qualname : string)
| PyMethod (qualname : string) (self : nat).

(** Truth value testing: None and False are false; a function or a bound
    method defines neither [__bool__] nor [__len__], so it is true. *)
Definition truthy (v : value) : bool :=
  match v with
  | PyNone => false
  | PyBool b => b
  | PyFunction _ => true
  | PyMethod _ _ => true
  end.

(** [l[i]] on a list: negative indexes count from the end. *)
Definition getitem {A} (l : list A) (i : Z) : option A :=
  let n := Z.of_nat (length l) in
  if (0 <=? i) && (i <? n) then l !! Z.to_nat i
  else if (- n <=? i) && (i <? 0) then l !! Z.to_nat (n + i)
  else None.

(** [sorted(l, key=...)] on already keyed items: stable insertion. *)
Fixpoint insert_by_key {A} (x : Z * A) (l : list (Z * A)) : list (Z * A) :=
  match l with
  | [] => [x]
  | y :: l' => if x.1 <=? y.1 then x :: l else y :: insert_by_key x l'
  end.

Definition sort_by_key {A} (l : list (Z * A)) : list (Z * A) :=
  foldr insert_by_key [] l.

End Py.
Export Py.

(** ** udapi/core/node.py *)
Module Node.

(** Object identity. *)
Definition ref : Type := nat.

(** Which class an object is an instance of.  [Root] (udapi.core.root) is a
    subclass of [Node]; only its interface is used here. *)
Inductive class : Type := NodeClass | RootClass.

(** One entry of [_deps]: the dict [{'parent': node, 'deprel': deprel}]. *)
Record dependency : Type := Dependency {
  dep_parent : ref;
  dep_deprel : string;
}.

(** The slots the methods below read or write; [None] is Python's None, the
    value [__init__] gives to [ord], [form] and [misc].  An [ord] that is set
    is an integer (the fractional keys of [shift] live only inside that
    method).  [_descendants] is the slot of [Root] that holds the ord-indexed
    list of all nodes of the sentence. *)
Record Node : Type := mkNode {
  cls : class;
  ord : option Z;
  form : option string;
  misc : option string;
  _raw_deps : string;
  _deps : option (list dependency);
  _parent : option ref;
  _children : list ref;
  _descendants : list ref;
}.

(** [Node.__init__] without [data]. *)
Definition Node__init__ : Node :=
  {| cls := NodeClass; ord := None; form := None; misc := None;
     _raw_deps := "_"; _deps := None; _parent := None; _children := [];
     _descendants := [] |}.

(** Modelled from the spec: the constructor of the sentence root
    (udapi/core/root.py), a node with ord 0, no parent and an empty
    registry. *)
Definition Root__init__ : Node :=
  {| cls := RootClass; ord := Some 0; form := Some "<ROOT>"; misc := None;
     _raw_deps := "_"; _deps := None; _parent := None; _children := [];
     _descendants := [] |}.

Definition with_ord (v : option Z) (n : Node) : Node :=
  {| cls := cls n; ord := v; form := form n; misc := misc n;
     _raw_deps := _raw_deps n; _deps := _deps n; _parent := _parent n;
     _children := _children n; _descendants := _descendants n |}.
Definition with_form (v : option string) (n : Node) : Node :=
  {| cls := cls n; ord := ord n; form := v; misc := misc n;
     _raw_deps := _raw_deps n; _deps := _deps n; _parent := _parent n;
     _children := _children n; _descendants := _descendants n |}.
Definition with_misc (v : option string) (n : Node) : Node :=
  {| cls := cls n; ord := ord n; form := form n; misc := v;
     _raw_deps := _raw_deps n; _deps := _deps n; _parent := _parent n;
     _children := _children n; _descendants := _descendants n |}.
Definition with_raw_deps (v : string) (n : Node) : Node :=
  {| cls := cls n; ord := ord n; form := form n; misc := misc n;
     _raw_deps := v; _deps := _deps n; _parent := _parent n;
     _children := _children n; _descendants := _descendants n |}.
Definition with_deps (v : option (list dependency)) (n : Node) : Node :=
  {| cls := cls n; ord := ord n; form := form n; misc := misc n;
     _raw_deps := _raw_deps n; _deps := v; _parent := _parent n;
     _children := _children n; _descendants := _descendants n |}.
Definition with_parent (v : option ref) (n : Node) : Node :=
  {| cls := cls n; ord := ord n; form := form n; misc := misc n;
     _raw_deps := _raw_deps n; _deps := _deps n; _parent := v;
     _children := _children n; _descendants := _descendants n |}.
Definition with_children (v : list ref) (n : Node) : Node :=
  {| cls := cls n; ord := ord n; form := form n; misc := misc n;
     _raw_deps := _raw_deps n; _deps := _deps n; _parent := _parent n;
     _children := v; _descendants := _descendants n |}.
Definition with_descendants (v : list ref) (n : Node) : Node :=
  {| cls := cls n; ord := ord n; form := form n; misc := misc n;
     _raw_deps := _raw_deps n; _deps := _deps n; _parent := _parent n;
     _children := _children n; _descendants := v |}.

(** The store of all live objects. *)
Abbreviation heap := (gmap ref Node).

(** A method body: runs on a store, ends with an outcome and a store. *)
Definition M (A : Type) : Type := heap → outcome A * heap.

Definition ret {A} (a : A) : M A := λ h, (Ret a, h).
Definition raise {A} (e : exn) : M A := λ h, (Raise e, h).
Definition no_result {A} (w : stuck) : M A := λ h, (NoResult w, h).
Definition bind {A B} (m : M A) (k : A → M B) : M B :=
  λ h, match m h with
       | (Ret a, h') => k a h'
       | (Raise e, h') => (Raise e, h')
       | (NoResult w, h') => (NoResult w, h')
       end.

#[export] Instance M_ret : MRet M := @ret.
#[export] Instance M_bind : MBind M := λ A B k m, bind m k.

(** [try: m except IndexError: handler]. *)
Definition except_IndexError {A} (m : M A) (handler : M A) : M A :=
  λ h, match m h with
       | (Raise (IndexError _), h') => handler h'
       | r => r
       end.

Definition load (x : ref) : M Node :=
  λ h, match h !! x with
       | Some n => (Ret n, h)
       | None => (NoResult Dangling, h)
       end.

Definition update (x : ref) (f : Node → Node) : M unit :=
  λ h, match h !! x with
       | Some n => (Ret tt, <[x := f n]> h)
       | None => (NoResult Dangling, h)
       end.

(** A new object: the identity is one no live object has. *)
Definition new (n : Node) : M ref :=
  λ h, let x := fresh (dom h) in (Ret x, <[x := n]> h).

(** How many objects are live: no acyclic walk over links is longer. *)
Definition live_objects : M nat := λ h, (Ret (size h), h).

Fixpoint for_each {A} (l : list A) (body : A → M unit) : M unit :=
  match l with
  | [] => ret tt
  | x :: l' => body x ;; for_each l' body
  end.

Fixpoint map_each {A B} (f : A → M B) (l : list A) : M (list B) :=
  match l with
  | [] => ret []
  | x :: l' => y ← f x; ys ← map_each f l'; ret (y :: ys)
  end.

(** [[x for x in l if cond(x)]]. *)
Fixpoint select (cond : ref → M bool) (l : list ref) : M (list ref) :=
  match l with
  | [] => ret []
  | x :: l' =>
      b ← cond x; xs ← select cond l';
      ret (if b : bool then x :: xs else xs)
  end.

(** [x.ord] where an integer is needed (arithmetic, comparison, ['%d']). *)
Definition get_ord (x : ref) : M Z :=
  n ← load x;
  match ord n with
  | Some k => ret k
  | None => raise (TypeError "unsupported operand: None")
  end.

(** The keys of a sort, when all of them are integers. *)
Fixpoint int_keys {A} (l : list (option Z * A)) : option (list (Z * A)) :=
  match l with
  | [] => Some []
  | (Some k, x) :: l' => (λ r, (k, x) :: r) <$> int_keys l'
  | (None, _) :: _ => None
  end.

(** [sorted(l, key=lambda n: n.ord)]: the keys are read first and the sort
    is stable; a key that is None cannot be compared, which shows as soon as
    there are two items. *)
Definition sorted_by_ord (l : list ref) : M (list ref) :=
  keyed ← map_each (λ x, n ← load x; ret (ord n, x)) l;
  match keyed with
  | [] | [_] => ret l
  | _ =>
      match int_keys keyed with
      | Some ks => ret (sort_by_key ks).*2
      | None => raise (TypeError "'<' not supported between instances")
      end
  end.

(** *** class ListOfNodes: a list with the node it was taken from. *)
Record ListOfNodes : Type := mkListOfNodes {
  items : list ref;
  origin : ref;
}.

(** [ListOfNodes.__call__]. *)
Definition ListOfNodes__call__ (self : ListOfNodes)
    (add_self following_only preceding_only : bool) : M (list ref) :=
  if negb add_self && negb following_only && negb preceding_only then
    ret (items self)
  else
    let result := items self in
    let result := if add_self then result ++ [origin self] else result in
    result ←
      (if preceding_only then
         select (λ x, a ← get_ord x; b ← get_ord (origin self);
                      ret (a <=? b)) result
       else ret result);
    result ←
      (if following_only then
         select (λ x, a ← get_ord x; b ← get_ord (origin self);
                      ret (a >=? b)) result
       else ret result);
    sorted_by_ord result.

(** [self.descendants()] and [self.children()]: the call without options. *)
Definition plain (l : ListOfNodes) : M (list ref) :=
  ListOfNodes__call__ l false false false.

(** *** class Node *)

(** [x.attr] when [x] is None. *)
Definition of_None {A} (attr : string) : M A :=
  raise (AttributeError ("'NoneType' object has no attribute " +:+ attr)).

(** The getter of [parent]. *)
Definition parent (self : ref) : M (option ref) :=
  n ← load self; ret (_parent n).

(** The getter of [children]: a new list object over [_children]. *)
Definition children (self : ref) : M ListOfNodes :=
  n ← load self; ret (mkListOfNodes (_children n) self).

(** [x.is_root()], the call: [Node.is_root] returns False. *)
Definition Node_is_root : bool := false.

(** Modelled from the spec: [Root.is_root], the root-capability probe of the
    sentence root, returns true. *)
Definition Root_is_root : bool := true.

Definition is_root (x : ref) : M bool :=
  n ← load x;
  ret (match cls n with NodeClass => Node_is_root | RootClass => Root_is_root end).

(** [x.is_root], the attribute without a call: on a [Node] the static
    method's function, on a [Root] its bound method. *)
Definition getattr_is_root (x : ref) : M value :=
  n ← load x;
  ret (match cls n with
       | NodeClass => PyFunction "Node.is_root"
       | RootClass => PyMethod "Root.is_root" x
       end).

(** [Node.__str__], which ['%s' % self] calls:
    ["<%d, %s, %s, %s>" % (self.ord, self.form, parent_ord, self.deprel)].
    An exception is told by its class and the place that raises it, so the
    text is not kept; what is kept is that the parent is read for its ord
    and that ['%d'] needs a number. *)
Definition Node__str__ (self : ref) : M unit :=
  n ← load self;
  p ← parent self;
  match p with
  | Some p => _ ← load p; ret tt
  | None => ret tt
  end;;
  match ord n with
  | Some _ => ret tt
  | None => raise (TypeError "%d format: a number is required, not NoneType")
  end.

(** The [while] loop of the setter of [parent]. *)
Fixpoint climb (fuel : nat) (self : ref) (climbing_node : option ref) : M unit :=
  match climbing_node with
  | None => of_None "is_root"
  | Some c =>
      probe ← getattr_is_root c;
      if negb (truthy probe) then
        if decide (c = self) then
          Node__str__ self;;
          raise (Exception "Setting the parent would lead to a loop")
        else
          match fuel with
          | O => no_result Unbounded
          | S fuel' => next ← parent c; climb fuel' self next
          end
      else ret tt
  end.

(** The setter of [parent]. *)
Definition set_parent (self : ref) (new_parent : option ref) : M unit :=
  old ← parent self;
  if decide (old = new_parent) then ret tt
  else if decide (Some self = new_parent) then
    Node__str__ self;;
    raise (ValueError "Could not set the node itself as a parent")
  else
    bound ← live_objects;
    climb bound self new_parent;;
    match old with
    | Some p =>
        cs ← children p;
        update p (with_children (filter (λ node, node ≠ self) (items cs)))
    | None => ret tt
    end;;
    update self (with_parent new_parent);;
    match new_parent with
    | None => of_None "children"
    | Some np =>
        cs ← children np;
        sorted ← sorted_by_ord (items cs ++ [self]);
        update np (with_children sorted)
    end.

(** The getter of [root]. *)
Fixpoint root_walk (fuel : nat) (node : ref) : M ref :=
  p ← parent node;
  match p with
  | None => ret node
  | Some p =>
      match fuel with
      | O => no_result Unbounded
      | S fuel' => root_walk fuel' p
      end
  end.

Definition root (self : ref) : M ref :=
  bound ← live_objects; root_walk bound self.

(** The loop of [unordered_descendants] over the children. *)
Fixpoint gather (below : ref → M (list ref)) (cs : list ref) : M (list ref) :=
  match cs with
  | [] => ret []
  | child :: cs' =>
      ds ← below child; rest ← gather below cs'; ret (child :: ds ++ rest)
  end.

Fixpoint unordered_descendants_upto (depth : nat) (self : ref) : M (list ref) :=
  cs ← children self;
  match depth with
  | O => match items cs with [] => ret [] | _ => no_result Unbounded end
  | S depth' => gather (unordered_descendants_upto depth') (items cs)
  end.

Definition unordered_descendants (self : ref) : M (list ref) :=
  bound ← live_objects; unordered_descendants_upto bound self.

(** The getter of [descendants] in class [Node]. *)
Definition Node_descendants (self : ref) : M ListOfNodes :=
  ds ← unordered_descendants self;
  sorted ← sorted_by_ord ds;
  ret (mkListOfNodes sorted self).

(** [x._descendants]: a slot of [Root] only. *)
Definition get__descendants (x : ref) : M (list ref) :=
  n ← load x;
  match cls n with
  | RootClass => ret (_descendants n)
  | NodeClass =>
      raise (AttributeError "'Node' object has no attribute _descendants")
  end.

(** Modelled from the spec: the getter of [descendants] in [Root]
    (udapi/core/root.py), the ord-indexed accessor over all nodes of the
    sentence: a list over the registry, anchored at the root. *)
Definition Root_descendants (self : ref) : M ListOfNodes :=
  reg ← get__descendants self; ret (mkListOfNodes reg self).

(** [x.descendants], by the class of [x]. *)
Definition descendants (x : ref) : M ListOfNodes :=
  n ← load x;
  match cls n with
  | NodeClass => Node_descendants x
  | RootClass => Root_descendants x
  end.

(** [is_descendant_of]. *)
Fixpoint is_descendant_of_walk (fuel : nat) (climber : option ref) (node : ref)
    : M bool :=
  match climber with
  | None => ret false
  | Some c =>
      if decide (c = node) then ret true
      else match fuel with
           | O => no_result Unbounded
           | S fuel' => next ← parent c; is_descendant_of_walk fuel' next node
           end
  end.

Definition is_descendant_of (self node : ref) : M bool :=
  bound ← live_objects;
  climber ← parent self;
  is_descendant_of_walk bound climber node.

(** [create_child]. *)
Definition create_child (self : ref) : M ref :=
  new_node ← new Node__init__;
  r ← root self; reg ← get__descendants r;
  update new_node (with_ord (Some (Z.of_nat (length reg) + 1)));;
  r ← root self; reg ← get__descendants r;
  update r (with_descendants (reg ++ [new_node]));;
  _ ← children self;
  set_parent new_node (Some self);;
  ret new_node.

(** [x.children = value]: [children] is a property that defines no setter,
    and no slot has that name, so the assignment raises. *)
Definition set_children (x : ref) (value : list ref) : M unit :=
  _ ← load x; raise (AttributeError "can't set attribute").

(** [for (new_ord, node) in enumerate(l, start): node.ord = new_ord]. *)
Fixpoint renumber (start : Z) (l : list ref) : M unit :=
  match l with
  | [] => ret tt
  | node :: l' => update node (with_ord (Some start));; renumber (start + 1) l'
  end.

(** Modelled from the spec: [Root._update_ordering] (udapi/core/root.py),
    the global renumbering pass: it re-sorts all nodes by their current
    order key, rebuilds the registry and reassigns the ords 1..n. *)
Definition Root__update_ordering (self : ref) : M unit :=
  ds ← unordered_descendants self;
  sorted ← sorted_by_ord ds;
  update self (with_descendants sorted);;
  renumber 1 sorted.

(** [x._update_ordering()]: a method of [Root] only. *)
Definition _update_ordering (x : ref) : M unit :=
  n ← load x;
  match cls n with
  | RootClass => Root__update_ordering x
  | NodeClass =>
      raise (AttributeError "'Node' object has no attribute _update_ordering")
  end.

(** [remove]. *)
Definition remove (self : ref) : M unit :=
  p ← parent self;
  cs ← match p with
       | None => of_None "children"
       | Some p => children p
       end;
  let value := filter (λ child, child ≠ self) (items cs) in
  p ← parent self;
  match p with
  | None => of_None "children"
  | Some p => set_children p value
  end;;
  r ← root self;
  _update_ordering r.

(** [l[i]] with its IndexError. *)
Definition index (l : list ref) (i : Z) : M ref :=
  match getitem l i with
  | Some x => ret x
  | None => raise (IndexError "list index out of range")
  end.

(** The getter of [prev_node]. *)
Definition prev_node (self : ref) : M (option ref) :=
  o ← get_ord self;
  let new_ord := o - 1 in
  if new_ord <? 0 then ret None
  else if new_ord =? 0 then r ← root self; ret (Some r)
  else
    r ← root self;
    reg ← get__descendants r;
    o ← get_ord self;
    x ← index reg (o - 1);
    ret (Some x).

(** The getter of [next_node]. *)
Definition next_node (self : ref) : M (option ref) :=
  except_IndexError
    (r ← root self;
     reg ← get__descendants r;
     o ← get_ord self;
     x ← index reg o;
     ret (Some x))
    (ret None).

(** [is_leaf]. *)
Definition is_leaf (self : ref) : M bool :=
  cs ← children self;
  ret (match items cs with [] => true | _ => false end).

(** The body of the loop of [compute_sentence]; [text] is its [string]. *)
Definition compute_sentence_step (text : string) (node : ref) : M string :=
  n ← load node;
  f ← match form n with
      | Some f => ret f
      | None => raise (TypeError "can only concatenate str to str")
      end;
  let text := text +:+ f in
  m ← match misc n with
      | Some m => ret m
      | None => of_None "find"
      end;
  if find m "SpaceAfter=No" =? -1 then ret (text +:+ " ") else ret text.

Fixpoint compute_sentence_loop (text : string) (nodes : list ref) : M string :=
  match nodes with
  | [] => ret text
  | node :: nodes' =>
      text ← compute_sentence_step text node;
      compute_sentence_loop text nodes'
  end.

(** [compute_sentence]. *)
Definition compute_sentence (self : ref) : M string :=
  ds ← descendants self;
  nodes ← plain ds;
  compute_sentence_loop "" nodes.

(** The getter of [raw_deps]. *)
Definition raw_deps (self : ref) : M string :=
  n ← load self;
  match _deps n with
  | Some deps =>
      serialized_deps ←
        map_each (λ secondary_dependence,
                    o ← get_ord (dep_parent secondary_dependence);
                    ret (format_d o +:+ ":" +:+ dep_deprel secondary_dependence))
                 deps;
      update self (with_raw_deps (join "|" serialized_deps));;
      n ← load self; ret (_raw_deps n)
  | None => ret (_raw_deps n)
  end.

(** The setter of [raw_deps]; [value] is a string, so [str(value)] is it. *)
Definition set_raw_deps (self : ref) (value : string) : M unit :=
  update self (with_raw_deps value);;
  update self (with_deps None).

(** [self._deps.append(d)]. *)
Definition _deps_append (self : ref) (d : dependency) : M unit :=
  n ← load self;
  match _deps n with
  | Some ds => update self (with_deps (Some (ds ++ [d])))
  | None => of_None "append"
  end.

(** The body of the loop of the getter of [deps]:
    [head, deprel = raw_dependency.split(':')], then the lookup. *)
Definition deps_step (self : ref) (nodes : list ref) (raw_dependency : string)
    : M unit :=
  match split ":" raw_dependency with
  | [head; deprel] =>
      i ← match int head with
          | Some i => ret i
          | None => raise (ValueError "invalid literal for int() with base 10")
          end;
      parent ← index nodes i;
      _deps_append self (Dependency parent deprel)
  | [] | [_] => raise (ValueError "not enough values to unpack (expected 2, got 1)")
  | _ => raise (ValueError "too many values to unpack (expected 2)")
  end.

(** The value the getter of [deps] returns: the list in [_deps]. *)
Definition return__deps (self : ref) : M (list dependency) :=
  n ← load self;
  match _deps n with
  | Some ds => ret ds
  | None => of_None "deps"
  end.

(** The getter of [deps]. *)
Definition deps (self : ref) : M (list dependency) :=
  n ← load self;
  match _deps n with
  | None =>
      r ← root self;
      r' ← root self;
      ds ← descendants r';
      rest ← plain ds;
      let nodes := r :: rest in
      update self (with_deps (Some []));;
      n ← load self;
      if decide (_raw_deps n = "_") then return__deps self
      else
        for_each (split "|" (_raw_deps n)) (deps_step self nodes);;
        return__deps self
  | Some _ => return__deps self
  end.

(** The setter of [deps]. *)
Definition set_deps (self : ref) (value : list dependency) : M unit :=
  update self (with_deps (Some value)).

End Node.

(** ** udapi/block/ud/markbugs.py *)
Module MarkBugs.

Abbreviation ref := Node.ref.

(** What the block reads of a node.  [misc] is the plain slot of class
    [Node], which holds None or a string; [feats] is the Feats object, used
    as a mapping from names to strings. *)
Record Node : Type := mkNode {
  ord : Z;
  deprel : option string;
  upos : option string;
  feats : gmap string string;
  misc : option string;
  parent : option ref;
  children : list ref;
}.

(** [collections.Counter]: a dict, so the keys keep their insertion order;
    a key that is absent counts 0. *)
Abbreviation Counter := (list (string * Z)).

Fixpoint Counter_get (c : Counter) (key : string) : Z :=
  match c with
  | [] => 0
  | (k, v) :: c' => if decide (k = key) then v else Counter_get c' key
  end.

Fixpoint Counter_set (c : Counter) (key : string) (v : Z) : Counter :=
  match c with
  | [] => [(key, v)]
  | (k, w) :: c' =>
      if decide (k = key) then (k, v) :: c' else (k, w) :: Counter_set c' key v
  end.

(** The trees, the block's [self.stats], and what [logging.warning] wrote.
    [root_address] is the address of the sentence root, which
    [node.address()] puts before the ord. *)
Record state : Type := mkState {
  nodes : gmap ref Node;
  root_address : string;
  stats : Counter;
  warnings : list string;
}.

Definition B (A : Type) : Type := state → outcome A * state.

#[export] Instance B_ret : MRet B := λ A a s, (Ret a, s).
#[export] Instance B_bind : MBind B := λ A C k m s,
  match m s with
  | (Ret a, s') => k a s'
  | (Raise e, s') => (Raise e, s')
  | (NoResult w, s') => (NoResult w, s')
  end.

Definition raise {A} (e : exn) : B A := λ s, (Raise e, s).

Definition load (x : ref) : B Node :=
  λ s, match nodes s !! x with
       | Some n => (Ret n, s)
       | None => (NoResult Dangling, s)
       end.

(** [logging.warning(msg)]. *)
Definition warning (msg : string) : B unit :=
  λ s, (Ret tt, {| nodes := nodes s; root_address := root_address s;
                   stats := stats s; warnings := warnings s ++ [msg] |}).

(** [node.address()]: ['%s#%d' % (self.root.address(), self.ord)]. *)
Definition get_root_address : B string := λ s, (Ret (root_address s), s).

Definition address (node : ref) : B string :=
  a ← get_root_address;
  n ← load node;
  mret (a +:+ "#" +:+ format_d (ord n)).

(** Modelled from the spec: [feats[name]], the per-feature-name get of the
    Feats value object (its class is not in this part of the repository):
    the string stored under [name], the empty string when there is none. *)
Definition item (d : gmap string string) (name : string) : string :=
  default "" (d !! name).

(** [node.misc[name]]: neither None nor a string can be subscripted by a
    name, so the read raises. *)
Definition misc_getitem (node : ref) (name : string) : B string :=
  n ← load node;
  match misc n with
  | None => raise (TypeError "'NoneType' object is not subscriptable")
  | Some _ => raise (TypeError "string indices must be integers")
  end.

(** [node.misc[name] = v]: nor can an item be assigned. *)
Definition misc_setitem (node : ref) (name v : string) : B unit :=
  n ← load node;
  match misc n with
  | None =>
      raise (TypeError "'NoneType' object does not support item assignment")
  | Some _ =>
      raise (TypeError "'str' object does not support item assignment")
  end.

(** [self.stats[key] += 1] *)
Definition stats_increment (key : string) : B unit :=
  λ s, (Ret tt, {| nodes := nodes s; root_address := root_address s;
                   stats := Counter_set (stats s) key (Counter_get (stats s) key + 1);
                   warnings := warnings s |}).

(** A string is true when it is not empty. *)
Definition nonempty (s : string) : bool :=
  match s with EmptyString => false | _ => true end.

(** ['%s' % x] for a string or None. *)
Definition format_s (x : option string) : string := default "None" x.

(** [MarkBugs.log]. *)
Definition log (node : ref) (short_msg long_msg : string) : B unit :=
  a ← address node;
  warning ("node " +:+ a +:+ " " +:+ short_msg +:+ ": " +:+ long_msg);;
  bug ← misc_getitem node "Bug";
  (if nonempty bug then misc_setitem node "Bug" (bug +:+ "," +:+ short_msg)
   else misc_setitem node "Bug" short_msg);;
  stats_increment short_msg.

Definition when (c : bool) (m : B unit) : B unit := if c then m else mret tt.

Fixpoint for_each {A} (l : list A) (body : A → B unit) : B unit :=
  match l with
  | [] => mret tt
  | x :: l' => body x ;; for_each l' body
  end.

(** [parent.deprel] and [parent.upos]; [parent] may be None. *)
Definition parent_deprel (parent : option ref) : B (option string) :=
  match parent with
  | None => raise (AttributeError "'NoneType' object has no attribute deprel")
  | Some p => n ← load p; mret (deprel n)
  end.

Definition parent_upos (parent : option ref) : B (option string) :=
  match parent with
  | None => raise (AttributeError "'NoneType' object has no attribute upos")
  | Some p => n ← load p; mret (upos n)
  end.

(** [node.precedes(parent)]: class [Node] defines no [precedes] and its
    instances have slots only, so the lookup of the attribute raises before
    the argument is used. *)
Definition precedes (node : ref) (other : option ref) : B bool :=
  _ ← load node;
  raise (AttributeError "'Node' object has no attribute precedes").

(** [[n for n in node.children if cond(n.deprel)]], where the condition
    needs a string. *)
Fixpoint children_where (cond : string → bool) (l : list ref) : B (list ref) :=
  match l with
  | [] => mret []
  | x :: l' =>
      n ← load x;
      b ← match deprel n with
          | Some d => mret (cond d)
          | None => raise (TypeError "argument of type 'NoneType' is not iterable")
          end;
      xs ← children_where cond l';
      mret (if b : bool then x :: xs else xs)
  end.

(** [[n for n in node.children if n.deprel in (...)]]. *)
Fixpoint children_in (labels : list string) (l : list ref) : B (list ref) :=
  match l with
  | [] => mret []
  | x :: l' =>
      n ← load x;
      xs ← children_in labels l';
      mret (if bool_decide (deprel n ∈ (Some <$> labels)) then x :: xs else xs)
  end.

Definition REQUIRED_FEATURE_FOR_UPOS : list (string * string) :=
  [("PRON", "PronType"); ("DET", "PronType"); ("NUM", "NumType");
   ("VERB", "VerbForm")].

(** [x in (a, b, ...)] on tags. *)
Definition among (x : option string) (l : list string) : bool :=
  bool_decide (x ∈ (Some <$> l)).

(** [MarkBugs.process_node]. *)
Definition process_node (node : ref) : B unit :=
  n ← load node;
  let deprel := deprel n in
  let upos := upos n in
  let feats := feats n in
  let parent := parent n in
  for_each ["aux"; "fixed"; "appos"] (λ dep,
    if bool_decide (deprel = Some dep) then
      pd ← parent_deprel parent;
      when (bool_decide (pd = Some dep))
        (log node (dep +:+ "-chain") (dep +:+ " dependencies should not form a chain."))
    else mret tt);;
  for_each ["flat"; "fixed"; "conj"; "appos"] (λ dep,
    if bool_decide (deprel = Some dep) then
      b ← precedes node parent;
      when b
        (log node (dep +:+ "-rightheaded")
           (dep +:+ " relations should be left-headed, not right."))
    else mret tt);;
  when (bool_decide (deprel = Some "cop") && negb (among upos ["AUX"; "PRON"]))
    (log node "cop-upos" ("deprel=cop upos!=AUX|PRON (but " +:+ format_s upos +:+ ")"));;
  when (bool_decide (deprel = Some "mark") && bool_decide (upos = Some "PRON"))
    (log node "mark-upos" "deprel=mark upos=PRON");;
  when (bool_decide (deprel = Some "det") && negb (among upos ["DET"; "PRON"]))
    (log node "det-upos" ("deprel=det upos!=DET|PRON (but " +:+ format_s upos +:+ ")"));;
  when (bool_decide (deprel = Some "punct") && negb (bool_decide (upos = Some "PUNCT")))
    (log node "punct-upos" ("deprel=punct upos!=PUNCT (but " +:+ format_s upos +:+ ")"));;
  for_each REQUIRED_FEATURE_FOR_UPOS (λ '(i_upos, i_feat),
    when (bool_decide (upos = Some i_upos) && negb (nonempty (item feats i_feat)))
      (log node ("no-" +:+ i_feat)
         ("upos=" +:+ format_s upos +:+ " but " +:+ i_feat +:+ " feature is missing")));;
  (if bool_decide (item feats "VerbForm" = "Fin") then
     when (negb (among upos ["VERB"; "AUX"]))
       (log node "finverb-upos"
          ("VerbForm=Fin upos!=VERB|AUX (but " +:+ format_s upos +:+ ")"));;
     when (negb (nonempty (item feats "Mood")))
       (log node "finverb-mood" "VerbForm=Fin but Mood feature is missing")
   else mret tt);;
  when (nonempty (item feats "Degree") && negb (among upos ["ADJ"; "ADV"]))
    (log node "degree-upos"
       ("Degree=" +:+ item feats "Degree" +:+ " upos!=ADJ|ADV (but "
          +:+ format_s upos +:+ ")"));;
  subject_children ← children_where (contains "subj") (children n);
  when (1 <? length subject_children)%nat
    (log node "multi-subj" "More than one [nc]subj(:pass)? child");;
  object_children ← children_in ["obj"; "ccomp"] (children n);
  when (1 <? length object_children)%nat
    (log node "multi-obj" "More than one obj|ccomp child");;
  pu ← parent_upos parent;
  when (bool_decide (pu = Some "ADP")
        && negb (among deprel ["conj"; "cc"; "punct"; "fixed"]))
    (log node "adp-child" "parent.upos=ADP deprel!=conj|cc|punct|fixed");;
  pd ← parent_deprel parent;
  when (bool_decide (pd = Some "punct"))
    (log node "punct-child" "parent.deprel=punct").

(** One line of the overview: ['%20s %10d' % (bug, count)]. *)
Definition overview_line (bug : string) (count : Z) : string :=
  rjust 20 bug +:+ " " +:+ rjust 10 (format_d count).

(** The loop of [process_end] over the sorted items. *)
Fixpoint overview (total : Z) (l : list (Z * string)) : B Z :=
  match l with
  | [] => mret total
  | (count, bug) :: l' =>
      warning (overview_line bug count);; overview (total + count) l'
  end.

(** [self.stats.items()]. *)
Definition stats_items : B Counter := λ s, (Ret (stats s), s).

(** [MarkBugs.process_end]; the items are sorted by their count. *)
Definition process_end : B unit :=
  warning "ud.MarkBugs Error Overview:";;
  items ← stats_items;
  total ← overview 0 (sort_by_key ((λ '(bug, count), (count, bug)) <$> items));
  warning (overview_line "TOTAL" total).

End MarkBugs.

(** ** Sentences used as concrete inputs *)
Module Example.
Import Node.

(** A sentence with its root only. *)
Definition the_root : ref := 0%nat.
Definition empty_sentence : heap := {[ the_root := Root__init__ ]}.

(** [node.form = f; node.misc = m]: plain slots are assigned directly. *)
Definition set_form_misc (x : ref) (f m : string) : M unit :=
  update x (with_form (Some f));; update x (with_misc (Some m)).

(** The chain A (ord 1) -> B (ord 2) -> C (ord 3) under the root, built the
    way client code builds it. *)
Definition build_chain : M (ref * ref * ref) :=
  a ← create_child the_root;
  b ← create_child a;
  c ← create_child b;
  ret (a, b, c).

Definition chain : heap := (build_chain empty_sentence).2.
Definition node_A : ref := 1%nat.
Definition node_B : ref := 2%nat.
Definition node_C : ref := 3%nat.

(** The same chain of plain nodes without a sentence root: three calls of
    [Node()], their ords, and [B.parent = A; C.parent = B]. *)
Definition build_bare_chain : M (ref * ref * ref) :=
  a ← new Node__init__; update a (with_ord (Some 1));;
  b ← new Node__init__; update b (with_ord (Some 2));;
  c ← new Node__init__; update c (with_ord (Some 3));;
  set_parent b (Some a);;
  set_parent c (Some b);;
  ret (a, b, c).

Definition bare_chain : heap := (build_bare_chain ∅).2.
Definition bare_A : ref := 0%nat.
Definition bare_B : ref := 1%nat.
Definition bare_C : ref := 2%nat.

(** The chain after [C.raw_deps = '1:nsubj|2:nsubj:pass']: the second entry
    has a subtyped relation. *)
Definition subtyped : heap :=
  (set_raw_deps node_C "1:nsubj|2:nsubj:pass" chain).2.





(** The same chain with words: "a", then "b" glued to the next word, "c". *)
Definition build_words : M unit :=
  set_form_misc node_A "a" "_";;
  set_form_misc node_B "b" "SpaceAfter=No";;
  set_form_misc node_C "c" "_".

Definition words : heap := (build_words chain).2.

(** A copula tagged as a verb, under the root of sentence [s1], before
    the block has counted anything.  Its [misc] is the string that a
    CoNLL-U file has in that column when there is no annotation. *)
Definition cop_root : MarkBugs.Node :=
  {| MarkBugs.ord := 0; MarkBugs.deprel := None; MarkBugs.upos := None;
     MarkBugs.feats := ∅; MarkBugs.misc := None; MarkBugs.parent := None;
     MarkBugs.children := [1%nat] |}.

Definition cop_node : MarkBugs.Node :=
  {| MarkBugs.ord := 1; MarkBugs.deprel := Some "cop";
     MarkBugs.upos := Some "VERB";
     MarkBugs.feats := {[ "VerbForm" := "Fin" ]};
     MarkBugs.misc := Some "_";
     MarkBugs.parent := Some 0%nat; MarkBugs.children := [] |}.

Definition cop_state : MarkBugs.state :=
  {| MarkBugs.nodes := {[ 0%nat := cop_root; 1%nat := cop_node ]};
     MarkBugs.root_address := "s1";
     MarkBugs.stats := [];
     MarkBugs.warnings := [] |}.

(** The same copula as [Node()] leaves its [misc]: None. *)
Definition fresh_cop_node : MarkBugs.Node :=
  {| MarkBugs.ord := 1; MarkBugs.deprel := Some "cop";
     MarkBugs.upos := Some "VERB";
     MarkBugs.feats := ∅;
     MarkBugs.misc := None;
     MarkBugs.parent := Some 0%nat; MarkBugs.children := [] |}.

Definition fresh_cop_state : MarkBugs.state :=
  {| MarkBugs.nodes := {[ 0%nat := cop_root; 1%nat := fresh_cop_node ]};
     MarkBugs.root_address := "s1";
     MarkBugs.stats := [];
     MarkBugs.warnings := [] |}.

(** A word on which no rule fires, after two chains were counted. *)
Definition plain_word : MarkBugs.Node :=
  {| MarkBugs.ord := 1; MarkBugs.deprel := Some "root";
     MarkBugs.upos := Some "NOUN";
     MarkBugs.feats := ∅;
     MarkBugs.misc := Some "_";
     MarkBugs.parent := Some 0%nat; MarkBugs.children := [] |}.

Definition plain_state : MarkBugs.state :=
  {| MarkBugs.nodes := {[ 0%nat := cop_root; 1%nat := plain_word ]};
     MarkBugs.root_address := "s1";
     MarkBugs.stats := [("aux-chain", 2)];
     MarkBugs.warnings := [] |}.

End Example.

(** ** Vocabulary of the statements *)
Module Spec.
Import Node.

(** The ord of a live node, when it is set. *)
Definition ord_of (h : heap) (x : ref) : option Z := h !! x ≫= ord.

(** The sort key of a node whose ord is set. *)
Definition key (h : heap) (x : ref) : Z := default 0 (ord_of h x).

(** Ascending by ord. *)
Definition ascending (h : heap) (l : list ref) : Prop :=
  StronglySorted (λ x y, key h x ≤ key h y) l.

(** What the options of a [ListOfNodes] call keep, relative to the origin. *)
Definition kept (h : heap) (o : ref) (following_only preceding_only : bool)
    (x : ref) : Prop :=
  (preceding_only = true → key h x ≤ key h o)
  ∧ (following_only = true → key h o ≤ key h x).

#[export] Instance kept_dec h o f p x : Decision (kept h o f p x).
Proof. unfold kept. apply _. Defined.

(** The stable sort of a list of nodes by a key. *)
Definition sorted_refs (k : ref → Z) (l : list ref) : list ref :=
  (sort_by_key ((λ x, (k x, x)) <$> l)).*2.

(** A method body that never raises the plain [Exception] (the class of the
    setter's loop error), on any store. *)
Definition never_Exception {A} (m : M A) : Prop :=
  ∀ h msg, (m h).1 ≠ Raise (Exception msg).

(** A sentence: [r] is a root whose registry is [reg], and the node at
    index [i] of the registry has ord [i + 1]. *)
Definition registered (h : heap) (r : ref) (reg : list ref) : Prop :=
  (∃ rn, h !! r = Some rn ∧ cls rn = RootClass ∧ _descendants rn = reg)
  ∧ ∀ i x, reg !! i = Some x → ord_of h x = Some (Z.of_nat i + 1).

(** What one word adds to the text of [compute_sentence]. *)
Definition word_text (f m : string) : string :=
  if find m "SpaceAfter=No" =? -1 then f +:+ " " else f.

(** The words of a list of nodes, when each has a form and a misc. *)
Fixpoint words_of (h : heap) (l : list ref) : option (list string) :=
  match l with
  | [] => Some []
  | x :: l' =>
      n ← h !! x; f ← form n; m ← misc n; ws ← words_of h l';
      Some (word_text f m :: ws)
  end.

(** What the tree walks read of a node: everything but the two forms of the
    secondary dependencies and the word itself. *)
Definition shape (n : Node) : class * option Z * option ref * list ref * list ref :=
  (cls n, ord n, _parent n, _children n, _descendants n).

(** Two stores with the same objects and the same tree. *)
Definition same_shape (g g' : heap) : Prop :=
  ∀ x, shape <$> g' !! x = shape <$> g !! x.

(** One entry of a raw string read against the list of all nodes: exactly
    one colon, an integer before it, and a node at that index. *)
Definition parse_entry (nodes : list ref) (e : string) : option dependency :=
  match split ":" e with
  | [head; deprel] =>
      i ← int head; x ← getitem nodes i; Some (Dependency x deprel)
  | _ => None
  end.

Fixpoint parse_entries (nodes : list ref) (l : list string)
    : option (list dependency) :=
  match l with
  | [] => Some []
  | e :: l' =>
      d ← parse_entry nodes e; ds ← parse_entries nodes l'; Some (d :: ds)
  end.





(** The serialization of one structured entry, given the ord of its parent. *)
Definition serialize (h : heap) (d : dependency) : string :=
  format_d (key h (dep_parent d)) +:+ ":" +:+ dep_deprel d.

(** A part of the block that leaves a property of the state as it is,
    however it ends. *)
Definition keeps (I : MarkBugs.state → Prop) {A} (m : MarkBugs.B A) : Prop :=
  ∀ s, I s → I (m s).2.

End Spec.

(** ** Relations on the tree, for the further properties *)
Module Tree.
Import Node.
Import Spec.

(** The parent links and the children lists say the same: [x] has the
    parent [p] exactly when [p] has [x] among its children. *)
Definition linked (h : heap) : Prop :=
  ∀ x p, (∃ n, h !! x = Some n ∧ _parent n = Some p)
         ↔ (∃ pn, h !! p = Some pn ∧ x ∈ _children pn).

(** The same, as a check that runs on a store. *)
Definition linked_check (h : heap) : bool :=
  forallb
    (λ '(x, n),
       match _parent n with
       | None => true
       | Some p =>
           match h !! p with
           | Some pn => bool_decide (x ∈ _children pn)
           | None => false
           end
       end
       && forallb (λ c, match h !! c with
                        | Some m => bool_decide (_parent m = Some x)
                        | None => false
                        end)
                  (_children n))
    (map_to_list h).

(** Walking up from a node that may be None: [a] is met on the way. *)
Inductive reaches (h : heap) : option ref → ref → Prop :=
| reaches_here (a : ref) : reaches h (Some a) a
| reaches_up (c : ref) (n : Node) (a : ref) :
    h !! c = Some n → reaches h (_parent n) a → reaches h (Some c) a.

(** [a] is the parent of [x], or the parent of its parent, and so on. *)
Definition ancestor (h : heap) (x a : ref) : Prop :=
  ∃ n, h !! x = Some n ∧ reaches h (_parent n) a.

(** The nodes from [x] up to a node without parent, in that order. *)
Inductive chain_to_top (h : heap) : ref → list ref → Prop :=
| chain_top (x : ref) (n : Node) :
    h !! x = Some n → _parent n = None → chain_to_top h x [x]
| chain_up (x : ref) (n : Node) (p : ref) (l : list ref) :
    h !! x = Some n → _parent n = Some p → chain_to_top h p l →
    chain_to_top h x (x :: l).

(** [y] is a child of [n], or a child of a child, and so on. *)
Inductive below (h : heap) : ref → ref → Prop :=
| below_child (n : ref) (nn : Node) (y : ref) :
    h !! n = Some nn → y ∈ _children nn → below h n y
| below_deeper (n : ref) (nn : Node) (c y : ref) :
    h !! n = Some nn → c ∈ _children nn → below h c y → below h n y.

(** The store after an accepted [self.parent = np]: [self] left the children
    of its old parent, has the new parent, and is among the children of the
    new parent, which are sorted by ord. *)
Definition reparented (h : heap) (self np : ref) (n npn : Node) : heap :=
  let h1 := match _parent n with
            | Some p =>
                match h !! p with
                | Some pn =>
                    <[p := with_children
                             (filter (λ node, node ≠ self) (_children pn)) pn]> h
                | None => h
                end
            | None => h
            end in
  <[np := with_children (sorted_refs (key h) (_children npn ++ [self])) npn]>
    (<[self := with_parent (Some np) n]> h1).

End Tree.

(** ** Characters and numerals, for the further properties *)
Module Text.
Import Node.
Import Spec.

(** [c in s] for one character. *)
Fixpoint has_char (c : ascii) (s : string) : bool :=
  match s with
  | EmptyString => false
  | String a s' => bool_decide (a = c) || has_char c s'
  end.

(** The value of a decimal numeral read from the left, after [acc]. *)
Fixpoint horner (acc : Z) (d : Decimal.uint) : Z :=
  match d with
  | Decimal.Nil => acc
  | Decimal.D0 d' => horner (10 * acc) d'
  | Decimal.D1 d' => horner (10 * acc + 1) d'
  | Decimal.D2 d' => horner (10 * acc + 2) d'
  | Decimal.D3 d' => horner (10 * acc + 3) d'
  | Decimal.D4 d' => horner (10 * acc + 4) d'
  | Decimal.D5 d' => horner (10 * acc + 5) d'
  | Decimal.D6 d' => horner (10 * acc + 6) d'
  | Decimal.D7 d' => horner (10 * acc + 7) d'
  | Decimal.D8 d' => horner (10 * acc + 8) d'
  | Decimal.D9 d' => horner (10 * acc + 9) d'
  end.

(** A relation label that can be written into a raw string: it holds
    neither the separator of entries nor the one inside an entry. *)
Definition plain_label (s : string) : Prop :=
  has_char ":" s = false ∧ has_char "|" s = false.

(** A structured entry that the raw string can carry, in a sentence whose
    list of all nodes is [nodes]: the parent has an ord and is the node at
    that index of the list, and the label is plain. *)
Definition readable (h : heap) (nodes : list ref) (d : dependency) : Prop :=
  (∃ i, ord_of h (dep_parent d) = Some i
        ∧ getitem nodes i = Some (dep_parent d))
  ∧ plain_label (dep_deprel d).

End Text.

(** ** What the block may change *)
Module Report.
Import Spec.

(** The sum of all counters. *)
Definition total (c : MarkBugs.Counter) : Z :=
  foldr (λ kv t, kv.2 + t) 0 c.

(** The sum of the counts of keyed items. *)
Definition sum_of_counts (l : list (Z * string)) : Z :=
  foldr (λ ck t, ck.1 + t) 0 l.

(** The state after one more line was written to the log. *)
Definition logged (s : MarkBugs.state) (line : string) : MarkBugs.state :=
  {| MarkBugs.nodes := MarkBugs.nodes s;
     MarkBugs.root_address := MarkBugs.root_address s;
     MarkBugs.stats := MarkBugs.stats s;
     MarkBugs.warnings := MarkBugs.warnings s ++ [line] |}.

(** The TypeError of [node.misc[name]], by what [misc] holds. *)
Definition not_subscriptable (misc : option string) : exn :=
  match misc with
  | None => TypeError "'NoneType' object is not subscriptable"
  | Some _ => TypeError "string indices must be integers"
  end.

(** A part of the block that either leaves the state as it is, or writes
    one line to the log and stops there with a TypeError. *)
Definition silent_or_stopped {A} (m : MarkBugs.B A) : Prop :=
  ∀ s, (m s).2 = s
       ∨ ∃ line msg, m s = (Raise (TypeError msg), logged s line).

(** A part of the block that does not return normally, on any state. *)
Definition stops {A} (m : MarkBugs.B A) : Prop :=
  ∀ s a, (m s).1 ≠ Ret a.

End Report.

(** * Properties *)

Import Spec.
Import Tree.
Import Text.
Import Report.

Import Node.
Import Example.

(** ** Running a method body *)

(** Running a sequence: the first part decides how it goes on. *)
Lemma run_bind {A B} (m : M A) (k : A → M B) (h : heap) :
  (m ≫= k) h = match m h with
               | (Ret a, h') => k a h'
               | (Raise e, h') => (Raise e, h')
               | (NoResult w, h') => (NoResult w, h')
               end.
Proof. reflexivity. Qed.

Lemma bind_Ret {A B} (m : M A) (k : A → M B) (h h' : heap) (a : A) :
  m h = (Ret a, h') → (m ≫= k) h = k a h'.
Proof. intros H. rewrite run_bind, H. reflexivity. Qed.

Lemma bind_Raise {A B} (m : M A) (k : A → M B) (h h' : heap) (e : exn) :
  m h = (Raise e, h') → (m ≫= k) h = (Raise e, h').
Proof. intros H. rewrite run_bind, H. reflexivity. Qed.

Lemma bind_NoResult {A B} (m : M A) (k : A → M B) (h h' : heap) (w : stuck) :
  m h = (NoResult w, h') → (m ≫= k) h = (NoResult w, h').
Proof. intros H. rewrite run_bind, H. reflexivity. Qed.

Lemma load_live (h : heap) (x : ref) (n : Node) :
  h !! x = Some n → load x h = (Ret n, h).
Proof. intros H. unfold load. rewrite H. reflexivity. Qed.

Lemma update_live (h : heap) (x : ref) (n : Node) (f : Node → Node) :
  h !! x = Some n → update x f h = (Ret tt, <[x := f n]> h).
Proof. intros H. unfold update. rewrite H. reflexivity. Qed.

Lemma parent_live (h : heap) (x : ref) (n : Node) :
  h !! x = Some n → parent x h = (Ret (_parent n), h).
Proof.
  intros H. unfold parent. by rewrite (bind_Ret _ _ _ _ _ (load_live _ _ _ H)).
Qed.

Lemma parent_dead (h : heap) (x : ref) :
  h !! x = None → parent x h = (NoResult Dangling, h).
Proof. intros H. unfold parent, load. rewrite run_bind, H. reflexivity. Qed.

Lemma children_live (h : heap) (x : ref) (n : Node) :
  h !! x = Some n → children x h = (Ret (mkListOfNodes (_children n) x), h).
Proof.
  intros H. unfold children. by rewrite (bind_Ret _ _ _ _ _ (load_live _ _ _ H)).
Qed.

Lemma get_ord_live (h : heap) (x : ref) (k : Z) :
  ord_of h x = Some k → get_ord x h = (Ret k, h).
Proof.
  unfold ord_of, get_ord. intros Hk.
  destruct (h !! x) as [n|] eqn:Hx; simpl in Hk; [|discriminate].
  rewrite (bind_Ret _ _ _ _ _ (load_live _ _ _ Hx)), Hk. reflexivity.
Qed.

Lemma key_live (h : heap) (x : ref) :
  is_Some (ord_of h x) → ord_of h x = Some (key h x).
Proof. intros [k Hk]. unfold key. by rewrite Hk. Qed.

Lemma get__descendants_root (h : heap) (r : ref) (rn : Node) :
  h !! r = Some rn → cls rn = RootClass →
  get__descendants r h = (Ret (_descendants rn), h).
Proof.
  intros Hr Hc. unfold get__descendants.
  by rewrite (bind_Ret _ _ _ _ _ (load_live _ _ _ Hr)), Hc.
Qed.

Lemma descendants_root (h : heap) (r : ref) (rn : Node) :
  h !! r = Some rn → cls rn = RootClass →
  descendants r h = (Ret (mkListOfNodes (_descendants rn) r), h).
Proof.
  intros Hr Hc. unfold descendants, Root_descendants.
  rewrite (bind_Ret _ _ _ _ _ (load_live _ _ _ Hr)), Hc.
  by rewrite (bind_Ret _ _ _ _ _ (get__descendants_root _ _ _ Hr Hc)).
Qed.

Lemma append_assoc (a b c : string) : (a +:+ b) +:+ c = a +:+ (b +:+ c).
Proof.
  induction a as [|x a IH]; [done|].
  change (String x ((a +:+ b) +:+ c) = String x (a +:+ (b +:+ c))).
  by f_equal.
Qed.

Lemma append_empty_r (a : string) : a +:+ "" = a.
Proof.
  induction a as [|x a IH]; [done|].
  change (String x (a +:+ "") = String x a). by f_equal.
Qed.

Lemma nonempty_append (a b : string) :
  MarkBugs.nonempty a = true → MarkBugs.nonempty (a +:+ b) = true.
Proof. by destruct a. Qed.

(** ** What the examples are *)

Lemma build_chain_result :
  (build_chain empty_sentence).1 = Ret (node_A, node_B, node_C).
Proof. vm_compute. reflexivity. Qed.

Lemma chain_links :
  (λ n, (ord n, _parent n, _children n)) <$> chain !! the_root
    = Some (Some 0, None, [node_A])
  ∧ (λ n, (ord n, _parent n, _children n)) <$> chain !! node_A
    = Some (Some 1, Some the_root, [node_B])
  ∧ (λ n, (ord n, _parent n, _children n)) <$> chain !! node_B
    = Some (Some 2, Some node_A, [node_C])
  ∧ (λ n, (ord n, _parent n, _children n)) <$> chain !! node_C
    = Some (Some 3, Some node_B, [])
  ∧ _descendants <$> chain !! the_root = Some [node_A; node_B; node_C].
Proof. vm_compute. repeat split. Qed.

Lemma bare_chain_links :
  (build_bare_chain ∅).1 = Ret (bare_A, bare_B, bare_C)
  ∧ (λ n, (cls n, ord n, _parent n, _children n)) <$> bare_chain !! bare_A
    = Some (NodeClass, Some 1, None, [bare_B])
  ∧ (λ n, (cls n, ord n, _parent n, _children n)) <$> bare_chain !! bare_B
    = Some (NodeClass, Some 2, Some bare_A, [bare_C])
  ∧ (λ n, (cls n, ord n, _parent n, _children n)) <$> bare_chain !! bare_C
    = Some (NodeClass, Some 3, Some bare_B, []).
Proof. vm_compute. repeat split. Qed.

(** ** The setter of [parent] *)

(** The condition of the ancestor walk reads the attribute [is_root] without
    calling it, and that value is true for every object. *)
Lemma getattr_is_root_truthy (x : ref) (h : heap) (n : Node) :
  h !! x = Some n →
  ∃ v, getattr_is_root x h = (Ret v, h) ∧ truthy v = true.
Proof.
  intros Hx. unfold getattr_is_root, mbind, M_bind, bind, load. rewrite Hx.
  destruct (cls n); eexists; split; reflexivity.
Qed.

(** So the walk ends before its first step, whatever the candidate is. *)
Lemma climb_never_walks (fuel : nat) (self c : ref) (h : heap) (n : Node) :
  h !! c = Some n → climb fuel self (Some c) h = (Ret tt, h).
Proof.
  intros Hc. destruct (getattr_is_root_truthy c h n Hc) as (v & Hv & Ht).
  destruct fuel; simpl; unfold mbind, M_bind, bind; rewrite Hv, Ht; reflexivity.
Qed.

Lemma never_Exception_ret {A} (a : A) : never_Exception (ret a).
Proof. intros h msg. discriminate. Qed.

Lemma never_Exception_bind {A B} (m : M A) (k : A → M B) :
  never_Exception m → (∀ a, never_Exception (k a)) →
  never_Exception (m ≫= k).
Proof.
  intros Hm Hk h msg. rewrite run_bind. specialize (Hm h msg).
  destruct (m h) as [[a| |] h1]; simpl in *;
    [apply Hk|intros [= ->]; by apply Hm|discriminate].
Qed.

Lemma never_Exception_load (x : ref) : never_Exception (load x).
Proof. intros h msg. unfold load. by destruct (h !! x). Qed.

Lemma never_Exception_update (x : ref) (f : Node → Node) :
  never_Exception (update x f).
Proof. intros h msg. unfold update. by destruct (h !! x). Qed.

Lemma never_Exception_parent (x : ref) : never_Exception (parent x).
Proof.
  apply never_Exception_bind; [apply never_Exception_load|].
  intros; apply never_Exception_ret.
Qed.

Lemma never_Exception_children (x : ref) : never_Exception (children x).
Proof.
  apply never_Exception_bind; [apply never_Exception_load|].
  intros; apply never_Exception_ret.
Qed.

Lemma never_Exception_map_each {A B} (f : A → M B) (l : list A) :
  (∀ x, never_Exception (f x)) → never_Exception (map_each f l).
Proof.
  intros Hf. induction l as [|x l IH]; [apply never_Exception_ret|].
  cbn [map_each]. apply never_Exception_bind; [apply Hf|]. intros y.
  apply never_Exception_bind; [exact IH|]. intros; apply never_Exception_ret.
Qed.

Lemma never_Exception_sorted_by_ord (l : list ref) :
  never_Exception (sorted_by_ord l).
Proof.
  apply never_Exception_bind.
  - apply never_Exception_map_each. intros x.
    apply never_Exception_bind; [apply never_Exception_load|].
    intros; apply never_Exception_ret.
  - intros [|a [|b keyed]]; try apply never_Exception_ret.
    destruct (int_keys _); [apply never_Exception_ret|]. intros h msg. done.
Qed.

(** The walk returns at once on a live candidate, so its [raise] is dead. *)
Lemma never_Exception_climb (fuel : nat) (self : ref) (c : option ref) :
  never_Exception (climb fuel self c).
Proof.
  intros h msg. destruct c as [c|]; [|by destruct fuel].
  destruct (h !! c) as [n|] eqn:Hc.
  - by rewrite (climb_never_walks fuel self c h n Hc).
  - destruct fuel; cbn [climb]; unfold getattr_is_root, load;
      rewrite !run_bind, Hc; done.
Qed.

Lemma never_Exception_str (self : ref) : never_Exception (Node__str__ self).
Proof.
  unfold Node__str__.
  apply never_Exception_bind; [apply never_Exception_load|]. intros n.
  apply never_Exception_bind; [apply never_Exception_parent|]. intros p.
  apply never_Exception_bind.
  - destruct p; [|apply never_Exception_ret].
    apply never_Exception_bind; [apply never_Exception_load|].
    intros; apply never_Exception_ret.
  - intros _. destruct (ord n); [apply never_Exception_ret|by intros h msg].
Qed.

(** For every store, node and candidate parent, the setter of [parent] does
    not raise the loop error. *)
Lemma set_parent_never_raises_loop (self : ref) (new_parent : option ref) :
  never_Exception (set_parent self new_parent).
Proof.
  unfold set_parent.
  apply never_Exception_bind; [apply never_Exception_parent|]. intros old.
  destruct (decide (old = new_parent)); [apply never_Exception_ret|].
  destruct (decide (Some self = new_parent)).
  { apply never_Exception_bind; [apply never_Exception_str|].
    by intros _ h msg. }
  apply never_Exception_bind; [by intros h msg|]. intros bound.
  apply never_Exception_bind; [apply never_Exception_climb|]. intros _.
  apply never_Exception_bind.
  { destruct old; [|apply never_Exception_ret].
    apply never_Exception_bind; [apply never_Exception_children|].
    intros; apply never_Exception_update. }
  intros _. apply never_Exception_bind; [apply never_Exception_update|].
  intros _. destruct new_parent; [|by intros h msg].
  apply never_Exception_bind; [apply never_Exception_children|]. intros cs.
  apply never_Exception_bind; [apply never_Exception_sorted_by_ord|].
  intros; apply never_Exception_update.
Qed.

(** C1, at the chain A -> B -> C: C is a descendant of A, and [A.parent = C]
    returns without any error; the store is modified: A left the children of
    the root, its parent is C and C has A as its child.  The same happens in
    the chain of plain nodes without a root. *)
Theorem set_parent_to_descendant_is_accepted :
  ((is_descendant_of node_C node_A chain).1 = Ret true
   ∧ (set_parent node_A (Some node_C) chain).1 = Ret tt
   ∧ (set_parent node_A (Some node_C) chain).2 ≠ chain
   ∧ _children <$> (set_parent node_A (Some node_C) chain).2 !! the_root
     = Some []
   ∧ _parent <$> (set_parent node_A (Some node_C) chain).2 !! node_A
     = Some (Some node_C)
   ∧ _children <$> (set_parent node_A (Some node_C) chain).2 !! node_C
     = Some [node_A])
  ∧ ((is_descendant_of bare_C bare_A bare_chain).1 = Ret true
     ∧ (set_parent bare_A (Some bare_C) bare_chain).1 = Ret tt
     ∧ _parent <$> (set_parent bare_A (Some bare_C) bare_chain).2 !! bare_A
       = Some (Some bare_C)
     ∧ _children <$> (set_parent bare_A (Some bare_C) bare_chain).2 !! bare_C
       = Some [bare_A]).
Proof.
  split; [|vm_compute; repeat split].
  split; [vm_compute; reflexivity|].
  split; [vm_compute; reflexivity|].
  split.
  - intros Heq.
    assert (_children <$> (set_parent node_A (Some node_C) chain).2 !! the_root
            = _children <$> chain !! the_root) as H by (rewrite Heq; reflexivity).
    vm_compute in H. discriminate H.
  - vm_compute. repeat split.
Qed.

(** C2, at the same chain: the assignment [A.parent = C] is accepted, and in
    the tree it leaves A is its own ancestor; before, it was not.  The same
    happens in the chain of plain nodes without a root. *)
Theorem accepted_set_parent_makes_a_cycle :
  ((is_descendant_of node_A node_A chain).1 = Ret false
   ∧ (set_parent node_A (Some node_C) chain).1 = Ret tt
   ∧ (is_descendant_of node_A node_A
        (set_parent node_A (Some node_C) chain).2).1 = Ret true)
  ∧ ((is_descendant_of bare_A bare_A bare_chain).1 = Ret false
     ∧ (set_parent bare_A (Some bare_C) bare_chain).1 = Ret tt
     ∧ (is_descendant_of bare_A bare_A
          (set_parent bare_A (Some bare_C) bare_chain).2).1 = Ret true).
Proof. vm_compute. repeat split. Qed.

(** ** [remove] *)

(** For every node that has a parent, [remove] stops at the assignment to
    [parent.children]: nothing is removed and the renumbering pass is not
    reached. *)
Lemma remove_raises (h : heap) (self p : ref) (n pn : Node) :
  h !! self = Some n → _parent n = Some p → h !! p = Some pn →
  remove self h = (Raise (AttributeError "can't set attribute"), h).
Proof.
  intros Hs Hp Hpn.
  unfold remove, parent, children, set_children, mbind, M_bind, bind, load, ret.
  rewrite Hs, Hp, Hpn. simpl. rewrite Hs, Hp, Hpn. reflexivity.
Qed.

(** C3, at the chain: B is not the root and has the parent A, and
    [B.remove()] raises AttributeError; B is still a child of A and the store
    is the one before the call. *)
Theorem remove_fails_on_child :
  _parent <$> chain !! node_B = Some (Some node_A)
  ∧ remove node_B chain = (Raise (AttributeError "can't set attribute"), chain)
  ∧ _children <$> (remove node_B chain).2 !! node_A = Some [node_B].
Proof.
  split; [vm_compute; reflexivity|].
  assert (remove node_B chain
          = (Raise (AttributeError "can't set attribute"), chain)) as H.
  { destruct (chain !! node_B) as [n|] eqn:Hn; [|vm_compute in Hn; discriminate].
    destruct (chain !! node_A) as [pn|] eqn:Hpn; [|vm_compute in Hpn; discriminate].
    apply (remove_raises chain node_B node_A n pn Hn); [|exact Hpn].
    vm_compute in Hn. injection Hn as <-. reflexivity. }
  split; [exact H|]. rewrite H. vm_compute. reflexivity.
Qed.

(** ** [prev_node] and [next_node] *)

Lemma getitem_nonneg {A} (l : list A) (i : Z) :
  0 ≤ i → getitem l i = l !! Z.to_nat i.
Proof.
  intros Hi. unfold getitem.
  destruct (Z.leb_spec 0 i); [|lia]. cbn [andb].
  destruct (Z.ltb_spec i (Z.of_nat (length l))); [done|].
  destruct (Z.ltb_spec i 0); [lia|]. rewrite andb_false_r.
  symmetry. apply lookup_ge_None. lia.
Qed.

(** [next_node] is the registered node one ord higher, None after the last. *)
Lemma next_node_registered (h : heap) (x r : ref) (reg : list ref) (k : Z) :
  registered h r reg → root x h = (Ret r, h) → ord_of h x = Some k → 0 ≤ k →
  next_node x h = (Ret (reg !! Z.to_nat k), h)
  ∧ (∀ y, reg !! Z.to_nat k = Some y → ord_of h y = Some (k + 1))
  ∧ (k = Z.of_nat (length reg) → reg !! Z.to_nat k = None).
Proof.
  intros [(rn & Hr & Hc & Hreg) Hord] Hroot Hk Hk0. split; [|split].
  - unfold next_node, except_IndexError.
    rewrite (bind_Ret _ _ _ _ _ Hroot).
    rewrite (bind_Ret _ _ _ _ _ (get__descendants_root _ _ _ Hr Hc)).
    rewrite (bind_Ret _ _ _ _ _ (get_ord_live _ _ _ Hk)).
    rewrite run_bind. unfold index. rewrite (getitem_nonneg _ _ Hk0), Hreg.
    by destruct (reg !! Z.to_nat k).
  - intros y Hy. rewrite (Hord _ _ Hy). f_equal. lia.
  - intros ->. apply lookup_ge_None. lia.
Qed.

(** [prev_node] of a node whose ord is at least 2 is the registered node at
    index ord - 1, and that node has the same ord as the node itself. *)
Lemma prev_node_registered (h : heap) (x r : ref) (reg : list ref) (k : Z) :
  registered h r reg → root x h = (Ret r, h) → ord_of h x = Some k →
  2 ≤ k ≤ Z.of_nat (length reg) →
  ∃ y, prev_node x h = (Ret (Some y), h) ∧ ord_of h y = Some k.
Proof.
  intros [(rn & Hr & Hc & Hreg) Hord] Hroot Hk Hk2.
  destruct (lookup_lt_is_Some_2 reg (Z.to_nat (k - 1)) ltac:(lia)) as [y Hy].
  exists y. split.
  - unfold prev_node.
    rewrite (bind_Ret _ _ _ _ _ (get_ord_live _ _ _ Hk)).
    destruct (Z.ltb_spec (k - 1) 0); [lia|].
    destruct (Z.eqb_spec (k - 1) 0); [lia|].
    rewrite (bind_Ret _ _ _ _ _ Hroot).
    rewrite (bind_Ret _ _ _ _ _ (get__descendants_root _ _ _ Hr Hc)).
    rewrite (bind_Ret _ _ _ _ _ (get_ord_live _ _ _ Hk)).
    rewrite (bind_Ret _ _ h h y); [done|].
    unfold index. rewrite getitem_nonneg by lia. by rewrite Hreg, Hy.
  - rewrite (Hord _ _ Hy). f_equal. lia.
Qed.

(** [prev_node] at the start of the sentence: None for ord 0, the root for
    ord 1. *)
Lemma prev_node_at_start (h : heap) (x r : ref) :
  root x h = (Ret r, h) →
  (ord_of h x = Some 0 → prev_node x h = (Ret None, h))
  ∧ (ord_of h x = Some 1 → prev_node x h = (Ret (Some r), h)).
Proof.
  intros Hroot. split; intros Hk; unfold prev_node;
    rewrite (bind_Ret _ _ _ _ _ (get_ord_live _ _ _ Hk)).
  - reflexivity.
  - transitivity ((r ← root x; ret (Some r)) h); [reflexivity|].
    by rewrite (bind_Ret _ _ _ _ _ Hroot).
Qed.

(** C4, at the chain (ords 0..3): [next_node] is the node one ord higher and
    None at the end, [prev_node] of the root is None and of ord 1 the root;
    but [prev_node] of B (ord 2) is B itself and of C (ord 3) is C itself,
    not the nodes with ord 1 and ord 2. *)
Theorem prev_node_returns_the_node_itself :
  (next_node the_root chain).1 = Ret (Some node_A)
  ∧ (next_node node_A chain).1 = Ret (Some node_B)
  ∧ (next_node node_B chain).1 = Ret (Some node_C)
  ∧ (next_node node_C chain).1 = Ret None
  ∧ (prev_node the_root chain).1 = Ret None
  ∧ (prev_node node_A chain).1 = Ret (Some the_root)
  ∧ (prev_node node_B chain).1 = Ret (Some node_B)
  ∧ (prev_node node_C chain).1 = Ret (Some node_C).
Proof. vm_compute. repeat split. Qed.

(** ** [compute_sentence] *)

Lemma compute_sentence_loop_words (h : heap) (l : list ref) :
  ∀ (text : string) (ws : list string),
    words_of h l = Some ws →
    compute_sentence_loop text l h = (Ret (text +:+ String.concat "" ws), h).
Proof.
  induction l as [|x l IH]; intros text ws Hws.
  - injection Hws as <-. cbn. by rewrite append_empty_r.
  - cbn [words_of] in Hws.
    destruct (h !! x) as [n|] eqn:Hx; [|discriminate]. cbn in Hws.
    destruct (form n) as [f|] eqn:Hf; [|discriminate]. cbn in Hws.
    destruct (misc n) as [m|] eqn:Hm; [|discriminate]. cbn in Hws.
    destruct (words_of h l) as [ws'|] eqn:Hl; [|discriminate].
    injection Hws as <-. cbn [compute_sentence_loop].
    rewrite (bind_Ret _ _ h h (text +:+ word_text f m)).
    + rewrite (IH _ ws' eq_refl). f_equal. f_equal.
      change (String.concat "" (word_text f m :: ws'))
        with (match ws' with
              | [] => word_text f m
              | _ => word_text f m +:+ "" +:+ String.concat "" ws'
              end).
      destruct ws' as [|w ws'].
      * cbn. by rewrite !append_empty_r.
      * by rewrite append_assoc.
    + unfold compute_sentence_step.
      rewrite (bind_Ret _ _ _ _ _ (load_live _ _ _ Hx)), Hf.
      rewrite (bind_Ret _ _ h h f) by reflexivity. rewrite Hm.
      rewrite (bind_Ret _ _ h h m) by reflexivity.
      unfold word_text. destruct (find m "SpaceAfter=No" =? -1);
        unfold ret; by rewrite ?append_assoc.
Qed.

(** The text is made of the words of [self.descendants] alone: the node on
    which [compute_sentence] is called adds nothing of its own. *)
Lemma compute_sentence_descendants (h : heap) (self : ref) (ds : ListOfNodes)
    (ws : list string) :
  descendants self h = (Ret ds, h) → words_of h (items ds) = Some ws →
  compute_sentence self h = (Ret (String.concat "" ws), h).
Proof.
  intros Hds Hws. unfold compute_sentence.
  rewrite (bind_Ret _ _ _ _ _ Hds).
  rewrite (bind_Ret _ _ h h (items ds)) by reflexivity.
  by rewrite (compute_sentence_loop_words h _ "" ws Hws).
Qed.

(** C5, at the chain with the words "a", "b" (SpaceAfter=No), "c": called on
    A, which is not the root, [compute_sentence] gives the forms of B and C
    only; the form of A itself is left out.  Called on the root it gives the
    whole sentence. *)
Theorem compute_sentence_leaves_out_the_node :
  (compute_sentence node_A words).1 = Ret "bc "
  ∧ (compute_sentence node_B words).1 = Ret "c "
  ∧ (compute_sentence node_C words).1 = Ret ""
  ∧ (compute_sentence the_root words).1 = Ret "a bc ".
Proof. vm_compute. repeat split. Qed.

(** ** [ListOfNodes.__call__] *)

Lemma insert_by_key_perm {A} (x : Z * A) (l : list (Z * A)) :
  insert_by_key x l ≡ₚ x :: l.
Proof.
  induction l as [|y l IH]; simpl; [reflexivity|].
  destruct (x.1 <=? y.1); [reflexivity|].
  rewrite IH. apply Permutation_swap.
Qed.

Lemma sort_by_key_perm {A} (l : list (Z * A)) : sort_by_key l ≡ₚ l.
Proof.
  induction l as [|x l IH]; simpl; [reflexivity|].
  rewrite insert_by_key_perm. by rewrite IH.
Qed.

Lemma insert_by_key_sorted {A} (x : Z * A) (l : list (Z * A)) :
  StronglySorted (λ a b, a.1 ≤ b.1) l →
  StronglySorted (λ a b, a.1 ≤ b.1) (insert_by_key x l).
Proof.
  induction 1 as [|y l Hs IH Hall]; simpl.
  - repeat constructor.
  - destruct (Z.leb_spec x.1 y.1) as [Hle|Hgt].
    + constructor; [by constructor|].
      constructor; [exact Hle|].
      eapply Forall_impl; [exact Hall|]. simpl. intros z Hz. lia.
    + constructor; [exact IH|].
      rewrite insert_by_key_perm. constructor; [lia|exact Hall].
Qed.

Lemma sort_by_key_sorted {A} (l : list (Z * A)) :
  StronglySorted (λ a b, a.1 ≤ b.1) (sort_by_key l).
Proof.
  induction l as [|x l IH]; simpl; [constructor|].
  by apply insert_by_key_sorted.
Qed.

Lemma sorted_refs_perm (k : ref → Z) (l : list ref) : sorted_refs k l ≡ₚ l.
Proof.
  unfold sorted_refs. rewrite sort_by_key_perm.
  rewrite <- list_fmap_compose. simpl.
  induction l; simpl; [reflexivity|]. by f_equiv.
Qed.

Lemma sorted_refs_sorted (k : ref → Z) (l : list ref) :
  StronglySorted (λ x y, k x ≤ k y) (sorted_refs k l).
Proof.
  unfold sorted_refs.
  assert (Forall (λ p, p.1 = k p.2) (sort_by_key ((λ x, (k x, x)) <$> l))) as Hk.
  { rewrite sort_by_key_perm. apply Forall_fmap, Forall_forall. done. }
  pose proof (sort_by_key_sorted ((λ x, (k x, x)) <$> l)) as Hs.
  induction Hs as [|p q Hs IH Hall]; simpl; [constructor|].
  apply Forall_cons in Hk as [Hp Hq].
  constructor; [by apply IH|].
  apply Forall_fmap. rewrite Forall_forall in Hall, Hq |- *.
  intros z Hz. simpl. rewrite <- Hp, <- (Hq z Hz). by apply Hall.
Qed.

(** A comprehension whose condition only reads integer ords. *)
Lemma select_live (h : heap) (l : list ref) (cond : ref → M bool)
    (P : ref → Prop) `{∀ x, Decision (P x)} :
  Forall (λ x, cond x h = (Ret (bool_decide (P x)), h)) l →
  select cond l h = (Ret (filter P l), h).
Proof.
  induction 1 as [|x l Hx _ IH]; [reflexivity|].
  cbn [select]. rewrite (bind_Ret _ _ _ _ _ Hx), (bind_Ret _ _ _ _ _ IH).
  unfold ret. rewrite filter_cons. unfold bool_decide, decide.
  destruct (H x); reflexivity.
Qed.

Lemma map_each_keys (h : heap) (l : list ref) :
  Forall (λ x, is_Some (ord_of h x)) l →
  map_each (λ x, n ← load x; ret (ord n, x)) l h
    = (Ret ((λ x, (Some (key h x), x)) <$> l), h).
Proof.
  induction 1 as [|x l Hx _ IH]; [reflexivity|].
  cbn [map_each]. apply key_live in Hx. unfold ord_of in Hx.
  destruct (h !! x) as [n|] eqn:Hn; simpl in Hx; [|discriminate].
  rewrite (bind_Ret _ _ h h (ord n, x)).
  - rewrite (bind_Ret _ _ _ _ _ IH). rewrite Hx. reflexivity.
  - rewrite (bind_Ret _ _ _ _ _ (load_live _ _ _ Hn)). reflexivity.
Qed.

Lemma int_keys_Some {A} (k : A → Z) (l : list A) :
  int_keys ((λ x, (Some (k x), x)) <$> l) = Some ((λ x, (k x, x)) <$> l).
Proof.
  induction l as [|x l IH]; [done|].
  rewrite !fmap_cons. cbn [int_keys]. by rewrite IH.
Qed.

Lemma sorted_by_ord_live (h : heap) (l : list ref) :
  Forall (λ x, is_Some (ord_of h x)) l →
  sorted_by_ord l h = (Ret (sorted_refs (key h) l), h).
Proof.
  intros Hl. unfold sorted_by_ord.
  rewrite (bind_Ret _ _ _ _ _ (map_each_keys h l Hl)).
  pose proof (int_keys_Some (key h) l) as Hk.
  destruct l as [|x [|y l]]; [reflexivity..|].
  rewrite Hk. reflexivity.
Qed.

Lemma filter_all {A} (P : A → Prop) `{∀ x, Decision (P x)} (l : list A) :
  (∀ x, P x) → filter P l = l.
Proof.
  intros HP. induction l as [|x l IH]; [done|].
  rewrite filter_cons_True by done. by rewrite IH.
Qed.

Lemma Forall_live_filter (h : heap) (P : ref → Prop) `{∀ x, Decision (P x)}
    (l : list ref) :
  Forall (λ x, is_Some (ord_of h x)) l →
  Forall (λ x, is_Some (ord_of h x)) (filter P l).
Proof.
  rewrite !Forall_forall. intros Hl x Hx.
  apply list_elem_of_filter in Hx as [_ Hx]. by apply Hl.
Qed.

(** [[x for x in result if x.ord <= self.origin.ord]], when it is asked for. *)
Lemma preceding_step (h : heap) (o : ref) (b : bool) (l : list ref) :
  is_Some (ord_of h o) → Forall (λ x, is_Some (ord_of h x)) l →
  (if b then
     select (λ x, a ← get_ord x; c ← get_ord o; ret (a <=? c)) l
   else ret l) h
  = (Ret (filter (λ x, b = true → key h x ≤ key h o) l), h).
Proof.
  intros Ho Hl. destruct b.
  - rewrite (select_live h l _ (λ x, key h x ≤ key h o)).
    + f_equal. f_equal. apply list_filter_iff. intros x. intuition.
    + eapply Forall_impl; [exact Hl|]. intros x Hx. simpl.
      rewrite (bind_Ret _ _ _ _ _ (get_ord_live _ _ _ (key_live _ _ Hx))).
      rewrite (bind_Ret _ _ _ _ _ (get_ord_live _ _ _ (key_live _ _ Ho))).
      unfold ret. f_equal. f_equal.
      destruct (Z.leb_spec (key h x) (key h o)).
      * by rewrite bool_decide_eq_true_2.
      * rewrite bool_decide_eq_false_2; [done|lia].
  - rewrite filter_all; [reflexivity|]. intros x Hx. discriminate.
Qed.

(** [[x for x in result if x.ord >= self.origin.ord]], when it is asked for. *)
Lemma following_step (h : heap) (o : ref) (b : bool) (l : list ref) :
  is_Some (ord_of h o) → Forall (λ x, is_Some (ord_of h x)) l →
  (if b then
     select (λ x, a ← get_ord x; c ← get_ord o; ret (a >=? c)) l
   else ret l) h
  = (Ret (filter (λ x, b = true → key h o ≤ key h x) l), h).
Proof.
  intros Ho Hl. destruct b.
  - rewrite (select_live h l _ (λ x, key h o ≤ key h x)).
    + f_equal. f_equal. apply list_filter_iff. intros x. intuition.
    + eapply Forall_impl; [exact Hl|]. intros x Hx. simpl.
      rewrite (bind_Ret _ _ _ _ _ (get_ord_live _ _ _ (key_live _ _ Hx))).
      rewrite (bind_Ret _ _ _ _ _ (get_ord_live _ _ _ (key_live _ _ Ho))).
      unfold ret. f_equal. f_equal. rewrite Z.geb_leb.
      destruct (Z.leb_spec (key h o) (key h x)).
      * by rewrite bool_decide_eq_true_2.
      * rewrite bool_decide_eq_false_2; [done|lia].
  - rewrite filter_all; [reflexivity|]. intros x Hx. discriminate.
Qed.

(** The call with at least one option is the stable sort of what the
    options keep. *)
Lemma ListOfNodes_call_is_sorted_filter (h : heap) (l : list ref) (o : ref)
    (add_self following_only preceding_only : bool) :
  Forall (λ x, is_Some (ord_of h x)) (o :: l) →
  add_self || following_only || preceding_only = true →
  ListOfNodes__call__ (mkListOfNodes l o) add_self following_only preceding_only h
  = (Ret (sorted_refs (key h)
            (filter (kept h o following_only preceding_only)
                    (l ++ if add_self then [o] else []))), h).
Proof.
  intros Hlive Hopt. apply Forall_cons in Hlive as [Ho Hl].
  unfold ListOfNodes__call__. cbn [items origin].
  replace (negb add_self && negb following_only && negb preceding_only)
    with false by (by destruct add_self, following_only, preceding_only).
  replace (if add_self then l ++ [o] else l)
    with (l ++ if add_self then [o] else [])
    by (destruct add_self; [done|by rewrite app_nil_r]).
  assert (Forall (λ x, is_Some (ord_of h x)) (l ++ if add_self then [o] else []))
    as Hl0.
  { apply Forall_app. split; [done|]. destruct add_self; by repeat constructor. }
  rewrite (bind_Ret _ _ _ _ _ (preceding_step h o preceding_only _ Ho Hl0)).
  rewrite (bind_Ret _ _ _ _ _
             (following_step h o following_only _ Ho
                (Forall_live_filter h _ _ Hl0))).
  rewrite sorted_by_ord_live by (by do 2 apply Forall_live_filter).
  f_equal. f_equal. f_equal. rewrite list_filter_filter.
  apply list_filter_iff. unfold kept. intros x. tauto.
Qed.

(** C8: a call with at least one of the options returns the members, with
    the origin added when [add_self] is set, restricted to those with
    ord <= origin.ord under [preceding_only] and to those with
    ord >= origin.ord under [following_only] (both when both are set), in
    ascending order of ord; nothing is lost or repeated, and the origin itself
    passes both restrictions. *)
Theorem ListOfNodes_call_with_options (h : heap) (l : list ref) (o : ref)
    (add_self following_only preceding_only : bool) :
  Forall (λ x, is_Some (ord_of h x)) (o :: l) →
  add_self || following_only || preceding_only = true →
  ∃ res : list ref,
    ListOfNodes__call__ (mkListOfNodes l o)
      add_self following_only preceding_only h = (Ret res, h)
    ∧ res ≡ₚ filter (kept h o following_only preceding_only)
                    (l ++ if add_self then [o] else [])
    ∧ (∀ x, x ∈ res ↔
            (x ∈ l ∨ add_self = true ∧ x = o)
            ∧ (preceding_only = true → key h x ≤ key h o)
            ∧ (following_only = true → key h o ≤ key h x))
    ∧ ascending h res
    ∧ (add_self = true → o ∈ res).
Proof.
  intros Hlive Hopt. eexists.
  split; [by apply ListOfNodes_call_is_sorted_filter|].
  pose proof (sorted_refs_perm (key h)
    (filter (kept h o following_only preceding_only)
            (l ++ if add_self then [o] else []))) as Hperm.
  assert (∀ x, x ∈ sorted_refs (key h)
                 (filter (kept h o following_only preceding_only)
                         (l ++ if add_self then [o] else [])) ↔
               (x ∈ l ∨ add_self = true ∧ x = o)
               ∧ (preceding_only = true → key h x ≤ key h o)
               ∧ (following_only = true → key h o ≤ key h x)) as Hmem.
  { intros x. rewrite Hperm, list_elem_of_filter, elem_of_app. unfold kept.
    destruct add_self.
    - rewrite list_elem_of_singleton. intuition.
    - rewrite elem_of_nil. intuition discriminate. }
  split; [exact Hperm|]. split; [exact Hmem|].
  split; [apply sorted_refs_sorted|].
  intros ->. apply Hmem. split; [by right|]. split; intros _; lia.
Qed.

(** The call with options at B of the chain, over the members C and A. *)
Lemma ListOfNodes_call_with_options_witness :
  ∃ res : list ref,
    ListOfNodes__call__ (mkListOfNodes [node_C; node_A] node_B)
      true true false chain = (Ret res, chain)
    ∧ res ≡ₚ filter (kept chain node_B true false)
                    ([node_C; node_A] ++ [node_B])
    ∧ (∀ x, x ∈ res ↔
            (x ∈ [node_C; node_A] ∨ true = true ∧ x = node_B)
            ∧ (false = true → key chain x ≤ key chain node_B)
            ∧ (true = true → key chain node_B ≤ key chain x))
    ∧ ascending chain res
    ∧ (true = true → node_B ∈ res).
Proof.
  apply (ListOfNodes_call_with_options chain [node_C; node_A] node_B
           true true false).
  - repeat constructor; vm_compute; by eexists.
  - reflexivity.
Defined.

Lemma ListOfNodes_call_examples :
  (ListOfNodes__call__ (mkListOfNodes [node_C; node_A] node_B)
     true true false chain).1 = Ret [node_B; node_C]
  ∧ (ListOfNodes__call__ (mkListOfNodes [node_C; node_A] node_B)
       true false true chain).1 = Ret [node_A; node_B]
  ∧ (ListOfNodes__call__ (mkListOfNodes [node_C; node_A] node_B)
       true false false chain).1 = Ret [node_A; node_B; node_C]
  ∧ (ListOfNodes__call__ (mkListOfNodes [node_C; node_A] node_B)
       false true true chain).1 = Ret []
  ∧ (ListOfNodes__call__ (mkListOfNodes [node_C; node_A] node_B)
       false false false chain).1 = Ret [node_C; node_A].
Proof. vm_compute. repeat split. Qed.

(** ** Stores with the same tree *)

Lemma same_shape_refl (g : heap) : same_shape g g.
Proof. by intros x. Qed.

Lemma same_shape_trans (g1 g2 g3 : heap) :
  same_shape g1 g2 → same_shape g2 g3 → same_shape g1 g3.
Proof. intros H12 H23 x. by rewrite H23, H12. Qed.

Lemma same_shape_insert (g : heap) (n : ref) (m m' : Node) :
  g !! n = Some m → shape m' = shape m → same_shape g (<[n := m']> g).
Proof.
  intros Hn Hs x. destruct (decide (n = x)) as [->|Hne].
  - rewrite lookup_insert_eq, Hn. simpl. by rewrite Hs.
  - by rewrite lookup_insert_ne.
Qed.

Lemma same_shape_size (g g' : heap) : same_shape g g' → size g' = size g.
Proof.
  intros Hs. rewrite <- !size_dom. f_equal. apply set_eq. intros x.
  rewrite !elem_of_dom. specialize (Hs x).
  destruct (g' !! x), (g !! x); simpl in Hs; try discriminate;
    split; intros [? ?]; simplify_eq; by eexists.
Qed.

Lemma same_shape_lookup (g g' : heap) (x : ref) (n : Node) :
  same_shape g g' → g !! x = Some n →
  ∃ n', g' !! x = Some n' ∧ shape n' = shape n.
Proof.
  intros Hs Hx. specialize (Hs x). rewrite Hx in Hs.
  destruct (g' !! x) as [n'|]; simpl in Hs; [|discriminate].
  exists n'. split; [done|]. congruence.
Qed.

Lemma same_shape_ord_of (g g' : heap) (x : ref) :
  same_shape g g' → ord_of g' x = ord_of g x.
Proof.
  intros Hs. unfold ord_of. specialize (Hs x).
  destruct (g' !! x), (g !! x); simpl in *; try discriminate; [|done].
  unfold shape in Hs. by simplify_eq.
Qed.

Lemma same_shape_key (g g' : heap) (x : ref) :
  same_shape g g' → key g' x = key g x.
Proof. intros Hs. unfold key. by rewrite (same_shape_ord_of g g'). Qed.

Lemma same_shape_root_walk (g g' : heap) (fuel : nat) (x r : ref) :
  same_shape g g' →
  root_walk fuel x g = (Ret r, g) → root_walk fuel x g' = (Ret r, g').
Proof.
  intros Hs. revert x.
  induction fuel as [|fuel IH]; intros x; cbn [root_walk];
    (destruct (g !! x) as [n|] eqn:Hg;
       [|rewrite (bind_NoResult _ _ _ _ _ (parent_dead _ _ Hg)); discriminate]);
    destruct (same_shape_lookup g g' x n Hs Hg) as (n' & Hg' & Hsh);
    rewrite (bind_Ret _ _ _ _ _ (parent_live _ _ _ Hg)),
            (bind_Ret _ _ _ _ _ (parent_live _ _ _ Hg'));
    (replace (_parent n') with (_parent n) by (unfold shape in Hsh; congruence));
    destruct (_parent n) as [p|]; try discriminate; try apply IH;
    unfold ret; congruence.
Qed.

Lemma same_shape_root (g g' : heap) (x r : ref) :
  same_shape g g' → root x g = (Ret r, g) → root x g' = (Ret r, g').
Proof.
  intros Hs. unfold root, live_objects. rewrite !run_bind.
  rewrite (same_shape_size g g' Hs). by apply same_shape_root_walk.
Qed.

(** ** [raw_deps] and [deps] *)

Lemma with_deps_id (m : Node) (ds : option (list dependency)) :
  _deps m = ds → with_deps ds m = m.
Proof. intros <-. by destruct m. Qed.

Lemma return__deps_cached (g : heap) (n : ref) (m : Node) (ds : list dependency) :
  g !! n = Some m → _deps m = Some ds → return__deps n g = (Ret ds, g).
Proof.
  intros Hn Hd. unfold return__deps.
  by rewrite (bind_Ret _ _ _ _ _ (load_live _ _ _ Hn)), Hd.
Qed.

(** A read of [deps] when the structured list is there: the list, as it is. *)
Lemma deps_cached (g : heap) (n : ref) (m : Node) (ds : list dependency) :
  g !! n = Some m → _deps m = Some ds → deps n g = (Ret ds, g).
Proof.
  intros Hn Hd. unfold deps.
  rewrite (bind_Ret _ _ _ _ _ (load_live _ _ _ Hn)), Hd.
  by apply return__deps_cached with m.
Qed.

(** A read of [deps] when there is no structured list, in a sentence with a
    root: the list starts empty and the loop runs over the entries. *)
Lemma deps_first_read (g : heap) (n r : ref) (m rn : Node) :
  g !! n = Some m → _deps m = None →
  root n g = (Ret r, g) → g !! r = Some rn → cls rn = RootClass →
  deps n g =
    (if decide (_raw_deps m = "_") then ret []
     else for_each (split "|" (_raw_deps m))
                   (deps_step n (r :: _descendants rn));;
          return__deps n)
      (<[n := with_deps (Some []) m]> g).
Proof.
  intros Hn Hd Hroot Hr Hc. unfold deps.
  rewrite (bind_Ret _ _ _ _ _ (load_live _ _ _ Hn)), Hd.
  rewrite (bind_Ret _ _ _ _ _ Hroot), (bind_Ret _ _ _ _ _ Hroot).
  rewrite (bind_Ret _ _ _ _ _ (descendants_root _ _ _ Hr Hc)).
  rewrite (bind_Ret _ _ g g (_descendants rn)) by reflexivity.
  rewrite (bind_Ret _ _ _ _ _ (update_live _ _ _ _ Hn)).
  rewrite (bind_Ret _ _ _ _ _ (load_live _ _ _ (lookup_insert_eq _ _ _))).
  cbn [with_deps _raw_deps].
  destruct (decide (_raw_deps m = "_")); [|reflexivity].
  by apply return__deps_cached with (with_deps (Some []) m);
    [apply lookup_insert_eq|].
Qed.

Lemma deps_step_parsed (g : heap) (n : ref) (m : Node) (acc : list dependency)
    (nodes : list ref) (e : string) (d : dependency) :
  g !! n = Some m → _deps m = Some acc → parse_entry nodes e = Some d →
  deps_step n nodes e g = (Ret tt, <[n := with_deps (Some (acc ++ [d])) m]> g).
Proof.
  intros Hn Hd. unfold parse_entry, deps_step.
  destruct (split ":" e) as [|head [|deprel [|? ?]]]; try discriminate.
  destruct (int head) as [i|]; [|discriminate]. simpl.
  destruct (getitem nodes i) as [x|] eqn:Hx; [|discriminate]. simpl.
  intros [= <-].
  rewrite (bind_Ret _ _ g g i) by reflexivity.
  rewrite (bind_Ret _ _ g g x) by (unfold index; by rewrite Hx).
  unfold _deps_append.
  rewrite (bind_Ret _ _ _ _ _ (load_live _ _ _ Hn)), Hd.
  by apply update_live.
Qed.


(** The loop over entries that all parse appends what they parse to. *)
Lemma deps_loop_parsed (n : ref) (nodes : list ref) (entries : list string) :
  ∀ (g : heap) (m : Node) (acc ds : list dependency),
    g !! n = Some m → _deps m = Some acc →
    parse_entries nodes entries = Some ds →
    for_each entries (deps_step n nodes) g
      = (Ret tt, <[n := with_deps (Some (acc ++ ds)) m]> g).
Proof.
  induction entries as [|e entries IH]; intros g m acc ds Hn Hd Hp.
  - injection Hp as <-. rewrite app_nil_r. cbn [for_each]. unfold ret.
    f_equal. symmetry. apply insert_id. by rewrite with_deps_id.
  - cbn [parse_entries] in Hp.
    destruct (parse_entry nodes e) as [d|] eqn:He; [|discriminate].
    destruct (parse_entries nodes entries) as [ds'|] eqn:Hes; [|discriminate].
    injection Hp as <-. cbn [for_each].
    rewrite (bind_Ret _ _ _ _ _ (deps_step_parsed g n m acc nodes e d Hn Hd He)).
    rewrite (IH _ (with_deps (Some (acc ++ [d])) m) (acc ++ [d]) ds');
      [|apply lookup_insert_eq|reflexivity|reflexivity].
    rewrite insert_insert_eq. cbn [with_deps cls ord form misc _raw_deps _deps
      _parent _children _descendants]. by rewrite <- app_assoc.
Qed.

Lemma for_each_app {A} (l1 l2 : list A) (body : A → M unit) (h : heap) :
  for_each (l1 ++ l2) body h = (for_each l1 body;; for_each l2 body) h.
Proof.
  revert h. induction l1 as [|x l1 IH]; intros h.
  - reflexivity.
  - cbn [app for_each]. rewrite !run_bind.
    destruct (body x h) as [[[]| |] h1]; [|reflexivity..].
    by rewrite IH, run_bind.
Qed.

(** The loop stops at the first entry that raises; what was parsed before it
    stays in [_deps]. *)
Lemma deps_loop_stops (n : ref) (nodes : list ref) (pre rest : list string)
    (bad : string) (e : exn) (g : heap) (m : Node) (acc ds : list dependency) :
  g !! n = Some m → _deps m = Some acc →
  parse_entries nodes pre = Some ds →
  (∀ g', deps_step n nodes bad g' = (Raise e, g')) →
  for_each (pre ++ bad :: rest) (deps_step n nodes) g
    = (Raise e, <[n := with_deps (Some (acc ++ ds)) m]> g).
Proof.
  intros Hn Hd Hp Hbad. rewrite for_each_app.
  rewrite (bind_Ret _ _ _ _ _ (deps_loop_parsed n nodes pre g m acc ds Hn Hd Hp)).
  cbn [for_each]. by rewrite (bind_Raise _ _ _ _ _ (Hbad _)).
Qed.


(** The structured list written back as a string. *)
Lemma raw_deps_serialized (g : heap) (n : ref) (m : Node) (ds : list dependency) :
  g !! n = Some m → _deps m = Some ds →
  Forall (λ d, is_Some (ord_of g (dep_parent d))) ds →
  raw_deps n g
    = (Ret (join "|" (serialize g <$> ds)),
       <[n := with_raw_deps (join "|" (serialize g <$> ds)) m]> g).
Proof.
  intros Hn Hd Hds. unfold raw_deps.
  rewrite (bind_Ret _ _ _ _ _ (load_live _ _ _ Hn)), Hd.
  rewrite (bind_Ret _ _ g g (serialize g <$> ds)).
  - rewrite (bind_Ret _ _ _ _ _ (update_live _ _ _ _ Hn)).
    by rewrite (bind_Ret _ _ _ _ _ (load_live _ _ _ (lookup_insert_eq _ _ _))).
  - clear Hd. induction Hds as [|d ds Hd _ IH]; [reflexivity|].
    cbn [map_each]. rewrite (bind_Ret _ _ g g (serialize g d)).
    + by rewrite (bind_Ret _ _ _ _ _ IH).
    + by rewrite (bind_Ret _ _ _ _ _ (get_ord_live _ _ _ (key_live _ _ Hd))).
Qed.

Lemma set_raw_deps_live (h : heap) (n : ref) (nd : Node) (s : string) :
  h !! n = Some nd →
  set_raw_deps n s h
    = (Ret tt, <[n := with_deps None (with_raw_deps s nd)]> h).
Proof.
  intros Hn. unfold set_raw_deps.
  rewrite (bind_Ret _ _ _ _ _ (update_live _ _ _ _ Hn)).
  rewrite (update_live _ _ _ _ (lookup_insert_eq _ _ _)).
  by rewrite insert_insert_eq.
Qed.

(** After the sentinel was written and [deps] was read, [raw_deps] is the
    empty string in every sentence with a root. *)
Lemma empty_deps_serialize_to_empty_string (h : heap) (n r : ref) (nd rn : Node) :
  h !! n = Some nd → root n h = (Ret r, h) →
  h !! r = Some rn → cls rn = RootClass →
  ∃ h' : heap,
    (set_raw_deps n "_";; d ← deps n; s ← raw_deps n; ret (d, s)) h
    = (Ret ([], ""), h')
    ∧ _raw_deps <$> h' !! n = Some "".
Proof.
  intros Hn Hroot Hr Hc.
  set (m1 := with_deps None (with_raw_deps "_" nd)).
  assert (same_shape h (<[n := m1]> h)) as Hs1
    by (by apply same_shape_insert with nd).
  destruct (same_shape_lookup _ _ r rn Hs1 Hr) as (rn1 & Hr1 & Hsh1).
  assert (cls rn1 = RootClass) as Hc1 by (unfold shape in Hsh1; congruence).
  set (m2 := with_deps (Some []) m1).
  exists (<[n := with_raw_deps "" m2]> h). split; [|by rewrite lookup_insert_eq].
  rewrite (bind_Ret _ _ _ _ _ (set_raw_deps_live h n nd "_" Hn)).
  rewrite (bind_Ret _ _ (<[n := m1]> h) (<[n := m2]> h) []).
  - rewrite (bind_Ret _ _ (<[n := m2]> h) (<[n := with_raw_deps "" m2]> h) "");
      [reflexivity|].
    rewrite (raw_deps_serialized _ n m2 []);
      [|apply lookup_insert_eq|reflexivity|constructor].
    cbn [fmap list_fmap join]. by rewrite insert_insert_eq.
  - rewrite (deps_first_read _ n r m1 rn1);
      [|apply lookup_insert_eq|reflexivity|by apply same_shape_root with h
       |done|done].
    cbn [m1 with_deps with_raw_deps _raw_deps].
    destruct (decide ("_" = "_")) as [_|Hne]; [|done].
    by rewrite insert_insert_eq.
Qed.

(** C6, at node C of the chain: after [raw_deps = '_'], reading [deps] gives
    the empty list, and reading [raw_deps] then gives the empty string, not
    the sentinel.  The same happens in the chain of plain nodes without a
    root. *)
Theorem raw_deps_after_empty_deps_is_empty_string :
  (∃ h1 h2 : heap,
     (set_raw_deps node_C "_";; deps node_C) chain = (Ret [], h1)
     ∧ raw_deps node_C h1 = (Ret "", h2)
     ∧ _raw_deps <$> h2 !! node_C = Some "")
  ∧ (∃ h1 h2 : heap,
       (set_raw_deps bare_C "_";; deps bare_C) bare_chain = (Ret [], h1)
       ∧ raw_deps bare_C h1 = (Ret "", h2)
       ∧ _raw_deps <$> h2 !! bare_C = Some "").
Proof.
  split; eexists _, _; (split; [vm_compute; reflexivity|]);
    split; vm_compute; reflexivity.
Qed.

(** The empty string that [raw_deps] returns there is not a raw string the
    reader of [deps] accepts: written back, it has one entry without a colon. *)
Lemma empty_string_is_not_parsed :
  (set_raw_deps node_C "";; deps node_C) chain
    = (Raise (ValueError "not enough values to unpack (expected 2, got 1)"),
       ((set_raw_deps node_C "";; deps node_C) chain).2).
Proof. vm_compute. reflexivity. Qed.

(** C7: in a sentence whose root has registered three nodes with the ords
    1, 2 and 3, writing [raw_deps = '2:conj|1:nsubj'] on a node of it, then
    reading [deps], then [raw_deps], gives the two entries in the order of
    the string, each with the registered node of its ord as parent, and the
    same string again. *)
Theorem raw_deps_round_trip (h : heap) (n r x1 x2 x3 : ref) (nd rn : Node) :
  h !! n = Some nd → root n h = (Ret r, h) →
  h !! r = Some rn → cls rn = RootClass → _descendants rn = [x1; x2; x3] →
  ord_of h x1 = Some 1 → ord_of h x2 = Some 2 → ord_of h x3 = Some 3 →
  ∃ h' : heap,
    (set_raw_deps n "2:conj|1:nsubj";;
     d ← deps n; s ← raw_deps n; ret (d, s)) h
    = (Ret ([Dependency x2 "conj"; Dependency x1 "nsubj"], "2:conj|1:nsubj"),
       h')
    ∧ same_shape h h'
    ∧ ord_of h' x2 = Some 2 ∧ ord_of h' x1 = Some 1.
Proof.
  intros Hn Hroot Hr Hc Hreg H1 H2 H3.
  set (s := "2:conj|1:nsubj").
  set (ds := [Dependency x2 "conj"; Dependency x1 "nsubj"]).
  set (m1 := with_deps None (with_raw_deps s nd)).
  assert (same_shape h (<[n := m1]> h)) as Hs1
    by (by apply same_shape_insert with nd).
  destruct (same_shape_lookup _ _ r rn Hs1 Hr) as (rn1 & Hr1 & Hsh1).
  assert (cls rn1 = RootClass ∧ _descendants rn1 = [x1; x2; x3]) as [Hc1 Hreg1]
    by (unfold shape in Hsh1; split; congruence).
  set (m3 := with_deps (Some ds) m1).
  assert (same_shape h (<[n := m3]> h)) as Hs3
    by (by apply same_shape_insert with nd).
  exists (<[n := with_raw_deps s m3]> h).
  split; [|split; [by apply same_shape_insert with nd|]].
  - rewrite (bind_Ret _ _ _ _ _ (set_raw_deps_live h n nd s Hn)).
    rewrite (bind_Ret _ _ (<[n := m1]> h) (<[n := m3]> h) ds).
    + rewrite (bind_Ret _ _ (<[n := m3]> h) (<[n := with_raw_deps s m3]> h) s);
        [reflexivity|].
      rewrite (raw_deps_serialized _ n m3 ds);
        [|apply lookup_insert_eq|reflexivity|].
      * unfold serialize, ds. cbn [fmap list_fmap dep_parent dep_deprel].
        rewrite !(same_shape_key h _ _ Hs3). unfold key. rewrite H1, H2.
        by rewrite insert_insert_eq.
      * unfold ds. repeat constructor; cbn [dep_parent];
          rewrite (same_shape_ord_of h _ _ Hs3); by eexists.
    + rewrite (deps_first_read _ n r m1 rn1);
        [|apply lookup_insert_eq|reflexivity|by apply same_shape_root with h
         |done|done].
      cbn [m1 with_deps with_raw_deps _raw_deps]. rewrite Hreg1.
      destruct (decide (s = "_")) as [Heq|_]; [discriminate Heq|].
      replace (split "|" s) with ["2:conj"; "1:nsubj"] by reflexivity.
      rewrite insert_insert_eq.
      rewrite (bind_Ret _ _ _ _ _
        (deps_loop_parsed n (r :: [x1; x2; x3]) ["2:conj"; "1:nsubj"] _
           (with_deps (Some []) m1) [] ds
           (lookup_insert_eq _ _ _) eq_refl eq_refl)).
      rewrite insert_insert_eq.
      by apply return__deps_cached with m3; [apply lookup_insert_eq|].
  - rewrite !(same_shape_ord_of h (<[n := with_raw_deps s m3]> h));
      [done|by apply same_shape_insert with nd..].
Qed.

(** The round trip at node C of the chain. *)
Lemma raw_deps_round_trip_witness :
  ∃ h' : heap,
    (set_raw_deps node_C "2:conj|1:nsubj";;
     d ← deps node_C; s ← raw_deps node_C; ret (d, s)) chain
    = (Ret ([Dependency node_B "conj"; Dependency node_A "nsubj"],
            "2:conj|1:nsubj"), h')
    ∧ same_shape chain h'
    ∧ ord_of h' node_B = Some 2 ∧ ord_of h' node_A = Some 1.
Proof.
  eapply (raw_deps_round_trip chain node_C the_root node_A node_B node_C);
    vm_compute; reflexivity.
Defined.



(** *** Reading the list of all nodes *)


















(** What a failed read leaves behind: the entries parsed before the error
    stay in [_deps], so the next read returns that partial list. *)
Lemma deps_after_failed_read :
  ∃ h1 : heap,
    deps node_C subtyped
      = (Raise (ValueError "too many values to unpack (expected 2)"), h1)
    ∧ (deps node_C h1).1 = Ret [Dependency node_A "nsubj"].
Proof. eexists. split; vm_compute; reflexivity. Qed.

(** ** The MarkBugs block *)
Section MarkBugs_facts.
Import MarkBugs.

Lemma B_run_bind {A C} (m : B A) (k : A → B C) (s : state) :
  (m ≫= k) s = match m s with
               | (Ret a, s') => k a s'
               | (Raise e, s') => (Raise e, s')
               | (NoResult w, s') => (NoResult w, s')
               end.
Proof. reflexivity. Qed.

Lemma B_bind_Ret {A C} (m : B A) (k : A → B C) (s s' : state) (a : A) :
  m s = (Ret a, s') → (m ≫= k) s = k a s'.
Proof. intros H. rewrite B_run_bind, H. reflexivity. Qed.

(** What [log] does on a live node: the warning is written, then the
    subscript of [misc] raises, so nothing is marked and nothing is
    counted. *)
Lemma log_run (s : state) (node : ref) (n : MarkBugs.Node)
    (short_msg long_msg : string) :
  nodes s !! node = Some n →
  log node short_msg long_msg s
  = (Raise (not_subscriptable (MarkBugs.misc n)),
     logged s
       ("node " +:+ (root_address s +:+ "#" +:+ format_d (MarkBugs.ord n))
          +:+ " " +:+ short_msg +:+ ": " +:+ long_msg)).
Proof.
  intros Hn. unfold log, address, misc_getitem, get_root_address, warning.
  rewrite !B_run_bind. unfold MarkBugs.load. cbn [nodes]. rewrite Hn.
  cbn [mret B_ret]. rewrite !B_run_bind. cbn [nodes]. rewrite Hn.
  by destruct (MarkBugs.misc n).
Qed.

Lemma log_dead (s : state) (node : ref) (short_msg long_msg : string) :
  nodes s !! node = None →
  log node short_msg long_msg s = (NoResult Dangling, s).
Proof.
  intros Hn. unfold log, address, get_root_address.
  rewrite !B_run_bind. unfold MarkBugs.load. by rewrite Hn.
Qed.

(** On a copula that is no auxiliary and no pronoun the rule [cop-upos] is
    the first that fires, and the call ends in its [log]. *)
Lemma process_node_stops_at_cop_upos (s : state) (node : ref)
    (n : MarkBugs.Node) :
  nodes s !! node = Some n →
  MarkBugs.deprel n = Some "cop" →
  MarkBugs.upos n ≠ Some "AUX" → MarkBugs.upos n ≠ Some "PRON" →
  process_node node s
  = (Raise (not_subscriptable (MarkBugs.misc n)),
     logged s
       ("node " +:+ (root_address s +:+ "#" +:+ format_d (MarkBugs.ord n))
          +:+ " cop-upos: deprel=cop upos!=AUX|PRON (but "
          +:+ format_s (MarkBugs.upos n) +:+ ")")).
Proof.
  intros Hn Hdep Haux Hpron. unfold process_node.
  rewrite (B_bind_Ret _ _ s s n) by (unfold MarkBugs.load; by rewrite Hn).
  cbv zeta. rewrite Hdep.
  rewrite (B_bind_Ret _ _ s s tt) by reflexivity.
  rewrite (B_bind_Ret _ _ s s tt) by reflexivity.
  assert (among (MarkBugs.upos n) ["AUX"; "PRON"] = false) as ->.
  { unfold among. apply bool_decide_eq_false.
    rewrite !fmap_cons, fmap_nil, !elem_of_cons, elem_of_nil. tauto. }
  rewrite (bool_decide_eq_true_2 (Some "cop" = Some "cop") eq_refl).
  cbn [andb negb when].
  rewrite B_run_bind, (log_run s node n _ _ Hn). reflexivity.
Qed.
End MarkBugs_facts.

(** C9, at a copula tagged as a verb under the root of sentence [s1], with
    [misc] the string of an empty column and with [misc] None as [Node()]
    leaves it: [process_node] writes the warning of [cop-upos] and then
    raises TypeError at [node.misc['Bug']].  The node is as before, nothing
    stands under [Bug], no counter was touched, and the overview of
    [process_end] has its heading and a TOTAL of 0, without a line for
    [cop-upos]. *)
Theorem cop_upos_is_logged_but_not_marked :
  MarkBugs.process_node 1%nat cop_state
  = (Raise (TypeError "string indices must be integers"),
     logged cop_state
       "node s1#1 cop-upos: deprel=cop upos!=AUX|PRON (but VERB)")
  ∧ MarkBugs.process_node 1%nat fresh_cop_state
    = (Raise (TypeError "'NoneType' object is not subscriptable"),
       logged fresh_cop_state
         "node s1#1 cop-upos: deprel=cop upos!=AUX|PRON (but VERB)")
  ∧ MarkBugs.nodes (MarkBugs.process_node 1%nat cop_state).2 !! 1%nat
    = Some cop_node
  ∧ MarkBugs.misc cop_node = Some "_"
  ∧ MarkBugs.stats (MarkBugs.process_node 1%nat cop_state).2 = []
  ∧ MarkBugs.process_end (MarkBugs.process_node 1%nat cop_state).2
    = (Ret tt,
       {| MarkBugs.nodes := MarkBugs.nodes cop_state;
          MarkBugs.root_address := "s1";
          MarkBugs.stats := [];
          MarkBugs.warnings :=
            ["node s1#1 cop-upos: deprel=cop upos!=AUX|PRON (but VERB)";
             "ud.MarkBugs Error Overview:";
             "               TOTAL          0"] |}).
Proof. vm_compute. repeat split. Qed.

(** * Further properties *)

(** ** Running a method body, backwards *)

Lemma bind_Ret_inv {A B} (m : M A) (k : A → M B) (h h2 : heap) (b : B) :
  (m ≫= k) h = (Ret b, h2) →
  ∃ a h1, m h = (Ret a, h1) ∧ k a h1 = (Ret b, h2).
Proof.
  rewrite run_bind. destruct (m h) as [[a| |] h1]; [|discriminate..].
  intros H. by exists a, h1.
Qed.

Lemma load_inv (x : ref) (h h1 : heap) (n : Node) :
  load x h = (Ret n, h1) → h1 = h ∧ h !! x = Some n.
Proof.
  unfold load. destruct (h !! x); [|discriminate]. by intros [= -> ->].
Qed.

Lemma parent_inv (x : ref) (h h1 : heap) (p : option ref) :
  parent x h = (Ret p, h1) → h1 = h ∧ ∃ n, h !! x = Some n ∧ _parent n = p.
Proof.
  intros H. apply bind_Ret_inv in H as (n & h' & Hl & Hr).
  apply load_inv in Hl as [-> Hn]. injection Hr as <- <-. eauto.
Qed.

Lemma ord_of_insert (h : heap) (x y : ref) (n n' : Node) :
  h !! x = Some n → ord n' = ord n → ord_of (<[x := n']> h) y = ord_of h y.
Proof.
  intros Hx Ho. unfold ord_of. destruct (decide (x = y)) as [<-|Hne].
  - rewrite lookup_insert_eq, Hx. simpl. done.
  - by rewrite lookup_insert_ne.
Qed.

Lemma key_insert (h : heap) (x y : ref) (n n' : Node) :
  h !! x = Some n → ord n' = ord n → key (<[x := n']> h) y = key h y.
Proof. intros Hx Ho. unfold key. by rewrite (ord_of_insert h x y n n'). Qed.

(** ** The setter of [parent]: what is rejected *)

(** X1: a node that is not its own parent cannot be made its own parent.
    The assignment raises and leaves the store as it was: ValueError when
    the node has an ord, and TypeError when its ord is None, because the
    message of the ValueError is formatted first, with ['%d' % self.ord]. *)
Theorem set_parent_self_is_rejected (h : heap) (self : ref) (n : Node) :
  h !! self = Some n → _parent n ≠ Some self →
  (∀ p, _parent n = Some p → is_Some (h !! p)) →
  set_parent self (Some self) h
    = (Raise (match ord n with
              | Some _ =>
                  ValueError "Could not set the node itself as a parent"
              | None =>
                  TypeError "%d format: a number is required, not NoneType"
              end), h).
Proof.
  intros Hn Hp Hlive. unfold set_parent.
  rewrite (bind_Ret _ _ _ _ _ (parent_live _ _ _ Hn)).
  rewrite decide_False by done. rewrite decide_True by done.
  assert (Node__str__ self h
          = (match ord n with
             | Some _ => Ret tt
             | None =>
                 Raise (TypeError
                          "%d format: a number is required, not NoneType")
             end, h)) as Hstr.
  { unfold Node__str__.
    rewrite (bind_Ret _ _ _ _ _ (load_live _ _ _ Hn)).
    rewrite (bind_Ret _ _ _ _ _ (parent_live _ _ _ Hn)).
    rewrite (bind_Ret _ _ h h tt).
    - by destruct (ord n).
    - destruct (_parent n) as [p|] eqn:Hpar; [|done].
      destruct (Hlive p eq_refl) as [pn Hpn].
      by rewrite (bind_Ret _ _ _ _ _ (load_live _ _ _ Hpn)). }
  rewrite run_bind, Hstr. by destruct (ord n).
Qed.

Lemma set_parent_self_is_rejected_witness :
  set_parent node_B (Some node_B) chain
    = (Raise (ValueError "Could not set the node itself as a parent"), chain)
  ∧ set_parent 0%nat (Some 0%nat) {[ 0%nat := Node__init__ ]}
    = (Raise (TypeError "%d format: a number is required, not NoneType"),
       {[ 0%nat := Node__init__ ]}).
Proof.
  split.
  - etransitivity.
    + apply (set_parent_self_is_rejected chain node_B
               (default Node__init__ (chain !! node_B))).
      * vm_compute. reflexivity.
      * vm_compute. discriminate.
      * intros p Hp. vm_compute in Hp. injection Hp as <-. by eexists.
    + vm_compute. reflexivity.
  - etransitivity.
    + apply (set_parent_self_is_rejected {[ 0%nat := Node__init__ ]} 0%nat
               Node__init__).
      * vm_compute. reflexivity.
      * vm_compute. discriminate.
      * intros p Hp. vm_compute in Hp. discriminate.
    + vm_compute. reflexivity.
Defined.

(** X2: a node that has a parent cannot be detached by assigning None: the
    walk starts at None, so the assignment raises AttributeError, and the
    store is as before. *)
Theorem set_parent_None_is_rejected (h : heap) (self : ref) (n : Node) :
  h !! self = Some n → _parent n ≠ None →
  set_parent self None h
    = (Raise (AttributeError "'NoneType' object has no attribute is_root"), h).
Proof.
  intros Hn Hp. unfold set_parent.
  rewrite (bind_Ret _ _ _ _ _ (parent_live _ _ _ Hn)).
  rewrite decide_False by done. rewrite decide_False by done.
  rewrite (bind_Ret _ _ h h (size h)) by reflexivity.
  by destruct (size h).
Qed.

Lemma set_parent_None_is_rejected_witness :
  set_parent node_B None chain
    = (Raise (AttributeError "'NoneType' object has no attribute is_root"),
       chain).
Proof.
  eapply (set_parent_None_is_rejected chain node_B).
  - vm_compute. reflexivity.
  - vm_compute. discriminate.
Defined.

(** ** The setter of [parent]: what an accepted assignment does *)

(** The store before the last two writes of the setter. *)
Lemma detach_old_parent (h : heap) (self : ref) (n : Node) :
  h !! self = Some n →
  match _parent n with
  | Some p => p ≠ self ∧ is_Some (h !! p)
  | None => True
  end →
  ∃ h1,
    (match _parent n with
     | Some p =>
         cs ← children p;
         update p (with_children (filter (λ node, node ≠ self) (items cs)))
     | None => ret tt
     end) h = (Ret tt, h1)
    ∧ h1 = match _parent n with
           | Some p =>
               match h !! p with
               | Some pn =>
                   <[p := with_children
                            (filter (λ node, node ≠ self) (_children pn)) pn]> h
               | None => h
               end
           | None => h
           end
    ∧ h1 !! self = Some n
    ∧ (∀ x, ord_of h1 x = ord_of h x)
    ∧ (∀ x, _parent n ≠ Some x → h1 !! x = h !! x).
Proof.
  intros Hn Hold. destruct (_parent n) as [p|].
  - destruct Hold as [Hne [pn Hp]]. rewrite Hp. eexists. split; [|split; [done|]].
    + rewrite (bind_Ret _ _ _ _ _ (children_live _ _ _ Hp)).
      by apply update_live.
    + split; [by rewrite lookup_insert_ne|]. split.
      * intros x. by apply ord_of_insert with pn.
      * intros x Hx. rewrite lookup_insert_ne; [done|congruence].
  - exists h. done.
Qed.

(** An accepted assignment.  [self] and the new parent are two live
    nodes, the new parent is not the current one, the old parent (if any) is
    a live node other than [self], and the children of the new parent and
    [self] have integer ords.  Then the assignment returns, and the store is
    changed in three places: the old parent lost [self] from its children,
    [self] has the new parent, and the children of the new parent are the
    old ones and [self], in ascending order of ord. *)
Lemma set_parent_run (h : heap) (self np : ref) (n npn : Node) :
  h !! self = Some n → h !! np = Some npn →
  self ≠ np → _parent n ≠ Some np →
  match _parent n with
  | Some p => p ≠ self ∧ is_Some (h !! p)
  | None => True
  end →
  Forall (λ x, is_Some (ord_of h x)) (_children npn ++ [self]) →
  set_parent self (Some np) h = (Ret tt, reparented h self np n npn)
  ∧ reparented h self np n npn !! self = Some (with_parent (Some np) n)
  ∧ (∃ cs, reparented h self np n npn !! np = Some (with_children cs npn)
           ∧ cs ≡ₚ _children npn ++ [self] ∧ ascending h cs)
  ∧ (∀ p pn, _parent n = Some p → h !! p = Some pn →
       reparented h self np n npn !! p
       = Some (with_children (filter (λ node, node ≠ self) (_children pn)) pn))
  ∧ (∀ x, x ≠ self → x ≠ np → _parent n ≠ Some x →
       reparented h self np n npn !! x = h !! x).
Proof.
  intros Hn Hnp Hne Hpar Hold Hords.
  destruct (detach_old_parent h self n Hn Hold)
    as (h1 & Hrun1 & Hh1 & Hself1 & Hord1 & Hframe1).
  assert (h1 !! np = Some npn) as Hnp1 by (by rewrite Hframe1).
  assert (reparented h self np n npn
          = <[np := with_children
                      (sorted_refs (key h) (_children npn ++ [self])) npn]>
              (<[self := with_parent (Some np) n]> h1)) as Hre
    by (unfold reparented; by rewrite <- Hh1).
  split; [|split; [|split; [|split]]].
  - unfold set_parent.
    rewrite (bind_Ret _ _ _ _ _ (parent_live _ _ _ Hn)).
    rewrite decide_False by done.
    rewrite decide_False by (intros [= ?]; done).
    rewrite (bind_Ret _ _ h h (size h)) by reflexivity.
    rewrite (bind_Ret _ _ _ _ _ (climb_never_walks _ _ _ _ _ Hnp)).
    rewrite (bind_Ret _ _ _ _ _ Hrun1).
    rewrite (bind_Ret _ _ _ _ _ (update_live _ _ _ _ Hself1)).
    assert (<[self := with_parent (Some np) n]> h1 !! np = Some npn) as Hnp2
      by (by rewrite lookup_insert_ne).
    rewrite (bind_Ret _ _ _ _ _ (children_live _ _ _ Hnp2)). cbn [items].
    assert (Forall (λ x, is_Some (ord_of (<[self := with_parent (Some np) n]> h1) x))
                   (_children npn ++ [self])) as Hords2.
    { eapply Forall_impl; [exact Hords|]. intros x Hx. cbn beta.
      by rewrite (ord_of_insert h1 self x n), Hord1. }
    rewrite (bind_Ret _ _ _ _ _ (sorted_by_ord_live _ _ Hords2)).
    rewrite (update_live _ _ _ _ Hnp2). rewrite Hre. f_equal. f_equal.
    f_equal. unfold sorted_refs. f_equal. f_equal.
    apply list_fmap_ext. intros _ x _. f_equal.
    unfold key. by rewrite (ord_of_insert h1 self x n), Hord1.
  - rewrite Hre. by rewrite lookup_insert_ne, lookup_insert_eq.
  - eexists. rewrite Hre, lookup_insert_eq. split; [done|].
    split; [apply sorted_refs_perm|apply sorted_refs_sorted].
  - intros p pn Hp Hpn. rewrite Hre.
    rewrite Hp in Hold. destruct Hold as [Hps _].
    rewrite lookup_insert_ne by congruence.
    rewrite lookup_insert_ne by congruence.
    rewrite Hh1, Hp, Hpn. by rewrite lookup_insert_eq.
  - intros x Hxs Hxn Hxp. rewrite Hre.
    rewrite !lookup_insert_ne by done. by apply Hframe1.
Qed.

(** X3: an accepted assignment.  [self] and the new parent are two live
    nodes, the new parent is not the current one, the old parent (if any) is
    a live node other than [self], and the children of the new parent and
    [self] have integer ords.  Then the assignment returns, and the store is
    changed in three places: the old parent lost [self] from its children,
    [self] has the new parent, and the children of the new parent are the
    old ones and [self], in ascending order of ord. *)
Theorem set_parent_accepted (h : heap) (self np : ref) (n npn : Node) :
  h !! self = Some n → h !! np = Some npn →
  self ≠ np → _parent n ≠ Some np →
  match _parent n with
  | Some p => p ≠ self ∧ is_Some (h !! p)
  | None => True
  end →
  Forall (λ x, is_Some (ord_of h x)) (_children npn ++ [self]) →
  set_parent self (Some np) h = (Ret tt, reparented h self np n npn)
  ∧ reparented h self np n npn !! self = Some (with_parent (Some np) n)
  ∧ (∃ cs, reparented h self np n npn !! np = Some (with_children cs npn)
           ∧ cs ≡ₚ _children npn ++ [self] ∧ ascending h cs)
  ∧ (∀ p pn, _parent n = Some p → h !! p = Some pn →
       reparented h self np n npn !! p
       = Some (with_children (filter (λ node, node ≠ self) (_children pn)) pn))
  ∧ (∀ x, x ≠ self → x ≠ np → _parent n ≠ Some x →
       reparented h self np n npn !! x = h !! x).
Proof. exact (set_parent_run h self np n npn). Qed.

(** [C.parent = A] in the chain: C moves from B to A. *)
Lemma set_parent_accepted_witness :
  ∃ n npn : Node,
    set_parent node_C (Some node_A) chain
      = (Ret tt, reparented chain node_C node_A n npn)
    ∧ reparented chain node_C node_A n npn !! node_C
      = Some (with_parent (Some node_A) n)
    ∧ (∃ cs, reparented chain node_C node_A n npn !! node_A
             = Some (with_children cs npn)
             ∧ cs ≡ₚ _children npn ++ [node_C] ∧ ascending chain cs)
    ∧ (∀ p pn, _parent n = Some p → chain !! p = Some pn →
         reparented chain node_C node_A n npn !! p
         = Some (with_children
                   (filter (λ node, node ≠ node_C) (_children pn)) pn))
    ∧ (∀ x, x ≠ node_C → x ≠ node_A → _parent n ≠ Some x →
         reparented chain node_C node_A n npn !! x = chain !! x).
Proof.
  eexists _, _.
  eapply (set_parent_accepted chain node_C node_A).
  - vm_compute. reflexivity.
  - vm_compute. reflexivity.
  - discriminate.
  - vm_compute. discriminate.
  - vm_compute. split; [discriminate|by eexists].
  - repeat constructor; vm_compute; by eexists.
Defined.

Lemma set_parent_accepted_example :
  (set_parent node_C (Some node_A) chain).1 = Ret tt
  ∧ _children <$> (set_parent node_C (Some node_A) chain).2 !! node_A
    = Some [node_B; node_C]
  ∧ _children <$> (set_parent node_C (Some node_A) chain).2 !! node_B = Some []
  ∧ _parent <$> (set_parent node_C (Some node_A) chain).2 !! node_C
    = Some (Some node_A).
Proof. vm_compute. repeat split. Qed.
(** ** The setter of [parent] keeps links and children lists in step *)

(** Every node of the store after an accepted assignment, seen from the
    store before it. *)
Lemma reparented_view (h : heap) (self np : ref) (n npn : Node) :
  h !! self = Some n → h !! np = Some npn →
  self ≠ np → _parent n ≠ Some np → _parent n ≠ Some self →
  (∀ p, _parent n = Some p → is_Some (h !! p)) →
  ∀ x,
    match h !! x with
    | Some m0 =>
        ∃ m, reparented h self np n npn !! x = Some m
             ∧ _parent m = (if decide (x = self) then Some np else _parent m0)
             ∧ (if decide (x = np)
                then _children m ≡ₚ _children m0 ++ [self]
                else if decide (_parent n = Some x)
                     then _children m
                          = filter (λ node, node ≠ self) (_children m0)
                     else _children m = _children m0)
    | None => reparented h self np n npn !! x = None
    end.
Proof.
  intros Hn Hnp Hne Hpar Hself Hold x. unfold reparented.
  destruct (decide (x = np)) as [->|Hxnp].
  { rewrite Hnp, lookup_insert_eq. eexists. split; [done|].
    rewrite decide_False by done. split; [done|]. cbn. apply sorted_refs_perm. }
  rewrite lookup_insert_ne by done.
  destruct (decide (x = self)) as [->|Hxs].
  { rewrite Hn, lookup_insert_eq. eexists. split; [done|]. split; [done|].
    by rewrite decide_False. }
  rewrite lookup_insert_ne by done.
  destruct (_parent n) as [p|] eqn:Hp.
  - destruct (Hold p eq_refl) as [pn Hpn]. rewrite Hpn.
    destruct (decide (p = x)) as [->|Hpx].
    + rewrite Hpn, lookup_insert_eq. eexists. split; [done|]. split; [done|].
      by rewrite decide_True.
    + rewrite lookup_insert_ne by done.
      destruct (h !! x) as [m0|]; [|done].
      eexists. split; [done|]. split; [done|].
      by rewrite decide_False by congruence.
  - destruct (h !! x) as [m0|]; [|done].
    eexists. split; [done|]. split; [done|]. by rewrite decide_False.
Qed.

(** An accepted assignment keeps the parent links and the children lists
    consistent with each other. *)
Lemma set_parent_linked (h : heap) (self np : ref) (n npn : Node) :
  linked h →
  h !! self = Some n → h !! np = Some npn →
  self ≠ np → _parent n ≠ Some np → _parent n ≠ Some self →
  Forall (λ x, is_Some (ord_of h x)) (_children npn ++ [self]) →
  ∃ h', set_parent self (Some np) h = (Ret tt, h') ∧ linked h'.
Proof.
  intros Hlinked Hn Hnp Hne Hpar Hself Hords.
  assert (∀ p, _parent n = Some p → is_Some (h !! p)) as Hold.
  { intros p Hp. destruct (proj1 (Hlinked self p)) as (pn & Hpn & _); eauto. }
  exists (reparented h self np n npn). split.
  { apply set_parent_run; try done.
    destruct (_parent n) as [p|] eqn:Hp; [|done].
    split; [congruence|by apply Hold]. }
  pose proof (reparented_view h self np n npn Hn Hnp Hne Hpar Hself Hold) as Hview.
  intros x q. split.
  - intros (m & Hm & Hq).
    pose proof (Hview x) as Hx. destruct (h !! x) as [m0|] eqn:Hx0;
      [|congruence].
    destruct Hx as (m' & Hm' & Hpm & _). rewrite Hm in Hm'.
    injection Hm' as <-.
    destruct (decide (x = self)) as [->|Hxs].
    + assert (q = np) as -> by congruence.
      pose proof (Hview np) as Hv. rewrite Hnp in Hv.
      destruct Hv as (m1 & Hm1 & _ & Hc). rewrite decide_True in Hc by done.
      exists m1. split; [done|]. rewrite Hc. apply elem_of_app. right.
      by apply list_elem_of_singleton.
    + assert (_parent m0 = Some q) as Hq0 by congruence.
      destruct (proj1 (Hlinked x q)) as (qn & Hqn & Hin); [eauto|].
      pose proof (Hview q) as Hv. rewrite Hqn in Hv.
      destruct Hv as (m1 & Hm1 & _ & Hc). exists m1. split; [done|].
      destruct (decide (q = np)).
      * rewrite Hc. apply elem_of_app. by left.
      * destruct (decide (_parent n = Some q)); rewrite Hc; [|done].
        by apply list_elem_of_filter.
  - intros (qn & Hqn & Hin).
    pose proof (Hview q) as Hv. destruct (h !! q) as [q0|] eqn:Hq0;
      [|congruence].
    destruct Hv as (m1 & Hm1 & _ & Hc). rewrite Hqn in Hm1.
    injection Hm1 as <-.
    assert (x = self ∧ q = np
            ∨ x ≠ self ∧ x ∈ _children q0) as [[-> ->]|[Hxs Hin0]].
    { destruct (decide (q = np)) as [->|Hqnp].
      - rewrite Hc in Hin. apply elem_of_app in Hin as [Hin|Hin].
        + right. split; [|done]. intros ->.
          destruct (proj2 (Hlinked self np)) as (n' & Hn' & Hp'); [eauto|].
          congruence.
        + left. by apply list_elem_of_singleton in Hin.
      - right. destruct (decide (_parent n = Some q)) as [Hpq|Hpq];
          rewrite Hc in Hin.
        + by apply list_elem_of_filter in Hin.
        + split; [|done]. intros ->.
          destruct (proj2 (Hlinked self q)) as (n' & Hn' & Hp'); [eauto|].
          congruence. }
    + pose proof (Hview self) as Hv. rewrite Hn in Hv.
      destruct Hv as (m & Hm & Hpm & _). rewrite decide_True in Hpm by done.
      eauto.
    + destruct (proj2 (Hlinked x q)) as (m0 & Hm0 & Hp0); [eauto|].
      pose proof (Hview x) as Hv. rewrite Hm0 in Hv.
      destruct Hv as (m & Hm & Hpm & _). rewrite decide_False in Hpm by done.
      exists m. split; [done|congruence].
Qed.

(** X4: an accepted assignment keeps the parent links and the children lists
    consistent with each other. *)
Theorem set_parent_keeps_linked (h : heap) (self np : ref) (n npn : Node) :
  linked h →
  h !! self = Some n → h !! np = Some npn →
  self ≠ np → _parent n ≠ Some np → _parent n ≠ Some self →
  Forall (λ x, is_Some (ord_of h x)) (_children npn ++ [self]) →
  ∃ h', set_parent self (Some np) h = (Ret tt, h') ∧ linked h'.
Proof. exact (set_parent_linked h self np n npn). Qed.
(** ** The chain of parents: [root] and [is_descendant_of] *)

Lemma chain_to_top_det (h : heap) (x : ref) (l1 l2 : list ref) :
  chain_to_top h x l1 → chain_to_top h x l2 → l1 = l2.
Proof.
  intros H1. revert l2. induction H1 as [x n Hx Hp|x n p l Hx Hp _ IH];
    intros l2 H2; inversion H2; simplify_eq; [done|].
  f_equal. by apply IH.
Qed.

Lemma chain_to_top_suffix (h : heap) (x y : ref) (l : list ref) :
  chain_to_top h x l → y ∈ l → ∃ l', chain_to_top h y l' ∧ l' `suffix_of` l.
Proof.
  induction 1 as [x n Hx Hp|x n p l Hx Hp Hl IH]; intros Hy.
  - apply list_elem_of_singleton in Hy as ->. exists [x].
    split; [by apply chain_top with n|done].
  - apply elem_of_cons in Hy as [->|Hy].
    + exists (x :: l). split; [by apply chain_up with n p|done].
    + destruct (IH Hy) as (l' & Hl' & Hsuf). exists l'. split; [done|].
      by apply suffix_cons_r.
Qed.

Lemma chain_to_top_NoDup (h : heap) (x : ref) (l : list ref) :
  chain_to_top h x l → NoDup l.
Proof.
  induction 1 as [x n Hx Hp|x n p l Hx Hp Hl IH].
  - apply NoDup_singleton.
  - constructor; [|done]. intros Hin.
    destruct (chain_to_top_suffix h p x l Hl Hin) as (l' & Hl' & Hsuf).
    assert (l' = x :: l) as ->
      by (eapply chain_to_top_det; [done|by apply chain_up with n p]).
    apply suffix_length in Hsuf. simpl in Hsuf. lia.
Qed.

Lemma chain_to_top_live (h : heap) (x : ref) (l : list ref) :
  chain_to_top h x l → Forall (λ y, is_Some (h !! y)) l.
Proof. induction 1; repeat constructor; eauto. Qed.

(** A chain to the top has no more nodes than the store has objects. *)
Lemma chain_to_top_length (h : heap) (x : ref) (l : list ref) :
  chain_to_top h x l → (length l ≤ size h)%nat.
Proof.
  intros Hl. rewrite <- size_dom. unfold size, set_size. simpl.
  apply submseteq_length, NoDup_submseteq.
  - by apply chain_to_top_NoDup with h x.
  - intros y Hy. apply elem_of_elements, elem_of_dom.
    pose proof (chain_to_top_live h x l Hl) as Hlive.
    rewrite Forall_forall in Hlive. by apply Hlive.
Qed.

Lemma chain_to_top_last (h : heap) (x r : ref) (l : list ref) :
  chain_to_top h x l → last l = Some r →
  ∃ rn, h !! r = Some rn ∧ _parent rn = None.
Proof.
  induction 1 as [x n Hx Hp|x n p l Hx Hp Hl IH]; intros Hr.
  - injection Hr as <-. eauto.
  - apply IH. destruct l; [inversion Hl|]. by rewrite last_cons_cons in Hr.
Qed.

Lemma chain_to_top_nonempty (h : heap) (x : ref) (l : list ref) :
  chain_to_top h x l → (1 ≤ length l)%nat.
Proof. destruct 1; simpl; lia. Qed.

Lemma root_walk_chain (h : heap) (x : ref) (l : list ref) :
  chain_to_top h x l →
  ∀ fuel, (length l ≤ S fuel)%nat →
          ∃ r, last l = Some r ∧ root_walk fuel x h = (Ret r, h).
Proof.
  induction 1 as [x n Hx Hp|x n p l Hx Hp Hl IH]; intros fuel Hlen.
  - exists x. split; [done|]. destruct fuel; cbn [root_walk];
      by rewrite (bind_Ret _ _ _ _ _ (parent_live _ _ _ Hx)), Hp.
  - pose proof (chain_to_top_nonempty h p l Hl) as Hne.
    destruct fuel as [|fuel]; [simpl in Hlen; lia|].
    destruct (IH fuel) as (r & Hr & Hrun); [simpl in Hlen; lia|].
    exists r. split.
    + destruct l; [simpl in Hne; lia|]. by rewrite last_cons_cons.
    + cbn [root_walk].
      by rewrite (bind_Ret _ _ _ _ _ (parent_live _ _ _ Hx)), Hp.
Qed.

Lemma root_walk_inv (h : heap) (fuel : nat) :
  ∀ (x r : ref) (h' : heap),
    root_walk fuel x h = (Ret r, h') →
    h' = h ∧ ∃ l, chain_to_top h x l ∧ last l = Some r.
Proof.
  induction fuel as [|fuel IH]; intros x r h' Hrun; cbn [root_walk] in Hrun;
    apply bind_Ret_inv in Hrun as (p & h1 & Hp & Hrun);
    apply parent_inv in Hp as [-> (n & Hx & <-)];
    destruct (_parent n) as [p|] eqn:Hp; try discriminate.
  - injection Hrun as <- <-. split; [done|]. exists [x].
    split; [by apply chain_top with n|done].
  - destruct (IH _ _ _ Hrun) as [-> (l & Hl & Hr)]. split; [done|].
    exists (x :: l). split; [by apply chain_up with n p|].
    destruct l; [inversion Hl|]. by rewrite last_cons_cons.
  - injection Hrun as <- <-. split; [done|]. exists [x].
    split; [by apply chain_top with n|done].
Qed.

(** [root] returns exactly when the chain of parents of the node ends,
    and then it returns the last node of that chain and leaves the store as
    it is. *)
Lemma root_iff_chain (h h' : heap) (x r : ref) :
  root x h = (Ret r, h')
  ↔ h' = h ∧ ∃ l, chain_to_top h x l ∧ last l = Some r.
Proof.
  unfold root, live_objects. rewrite run_bind. split.
  - apply root_walk_inv.
  - intros [-> (l & Hl & Hr)].
    destruct (root_walk_chain h x l Hl (size h)) as (r' & Hr' & Hrun).
    + pose proof (chain_to_top_length h x l Hl). lia.
    + congruence.
Qed.

(** X5: [root] returns exactly when the chain of parents of the node ends,
    and then it returns the last node of that chain and leaves the store as
    it is. *)
Theorem root_is_top_of_chain (h h' : heap) (x r : ref) :
  root x h = (Ret r, h')
  ↔ h' = h ∧ ∃ l, chain_to_top h x l ∧ last l = Some r.
Proof. exact (root_iff_chain h h' x r). Qed.

(** X6: the node that [root] returns has no parent, and [root] of it is the
    node itself. *)
Theorem root_is_parentless_and_fixed (h h' : heap) (x r : ref) :
  root x h = (Ret r, h') →
  (∃ rn, h !! r = Some rn ∧ _parent rn = None) ∧ root r h = (Ret r, h).
Proof.
  intros Hrun. apply root_iff_chain in Hrun as [-> (l & Hl & Hr)].
  destruct (chain_to_top_last h x r l Hl Hr) as (rn & Hrn & Hp).
  split; [eauto|]. apply root_iff_chain. split; [done|].
  exists [r]. split; [by apply chain_top with rn|done].
Qed.

Lemma root_is_parentless_and_fixed_witness :
  (∃ rn, chain !! the_root = Some rn ∧ _parent rn = None)
  ∧ root the_root chain = (Ret the_root, chain).
Proof.
  apply (root_is_parentless_and_fixed chain chain node_C the_root).
  vm_compute. reflexivity.
Defined.

Lemma reaches_Some (h : heap) (c a : ref) :
  reaches h (Some c) a
  ↔ c = a ∨ ∃ n, h !! c = Some n ∧ reaches h (_parent n) a.
Proof.
  split.
  - inversion 1; simplify_eq; eauto.
  - intros [->|(n & Hc & Hr)]; [constructor|by apply reaches_up with n].
Qed.

Lemma is_descendant_of_walk_sound (h : heap) (node : ref) (fuel : nat) :
  ∀ (c : option ref) (b : bool) (h' : heap),
    is_descendant_of_walk fuel c node h = (Ret b, h') →
    h' = h ∧ (b = true ↔ reaches h c node).
Proof.
  induction fuel as [|fuel IH]; intros [c|] b h' Hrun;
    cbn [is_descendant_of_walk] in Hrun.
  - destruct (decide (c = node)) as [->|Hne]; [|discriminate].
    injection Hrun as <- <-. split; [done|]. split; [constructor|done].
  - injection Hrun as <- <-. split; [done|]. split; [done|inversion 1].
  - destruct (decide (c = node)) as [->|Hne].
    { injection Hrun as <- <-. split; [done|]. split; [constructor|done]. }
    apply bind_Ret_inv in Hrun as (p & h1 & Hp & Hrun).
    apply parent_inv in Hp as [-> (n & Hc & <-)].
    destruct (IH _ _ _ Hrun) as [-> Hiff]. split; [done|].
    rewrite Hiff, reaches_Some. split; [eauto|].
    intros [?|(n' & Hn' & Hr)]; [done|]. congruence.
  - injection Hrun as <- <-. split; [done|]. split; [done|inversion 1].
Qed.

Lemma is_descendant_of_walk_ends (h : heap) (node c : ref) (l : list ref) :
  chain_to_top h c l →
  ∀ fuel, (length l ≤ fuel)%nat →
          ∃ b, is_descendant_of_walk fuel (Some c) node h = (Ret b, h).
Proof.
  induction 1 as [x n Hx Hp|x n p l Hx Hp Hl IH]; intros fuel Hlen;
    (destruct fuel as [|fuel]; [simpl in Hlen; lia|]);
    cbn [is_descendant_of_walk];
    (destruct (decide (x = node)); [by eexists|]);
    rewrite (bind_Ret _ _ _ _ _ (parent_live _ _ _ Hx)), Hp.
  - exists false. by destruct fuel.
  - apply IH. simpl in Hlen. lia.
Qed.

(** When [is_descendant_of] returns, the store is as before and the
    answer is true exactly when the other node is on the chain of parents of
    this node; and it does return when that chain ends. *)
Lemma is_descendant_of_walks_the_chain (h : heap) (self node : ref) :
  (∀ b h', is_descendant_of self node h = (Ret b, h') →
           h' = h ∧ (b = true ↔ ancestor h self node))
  ∧ (∀ l, chain_to_top h self l →
          ∃ b, is_descendant_of self node h = (Ret b, h)).
Proof.
  split.
  - intros b h' Hrun. unfold is_descendant_of, live_objects in Hrun.
    rewrite run_bind in Hrun.
    apply bind_Ret_inv in Hrun as (p & h1 & Hp & Hrun).
    apply parent_inv in Hp as [-> (n & Hx & <-)].
    apply is_descendant_of_walk_sound in Hrun as [-> Hiff]. split; [done|].
    rewrite Hiff. unfold ancestor. split; [eauto|].
    intros (n' & Hn' & Hr). congruence.
  - intros l Hl. unfold is_descendant_of, live_objects. rewrite run_bind.
    pose proof (chain_to_top_length h self l Hl) as Hlen.
    destruct Hl as [x n Hx Hp|x n p l Hx Hp Hl];
      rewrite (bind_Ret _ _ _ _ _ (parent_live _ _ _ Hx)), Hp.
    + exists false. by destruct (size h).
    + apply is_descendant_of_walk_ends with l; [done|]. simpl in Hlen. lia.
Qed.

(** X7: when [is_descendant_of] returns, the store is as before and the
    answer is true exactly when the other node is on the chain of parents of
    this node; and it does return when that chain ends. *)
Theorem is_descendant_of_is_ancestry (h : heap) (self node : ref) :
  (∀ b h', is_descendant_of self node h = (Ret b, h') →
           h' = h ∧ (b = true ↔ ancestor h self node))
  ∧ (∀ l, chain_to_top h self l →
          ∃ b, is_descendant_of self node h = (Ret b, h)).
Proof. exact (is_descendant_of_walks_the_chain h self node). Qed.
(** ** [unordered_descendants] and [descendants] *)

Lemma children_inv (x : ref) (h h1 : heap) (cs : ListOfNodes) :
  children x h = (Ret cs, h1) →
  h1 = h ∧ ∃ n, h !! x = Some n ∧ cs = mkListOfNodes (_children n) x.
Proof.
  intros H. apply bind_Ret_inv in H as (n & h' & Hl & Hr).
  apply load_inv in Hl as [-> Hn]. injection Hr as <- <-. eauto.
Qed.

Lemma below_inv (h : heap) (n y : ref) (nn : Node) :
  h !! n = Some nn →
  below h n y ↔ ∃ c, c ∈ _children nn ∧ (y = c ∨ below h c y).
Proof.
  intros Hn. split.
  - inversion 1; simplify_eq; eauto.
  - intros (c & Hc & [->|Hb]).
    + by apply below_child with nn.
    + by apply below_deeper with nn c.
Qed.

Lemma gather_inv (h : heap) (f : ref → M (list ref)) (cs : list ref) :
  (∀ c l h', f c h = (Ret l, h') → h' = h ∧ ∀ y, y ∈ l ↔ below h c y) →
  ∀ l h', gather f cs h = (Ret l, h') →
          h' = h ∧ ∀ y, y ∈ l ↔ ∃ c, c ∈ cs ∧ (y = c ∨ below h c y).
Proof.
  intros Hf. induction cs as [|c cs IH]; intros l h' Hrun; cbn [gather] in Hrun.
  - injection Hrun as <- <-. split; [done|]. intros y. split.
    + intros Hy. by apply elem_of_nil in Hy.
    + intros (c & Hc & _). by apply elem_of_nil in Hc.
  - apply bind_Ret_inv in Hrun as (ds & h1 & Hds & Hrun).
    apply Hf in Hds as [-> Hds].
    apply bind_Ret_inv in Hrun as (rest & h2 & Hrest & Hrun).
    apply IH in Hrest as [-> Hrest]. injection Hrun as <- <-.
    split; [done|]. intros y.
    rewrite elem_of_cons, elem_of_app, Hds, Hrest. split.
    + intros [->|[Hy|(c' & Hc' & Hy)]].
      * exists c. split; [by left|by left].
      * exists c. split; [by left|by right].
      * exists c'. split; [by right|done].
    + intros (c' & Hc' & Hy). apply elem_of_cons in Hc' as [->|Hc'].
      * destruct Hy as [->|Hy]; eauto.
      * right. right. eauto.
Qed.

Lemma unordered_descendants_upto_inv (h : heap) (depth : nat) :
  ∀ (self : ref) (l : list ref) (h' : heap),
    unordered_descendants_upto depth self h = (Ret l, h') →
    h' = h ∧ ∀ y, y ∈ l ↔ below h self y.
Proof.
  induction depth as [|depth IH]; intros self l h' Hrun;
    cbn [unordered_descendants_upto] in Hrun;
    apply bind_Ret_inv in Hrun as (cs & h1 & Hcs & Hrun);
    apply children_inv in Hcs as [-> (n & Hn & ->)]; cbn [items] in Hrun.
  - destruct (_children n) as [|c cs] eqn:Hc; [|discriminate].
    injection Hrun as <- <-. split; [done|]. intros y.
    rewrite (below_inv h self y n Hn), Hc. split.
    + intros Hy. by apply elem_of_nil in Hy.
    + intros (c & Hc' & _). by apply elem_of_nil in Hc'.
  - apply (gather_inv h _ _ (IH)) in Hrun as [-> Hl]. split; [done|].
    intros y. by rewrite (below_inv h self y n Hn).
Qed.

Lemma map_each_keys_inv (h : heap) (l : list ref) :
  ∀ keyed h',
    map_each (λ x, n ← load x; ret (ord n, x)) l h = (Ret keyed, h') →
    h' = h ∧ keyed = (λ x, (ord_of h x, x)) <$> l.
Proof.
  induction l as [|x l IH]; intros keyed h' Hrun; cbn [map_each] in Hrun.
  - injection Hrun as <- <-. done.
  - apply bind_Ret_inv in Hrun as (y & h1 & Hy & Hrun).
    apply bind_Ret_inv in Hy as (n & h2 & Hn & Hy).
    apply load_inv in Hn as [-> Hn]. injection Hy as <- <-.
    apply bind_Ret_inv in Hrun as (ys & h2 & Hys & Hrun).
    apply IH in Hys as [-> ->]. injection Hrun as <- <-. split; [done|].
    rewrite fmap_cons. f_equal. f_equal. unfold ord_of. by rewrite Hn.
Qed.

Lemma int_keys_inv (h : heap) (l : list ref) (ks : list (Z * ref)) :
  int_keys ((λ x, (ord_of h x, x)) <$> l) = Some ks →
  ks = (λ x, (key h x, x)) <$> l.
Proof.
  revert ks. induction l as [|x l IH]; intros ks Hks.
  - by injection Hks as <-.
  - rewrite fmap_cons in Hks. cbn [int_keys] in Hks.
    destruct (ord_of h x) as [k|] eqn:Hk; [|discriminate].
    destruct (int_keys _) as [ks'|]; [|discriminate].
    injection Hks as <-. rewrite fmap_cons, (IH ks' eq_refl).
    unfold key. by rewrite Hk.
Qed.

(** Whenever [sorted(l, key=ord)] returns, it returns the items of [l] in
    ascending order of ord. *)
Lemma sorted_by_ord_inv (h h' : heap) (l l' : list ref) :
  sorted_by_ord l h = (Ret l', h') → h' = h ∧ l' ≡ₚ l ∧ ascending h l'.
Proof.
  intros Hrun. apply bind_Ret_inv in Hrun as (keyed & h1 & Hk & Hrun).
  apply map_each_keys_inv in Hk as [-> ->].
  destruct l as [|x [|y l]].
  - injection Hrun as <- <-. repeat split; [done|constructor].
  - injection Hrun as <- <-. repeat split; [done|repeat constructor].
  - cbn [fmap list_fmap] in Hrun.
    destruct (int_keys _) as [ks|] eqn:Hks; [|discriminate].
    injection Hrun as <- <-.
    apply (int_keys_inv h (x :: y :: l)) in Hks as ->. split; [done|].
    split; [apply sorted_refs_perm|apply sorted_refs_sorted].
Qed.

(** Whenever [descendants] of a plain node returns, the store is as
    before, the list is anchored at the node, it holds exactly the nodes
    that are below the node through children lists, and it is in ascending
    order of ord. *)
Lemma descendants_inv (h h' : heap) (self : ref) (n : Node)
    (ds : ListOfNodes) :
  h !! self = Some n → cls n = NodeClass →
  descendants self h = (Ret ds, h') →
  h' = h ∧ origin ds = self
  ∧ (∀ y, y ∈ items ds ↔ below h self y)
  ∧ ascending h (items ds).
Proof.
  intros Hn Hc Hrun. unfold descendants in Hrun.
  rewrite (bind_Ret _ _ _ _ _ (load_live _ _ _ Hn)), Hc in Hrun.
  unfold Node_descendants, unordered_descendants, live_objects in Hrun.
  apply bind_Ret_inv in Hrun as (l & h1 & Hl & Hrun).
  rewrite run_bind in Hl.
  apply unordered_descendants_upto_inv in Hl as [-> Hl].
  apply bind_Ret_inv in Hrun as (l' & h2 & Hl' & Hrun).
  apply sorted_by_ord_inv in Hl' as (-> & Hperm & Hasc).
  injection Hrun as <- <-. cbn [items origin]. repeat split; [| |done].
  - rewrite Hperm. apply Hl.
  - rewrite Hperm. apply Hl.
Qed.

(** X8: whenever [descendants] of a plain node returns, the store is as
    before, the list is anchored at the node, it holds exactly the nodes
    that are below the node through children lists, and it is in ascending
    order of ord. *)
Theorem descendants_are_the_nodes_below (h h' : heap) (self : ref) (n : Node)
    (ds : ListOfNodes) :
  h !! self = Some n → cls n = NodeClass →
  descendants self h = (Ret ds, h') →
  h' = h ∧ origin ds = self
  ∧ (∀ y, y ∈ items ds ↔ below h self y)
  ∧ ascending h (items ds).
Proof. exact (descendants_inv h h' self n ds). Qed.

Lemma descendants_are_the_nodes_below_witness :
  chain = chain ∧ origin (mkListOfNodes [node_B; node_C] node_A) = node_A
  ∧ (∀ y, y ∈ items (mkListOfNodes [node_B; node_C] node_A)
          ↔ below chain node_A y)
  ∧ ascending chain (items (mkListOfNodes [node_B; node_C] node_A)).
Proof.
  eapply (descendants_are_the_nodes_below chain chain node_A);
    vm_compute; reflexivity.
Defined.

(** ** Children lists and parent links say the same *)

Lemma reaches_extend (h : heap) (o : option ref) (c a : ref) (nc : Node) :
  reaches h o c → h !! c = Some nc → _parent nc = Some a → reaches h o a.
Proof.
  intros Hr Hc Hp. induction Hr as [c|c' n c Hc' _ IH].
  - apply reaches_up with nc; [done|]. rewrite Hp. constructor.
  - apply reaches_up with n; [done|]. by apply IH.
Qed.

Lemma below_extend (h : heap) (n c y : ref) (nc : Node) :
  below h n c → h !! c = Some nc → y ∈ _children nc → below h n y.
Proof.
  intros Hb Hc Hy. induction Hb as [n nn c Hn Hin|n nn c' c Hn Hin _ IH].
  - apply below_deeper with nn c; [done..|]. by apply below_child with nc.
  - apply below_deeper with nn c'; [done..|]. by apply IH.
Qed.

(** In a store whose links are consistent, the nodes below a node are the
    nodes that have it on their chain of parents. *)
Lemma below_iff_ancestor (h : heap) (n y : ref) :
  linked h → below h n y ↔ ancestor h y n.
Proof.
  intros Hlinked. split.
  - induction 1 as [n nn y Hn Hin|n nn c y Hn Hin _ IH].
    + destruct (proj2 (Hlinked y n)) as (m & Hm & Hp); [eauto|].
      exists m. split; [done|]. rewrite Hp. constructor.
    + destruct (proj2 (Hlinked c n)) as (mc & Hmc & Hp); [eauto|].
      destruct IH as (m & Hm & Hr). exists m. split; [done|].
      by apply reaches_extend with c mc.
  - intros (m & Hm & Hr).
    assert (∀ o, reaches h o n →
              ∀ y m0, h !! y = Some m0 → _parent m0 = o → below h n y) as Hgen.
    { clear y m Hm Hr. intros o Hr.
      induction Hr as [a|c nc a Hc _ IH]; intros y m0 Hm0 Hp.
      - destruct (proj1 (Hlinked y a)) as (na & Hna & Hin); [eauto|].
        by apply below_child with na.
      - destruct (proj1 (Hlinked y c)) as (nc' & Hnc' & Hin); [eauto|].
        simplify_eq. apply below_extend with c nc; [|done..].
        by apply IH with nc. }
    by apply (Hgen _ Hr y m).
Qed.

(** X9: in a store whose links are consistent, [descendants] and
    [is_descendant_of] agree: whenever both return, a node is in
    [self.descendants] exactly when it says it is a descendant of [self]. *)
Theorem descendants_agree_with_is_descendant_of (h h1 h2 : heap)
    (self y : ref) (n : Node) (ds : ListOfNodes) (b : bool) :
  linked h → h !! self = Some n → cls n = NodeClass →
  descendants self h = (Ret ds, h1) →
  is_descendant_of y self h = (Ret b, h2) →
  (b = true ↔ y ∈ items ds).
Proof.
  intros Hlinked Hn Hc Hds Hb.
  apply (descendants_inv h h1 self n ds Hn Hc) in Hds
    as (_ & _ & Hin & _).
  apply (proj1 (is_descendant_of_walks_the_chain h y self)) in Hb as [_ Hb].
  by rewrite Hb, Hin, below_iff_ancestor.
Qed.

Lemma linked_check_sound (h : heap) : linked_check h = true → linked h.
Proof.
  unfold linked_check. rewrite forallb_forall. intros Hall x p. split.
  - intros (n & Hn & Hp).
    specialize (Hall (x, n)). cbn beta iota in Hall.
    rewrite andb_true_iff in Hall.
    destruct Hall as [Hall _];
      [by apply list_elem_of_In, elem_of_map_to_list|].
    rewrite Hp in Hall. destruct (h !! p) as [pn|]; [|discriminate].
    exists pn. split; [done|]. by apply bool_decide_eq_true in Hall.
  - intros (pn & Hpn & Hin).
    specialize (Hall (p, pn)). cbn beta iota in Hall.
    rewrite andb_true_iff in Hall.
    destruct Hall as [_ Hall];
      [by apply list_elem_of_In, elem_of_map_to_list|].
    rewrite forallb_forall in Hall.
    specialize (Hall x (proj1 (list_elem_of_In _ _) Hin)).
    destruct (h !! x) as [m|]; [|discriminate].
    exists m. split; [done|]. by apply bool_decide_eq_true in Hall.
Qed.

Lemma chain_is_linked : linked_check chain = true ∧ linked_check bare_chain = true.
Proof. vm_compute. done. Qed.
Lemma set_parent_keeps_linked_witness :
  ∃ h', set_parent node_C (Some node_A) chain = (Ret tt, h') ∧ linked h'.
Proof.
  eapply (set_parent_keeps_linked chain node_C node_A).
  - apply linked_check_sound. vm_compute. reflexivity.
  - vm_compute. reflexivity.
  - vm_compute. reflexivity.
  - discriminate.
  - vm_compute. discriminate.
  - vm_compute. discriminate.
  - repeat constructor; vm_compute; by eexists.
Defined.

Lemma descendants_agree_with_is_descendant_of_witness :
  true = true ↔ node_C ∈ items (mkListOfNodes [node_B; node_C] node_A).
Proof.
  eapply (descendants_agree_with_is_descendant_of chain chain chain
            node_A node_C).
  - apply linked_check_sound. vm_compute. reflexivity.
  - vm_compute. reflexivity.
  - vm_compute. reflexivity.
  - vm_compute. reflexivity.
  - vm_compute. reflexivity.
Defined.

(** ** [create_child] *)

Lemma chain_to_top_mono (g g' : heap) (x : ref) (l : list ref) :
  (∀ y m, g !! y = Some m → ∃ m', g' !! y = Some m' ∧ _parent m' = _parent m) →
  chain_to_top g x l → chain_to_top g' x l.
Proof.
  intros Hext. induction 1 as [x n Hx Hp|x n p l Hx Hp _ IH];
    destruct (Hext x n Hx) as (m' & Hm' & Hpm).
  - apply chain_top with m'; congruence.
  - apply chain_up with m' p; [done|congruence|done].
Qed.

Lemma root_mono (g g' : heap) (x r : ref) :
  (∀ y m, g !! y = Some m → ∃ m', g' !! y = Some m' ∧ _parent m' = _parent m) →
  root x g = (Ret r, g) → root x g' = (Ret r, g').
Proof.
  intros Hext Hroot. apply root_iff_chain in Hroot as [_ (l & Hl & Hr)].
  apply root_iff_chain. split; [done|]. exists l.
  split; [by apply chain_to_top_mono with g|done].
Qed.

(** A new node without links keeps the links of the others consistent. *)
Lemma linked_insert_new (h : heap) (x : ref) (n : Node) :
  linked h → h !! x = None → _parent n = None → _children n = [] →
  linked (<[x := n]> h).
Proof.
  intros Hlinked Hx Hp Hc y p. split.
  - intros (m & Hm & Hpm). destruct (decide (x = y)) as [<-|Hne].
    { rewrite lookup_insert_eq in Hm. congruence. }
    rewrite lookup_insert_ne in Hm by done.
    destruct (proj1 (Hlinked y p)) as (pn & Hpn & Hin); [eauto|].
    exists pn. split; [|done]. rewrite lookup_insert_ne; [done|congruence].
  - intros (pn & Hpn & Hin). destruct (decide (x = p)) as [<-|Hne].
    { rewrite lookup_insert_eq in Hpn. injection Hpn as <-.
      rewrite Hc in Hin. by apply elem_of_nil in Hin. }
    rewrite lookup_insert_ne in Hpn by done.
    destruct (proj2 (Hlinked y p)) as (m & Hm & Hpm); [eauto|].
    exists m. split; [|done]. rewrite lookup_insert_ne; [done|congruence].
Qed.

(** Changing other slots of a node than its links keeps them consistent. *)
Lemma linked_insert_same_links (h : heap) (x : ref) (n n' : Node) :
  linked h → h !! x = Some n →
  _parent n' = _parent n → _children n' = _children n →
  linked (<[x := n']> h).
Proof.
  intros Hlinked Hx Hp Hc.
  assert (∀ y, (λ m, (_parent m, _children m)) <$> <[x := n']> h !! y
               = (λ m, (_parent m, _children m)) <$> h !! y) as Hsame.
  { intros y. destruct (decide (x = y)) as [<-|Hne].
    - rewrite lookup_insert_eq, Hx. simpl. congruence.
    - by rewrite lookup_insert_ne. }
  assert (∀ y m', <[x := n']> h !! y = Some m' →
            ∃ m, h !! y = Some m ∧ _parent m' = _parent m
                 ∧ _children m' = _children m) as Hback.
  { intros y m' Hm'. specialize (Hsame y). rewrite Hm' in Hsame.
    destruct (h !! y) as [m|]; [|discriminate]. exists m.
    simpl in Hsame. split; [done|]. split; congruence. }
  assert (∀ y m, h !! y = Some m →
            ∃ m', <[x := n']> h !! y = Some m' ∧ _parent m' = _parent m
                  ∧ _children m' = _children m) as Hforth.
  { intros y m Hm. specialize (Hsame y). rewrite Hm in Hsame.
    destruct (<[x := n']> h !! y) as [m'|]; [|discriminate]. exists m'.
    simpl in Hsame. split; [done|]. split; congruence. }
  intros y p. split.
  - intros (m' & Hm' & Hpm).
    destruct (Hback y m' Hm') as (m & Hm & Hpe & _).
    destruct (proj1 (Hlinked y p)) as (pn & Hpn & Hin);
      [exists m; split; [done|congruence]|].
    destruct (Hforth p pn Hpn) as (pn' & Hpn' & _ & Hce).
    exists pn'. split; [done|]. by rewrite Hce.
  - intros (pn' & Hpn' & Hin).
    destruct (Hback p pn' Hpn') as (pn & Hpn & _ & Hce).
    destruct (proj2 (Hlinked y p)) as (m & Hm & Hpm);
      [exists pn; split; [done|by rewrite <- Hce]|].
    destruct (Hforth y m Hm) as (m' & Hm' & Hpe & _).
    exists m'. split; [done|congruence].
Qed.

Lemma ascending_ext (g g' : heap) (l : list ref) :
  (∀ y, ord_of g' y = ord_of g y) → ascending g l → ascending g' l.
Proof.
  intros Hk. unfold ascending, key. induction 1 as [|a l _ IH Hall];
    constructor; [done|].
  eapply Forall_impl; [exact Hall|]. intros y Hy. cbn beta. by rewrite !Hk.
Qed.

(** X10: [create_child] in a registered sentence.  The node [self] belongs to
    the sentence of the root [r], whose registry [reg] holds the node of ord
    [i + 1] at index [i], and the children of [self] have integer ords.
    Then the call returns an object that did not exist before: a plain node
    whose ord is the length of the registry plus one, whose parent is
    [self], without children; it is appended to the registry, which is
    still a registry of the sentence; the children of [self] are the old
    ones and the new node, in ascending order; no other node is changed;
    and links that were consistent are still consistent. *)
Theorem create_child_appends (h : heap) (self r : ref) (n : Node)
    (reg : list ref) :
  registered h r reg →
  h !! self = Some n → root self h = (Ret r, h) →
  Forall (λ c, is_Some (ord_of h c)) (_children n) →
  ∃ (x : ref) (h' : heap),
    create_child self h = (Ret x, h')
    ∧ h !! x = None
    ∧ (∃ nx, h' !! x = Some nx ∧ cls nx = NodeClass
             ∧ ord nx = Some (Z.of_nat (length reg) + 1)
             ∧ _parent nx = Some self ∧ _children nx = [])
    ∧ registered h' r (reg ++ [x])
    ∧ (∃ n', h' !! self = Some n' ∧ _children n' ≡ₚ _children n ++ [x]
             ∧ ascending h' (_children n') ∧ _parent n' = _parent n)
    ∧ (∀ y, y ≠ x → y ≠ self → y ≠ r → h' !! y = h !! y)
    ∧ (linked h → linked h').
Proof.
  intros [(rn & Hr & Hcr & Hreg) Hord] Hn Hroot Hords.
  set (x := fresh (dom h)).
  assert (h !! x = None) as Hx by (apply not_elem_of_dom, is_fresh).
  assert (x ≠ self) as Hxs by congruence.
  assert (x ≠ r) as Hxr by congruence.
  set (N1 := with_ord (Some (Z.of_nat (length reg) + 1)) Node__init__).
  set (h2 := <[x := N1]> h).
  set (h3 := <[r := with_descendants (reg ++ [x]) rn]> h2).
  assert (∀ g, (∀ y m, h !! y = Some m → g !! y = Some m) →
               root self g = (Ret r, g)) as Hroots
    by (intros g Hg; apply root_mono with h; [|done]; intros y m Hm;
        exists m; split; [by apply Hg|done]).
  assert (∀ y m, h !! y = Some m → <[x := Node__init__]> h !! y = Some m)
    as Hext1 by (intros y m Hm; rewrite lookup_insert_ne; [done|congruence]).
  assert (∀ y m, h !! y = Some m → h2 !! y = Some m)
    as Hext2 by (intros y m Hm; unfold h2; rewrite lookup_insert_ne;
                 [done|congruence]).
  (* the node [self] when the setter of [parent] runs *)
  set (n3 := if decide (self = r)
             then with_descendants (reg ++ [x]) rn else n).
  assert (h3 !! self = Some n3) as Hn3.
  { unfold h3, n3. destruct (decide (self = r)) as [->|Hne].
    - by rewrite lookup_insert_eq.
    - rewrite lookup_insert_ne by done. by apply Hext2. }
  assert (_children n3 = _children n ∧ _parent n3 = _parent n
          ∧ ord n3 = ord n) as (Hc3 & Hp3 & Ho3).
  { unfold n3. destruct (decide (self = r)) as [->|Hne]; [|done].
    by assert (n = rn) as -> by congruence. }
  assert (h3 !! x = Some N1) as Hx3
    by (unfold h3, h2; by rewrite lookup_insert_ne, lookup_insert_eq).
  assert (∀ y, y ≠ x → ord_of h3 y = ord_of h y) as Hord3.
  { intros y Hy. unfold h3. rewrite (ord_of_insert h2 r y rn);
      [|by apply Hext2|done].
    unfold ord_of, h2. by rewrite lookup_insert_ne. }
  assert (ord_of h3 x = Some (Z.of_nat (length reg) + 1)) as Hordx
    by (unfold ord_of; by rewrite Hx3).
  assert (Forall (λ c, is_Some (ord_of h3 c)) (_children n3 ++ [x])) as Hords3.
  { rewrite Hc3. apply Forall_app. split.
    - eapply Forall_impl; [exact Hords|]. intros c [k Hk]. cbn beta.
      rewrite Hord3; [by eexists|]. intros ->. unfold ord_of in Hk.
      by rewrite Hx in Hk.
    - repeat constructor. by eexists. }
  destruct (set_parent_run h3 x self N1 n3 Hx3 Hn3 Hxs
              ltac:(discriminate) I Hords3)
    as (Hset & Hself' & (cs & Hcs & Hperm & Hasc) & _ & Hother).
  set (h' := reparented h3 x self N1 n3) in *.
  exists x, h'. split; [|split; [done|]].
  { unfold create_child.
    rewrite (bind_Ret _ _ h (<[x := Node__init__]> h) x) by reflexivity.
    rewrite (bind_Ret _ _ _ _ _ (Hroots _ Hext1)).
    rewrite (bind_Ret _ _ _ _ _
               (get__descendants_root _ _ _ (Hext1 _ _ Hr) Hcr)).
    rewrite (bind_Ret _ _ _ _ _ (update_live _ _ _ _ (lookup_insert_eq _ _ _))).
    rewrite insert_insert_eq, Hreg. fold N1. fold h2.
    rewrite (bind_Ret _ _ _ _ _ (Hroots h2 Hext2)).
    rewrite (bind_Ret _ _ _ _ _
               (get__descendants_root _ _ _ (Hext2 _ _ Hr) Hcr)).
    rewrite (bind_Ret _ _ _ _ _ (update_live _ _ _ _ (Hext2 _ _ Hr))).
    rewrite Hreg. fold h3.
    rewrite (bind_Ret _ _ _ _ _ (children_live _ _ _ Hn3)).
    by rewrite (bind_Ret _ _ _ _ _ Hset). }
  assert (∀ y, ord_of h' y = ord_of h3 y) as Hsame'.
  { intros y. unfold ord_of.
    destruct (decide (y = x)) as [->|Hyx]; [by rewrite Hself', Hx3|].
    destruct (decide (y = self)) as [->|Hys]; [by rewrite Hcs, Hn3|].
    rewrite Hother; [done..|]. discriminate. }
  assert (∀ y, y ≠ x → ord_of h' y = ord_of h y) as Hord'
    by (intros y Hy; by rewrite Hsame', Hord3).
  split; [|split; [|split; [|split]]].
  - eexists. split; [exact Hself'|]. done.
  - split.
    + destruct (decide (r = self)) as [->|Hne].
      * eexists. split; [exact Hcs|]. unfold n3. by rewrite decide_True.
      * exists (with_descendants (reg ++ [x]) rn).
        rewrite Hother; [|done..|discriminate]. unfold h3.
        by rewrite lookup_insert_eq.
    + intros i y Hy. apply lookup_app_Some in Hy as [Hy|[Hlen Hy]].
      * rewrite Hord'; [by apply Hord|]. intros ->.
        specialize (Hord i x Hy). unfold ord_of in Hord. by rewrite Hx in Hord.
      * apply list_lookup_singleton_Some in Hy as [Hi <-].
        unfold ord_of. rewrite Hself'. cbn. f_equal. lia.
  - exists (with_children cs n3). split; [done|]. cbn.
    rewrite <- Hc3. split; [done|]. split; [|done].
    by apply ascending_ext with h3.
  - intros y Hyx Hys Hyr. rewrite Hother; [|done..|discriminate].
    unfold h3, h2. by rewrite !lookup_insert_ne.
  - intros Hlinked.
    assert (linked h3) as Hlinked3.
    { unfold h3. apply linked_insert_same_links with rn;
        [|by apply Hext2|done..].
      unfold h2. by apply linked_insert_new. }
    destruct (set_parent_linked h3 x self N1 n3 Hlinked3 Hx3 Hn3 Hxs
                ltac:(discriminate) ltac:(discriminate) Hords3)
      as (h'' & Hset' & Hl''). rewrite Hset in Hset'.
    by injection Hset' as <-.
Qed.

(** A fourth node under B of the chain. *)
Lemma create_child_appends_witness :
  ∃ (n : Node) (x : ref) (h' : heap),
    create_child node_B chain = (Ret x, h')
    ∧ chain !! x = None
    ∧ (∃ nx, h' !! x = Some nx ∧ cls nx = NodeClass
             ∧ ord nx = Some (Z.of_nat (length [node_A; node_B; node_C]) + 1)
             ∧ _parent nx = Some node_B ∧ _children nx = [])
    ∧ registered h' the_root ([node_A; node_B; node_C] ++ [x])
    ∧ (∃ n', h' !! node_B = Some n' ∧ _children n' ≡ₚ _children n ++ [x]
             ∧ ascending h' (_children n') ∧ _parent n' = _parent n)
    ∧ (∀ y, y ≠ x → y ≠ node_B → y ≠ the_root → h' !! y = chain !! y)
    ∧ (linked chain → linked h').
Proof.
  eexists.
  eapply (create_child_appends chain node_B the_root _ [node_A; node_B; node_C]).
  - split.
    + eexists. split; [vm_compute; reflexivity|]. split; reflexivity.
    + intros [|[|[|i]]] y Hy; try discriminate; injection Hy as <-;
        vm_compute; reflexivity.
  - vm_compute. reflexivity.
  - vm_compute. reflexivity.
  - repeat constructor; vm_compute; by eexists.
Defined.

(** ** Reading and writing the secondary dependencies *)

Lemma return__deps_inv (g g' : heap) (n : ref) (ds : list dependency) :
  return__deps n g = (Ret ds, g') →
  g' = g ∧ ∃ m, g !! n = Some m ∧ _deps m = Some ds.
Proof.
  intros H. apply bind_Ret_inv in H as (m & g1 & Hm & H).
  apply load_inv in Hm as [-> Hm].
  destruct (_deps m) as [d|] eqn:Hd; [|discriminate].
  injection H as <- <-. eauto.
Qed.

(** After a read of [deps] that returned, the list is in the cache. *)
Lemma deps_returned_is_cached (h h1 : heap) (n : ref) (ds : list dependency) :
  deps n h = (Ret ds, h1) → ∃ m, h1 !! n = Some m ∧ _deps m = Some ds.
Proof.
  intros H. unfold deps in H.
  apply bind_Ret_inv in H as (m & g & Hm & H).
  apply load_inv in Hm as [-> Hm].
  destruct (_deps m) as [d|] eqn:Hd.
  { by apply return__deps_inv in H as [-> ?]. }
  repeat (apply bind_Ret_inv in H as (? & ? & _ & H)).
  destruct (decide _).
  - by apply return__deps_inv in H as [-> ?].
  - apply bind_Ret_inv in H as (? & ? & _ & H).
    by apply return__deps_inv in H as [-> ?].
Qed.

(** X11: two reads of [deps] in a row: whenever the first one returns, the
    second one returns the same list and does not change the store. *)
Theorem deps_read_twice (h h1 : heap) (n : ref) (ds : list dependency) :
  deps n h = (Ret ds, h1) → deps n h1 = (Ret ds, h1).
Proof.
  intros H. destruct (deps_returned_is_cached h h1 n ds H) as (m & Hm & Hd).
  by apply deps_cached with m.
Qed.

Lemma deps_read_twice_witness :
  ∃ h1 : heap,
    deps node_C h1
    = (Ret [Dependency node_B "conj"; Dependency node_A "nsubj"], h1).
Proof.
  eexists.
  eapply (deps_read_twice (set_raw_deps node_C "2:conj|1:nsubj" chain).2).
  vm_compute. reflexivity.
Defined.

Lemma set_deps_live (h : heap) (n : ref) (nd : Node) (ds : list dependency) :
  h !! n = Some nd →
  set_deps n ds h = (Ret tt, <[n := with_deps (Some ds) nd]> h).
Proof. intros Hn. by apply update_live. Qed.

(** X12: the form that was written last is the one that is read.  After a
    raw write followed by a structured write, [deps] is the list that was
    written, whatever the raw string was; after a structured write followed
    by a raw write, [raw_deps] is the string that was written and the list
    is forgotten. *)
Theorem last_written_form_is_read (h : heap) (n : ref) (nd : Node)
    (s : string) (ds : list dependency) :
  h !! n = Some nd →
  (set_raw_deps n s;; set_deps n ds;; deps n) h
    = (Ret ds, <[n := with_deps (Some ds) (with_raw_deps s nd)]> h)
  ∧ (set_deps n ds;; set_raw_deps n s;; raw_deps n) h
    = (Ret s, <[n := with_deps None (with_raw_deps s nd)]> h).
Proof.
  intros Hn. split.
  - rewrite (bind_Ret _ _ _ _ _ (set_raw_deps_live h n nd s Hn)).
    rewrite (bind_Ret _ _ _ _ _
               (set_deps_live _ n _ ds (lookup_insert_eq _ _ _))).
    rewrite insert_insert_eq.
    by apply deps_cached with (with_deps (Some ds) (with_raw_deps s nd));
      [apply lookup_insert_eq|].
  - rewrite (bind_Ret _ _ _ _ _ (set_deps_live h n nd ds Hn)).
    rewrite (bind_Ret _ _ _ _ _
               (set_raw_deps_live _ n _ s (lookup_insert_eq _ _ _))).
    rewrite insert_insert_eq. unfold raw_deps.
    by rewrite (bind_Ret _ _ _ _ _ (load_live _ _ _ (lookup_insert_eq _ _ _))).
Qed.

Lemma last_written_form_is_read_witness :
  ∃ nd : Node,
    (set_raw_deps node_C "2:nsubj:pass";;
     set_deps node_C [Dependency node_A "nsubj"];; deps node_C) chain
      = (Ret [Dependency node_A "nsubj"],
         <[node_C := with_deps (Some [Dependency node_A "nsubj"])
                       (with_raw_deps "2:nsubj:pass" nd)]> chain)
    ∧ (set_deps node_C [Dependency node_A "nsubj"];;
       set_raw_deps node_C "2:nsubj:pass";; raw_deps node_C) chain
      = (Ret "2:nsubj:pass",
         <[node_C := with_deps None (with_raw_deps "2:nsubj:pass" nd)]> chain).
Proof.
  eexists. eapply (last_written_form_is_read chain node_C).
  vm_compute. reflexivity.
Defined.

(** The first read of [deps] in a sentence with a root.  With the
    sentinel the list is empty.  Otherwise, when every entry of the raw
    string has one colon, an integer head and a node at that index of the
    list of all nodes (the root, then the registry), the list holds the
    entries in the order of the string, and it is cached; the raw string is
    left as it is. *)
Lemma deps_first_read_parsed (h : heap) (n r : ref) (nd rn : Node)
    (ds : list dependency) :
  h !! n = Some nd → _deps nd = None →
  root n h = (Ret r, h) → h !! r = Some rn → cls rn = RootClass →
  (_raw_deps nd = "_" ∧ ds = []
   ∨ _raw_deps nd ≠ "_"
     ∧ parse_entries (r :: _descendants rn) (split "|" (_raw_deps nd))
       = Some ds) →
  deps n h = (Ret ds, <[n := with_deps (Some ds) nd]> h).
Proof.
  intros Hn Hd Hroot Hr Hc Hraw.
  rewrite (deps_first_read h n r nd rn Hn Hd Hroot Hr Hc).
  destruct Hraw as [[Heq ->]|[Hne Hp]].
  - by rewrite decide_True.
  - rewrite decide_False by done.
    rewrite (bind_Ret _ _ _ _ _
      (deps_loop_parsed n _ _ _ (with_deps (Some []) nd) [] ds
         (lookup_insert_eq _ _ _) eq_refl Hp)).
    rewrite insert_insert_eq.
    by apply return__deps_cached with (with_deps (Some ds) nd);
      [apply lookup_insert_eq|].
Qed.

(** X13: the first read of [deps] in a sentence with a root.  With the
    sentinel the list is empty.  Otherwise, when every entry of the raw
    string has one colon, an integer head and a node at that index of the
    list of all nodes (the root, then the registry), the list holds the
    entries in the order of the string, and it is cached; the raw string is
    left as it is. *)
Theorem deps_first_read_resolves (h : heap) (n r : ref) (nd rn : Node)
    (ds : list dependency) :
  h !! n = Some nd → _deps nd = None →
  root n h = (Ret r, h) → h !! r = Some rn → cls rn = RootClass →
  (_raw_deps nd = "_" ∧ ds = []
   ∨ _raw_deps nd ≠ "_"
     ∧ parse_entries (r :: _descendants rn) (split "|" (_raw_deps nd))
       = Some ds) →
  deps n h = (Ret ds, <[n := with_deps (Some ds) nd]> h).
Proof. exact (deps_first_read_parsed h n r nd rn ds). Qed.

Lemma deps_first_read_resolves_witness :
  ∃ nd : Node,
    deps node_A (set_raw_deps node_A "3:conj|0:root" chain).2
    = (Ret [Dependency node_C "conj"; Dependency the_root "root"],
       <[node_A := with_deps
                     (Some [Dependency node_C "conj"; Dependency the_root "root"])
                     nd]> (set_raw_deps node_A "3:conj|0:root" chain).2).
Proof.
  eexists.
  eapply (deps_first_read_resolves _ node_A the_root).
  - vm_compute. reflexivity.
  - vm_compute. reflexivity.
  - vm_compute. reflexivity.
  - vm_compute. reflexivity.
  - vm_compute. reflexivity.
  - right. split; [vm_compute; discriminate|vm_compute; reflexivity].
Defined.

(** ** Numbers and separators in a raw string *)

Lemma digits_digit (c : ascii) (v : Z) (b : bool) (acc : Z) (s : string) :
  digit_value c = Some v →
  digits b acc (String c s) = digits true (10 * acc + v) s.
Proof. intros H. cbn [digits]. by rewrite H. Qed.

Lemma digits_of_numeral (d : Decimal.uint) :
  ∀ (b : bool) (acc : Z),
    digits b acc (NilEmpty.string_of_uint d)
    = match d with
      | Decimal.Nil => if b then Some acc else None
      | _ => Some (horner acc d)
      end.
Proof.
  induction d as [|d IH|d IH|d IH|d IH|d IH|d IH|d IH|d IH|d IH|d IH];
    intros b acc; [reflexivity|..];
    cbn [NilEmpty.string_of_uint];
    (erewrite digits_digit by (vm_compute; reflexivity));
    rewrite IH; destruct d; cbn [horner]; by rewrite ?Z.add_0_r.
Qed.

Lemma rstrip_numeral (d : Decimal.uint) :
  rstrip (NilEmpty.string_of_uint d) = NilEmpty.string_of_uint d.
Proof.
  induction d as [|d IH|d IH|d IH|d IH|d IH|d IH|d IH|d IH|d IH|d IH];
    [reflexivity|..];
    cbn [NilEmpty.string_of_uint rstrip]; rewrite IH;
    by destruct (NilEmpty.string_of_uint d).
Qed.

Lemma horner_of_uint_acc (d : Decimal.uint) :
  ∀ acc, Z.pos (Pos.of_uint_acc d acc) = horner (Z.pos acc) d.
Proof.
  induction d as [|d IH|d IH|d IH|d IH|d IH|d IH|d IH|d IH|d IH|d IH];
    intros acc; [reflexivity|..];
    cbn [Pos.of_uint_acc horner]; rewrite IH; f_equal; lia.
Qed.

Lemma horner_of_uint (d : Decimal.uint) :
  Z.of_N (Pos.of_uint d) = horner 0 d.
Proof.
  induction d as [|d IH|d IH|d IH|d IH|d IH|d IH|d IH|d IH|d IH|d IH];
    [reflexivity|exact IH|..];
    cbn [Pos.of_uint horner]; by rewrite N2Z.inj_pos, horner_of_uint_acc.
Qed.

Lemma to_ascii_space_numeral (d : Decimal.uint) :
  to_ascii_space (NilEmpty.string_of_uint d) = NilEmpty.string_of_uint d.
Proof.
  induction d as [|d IH|d IH|d IH|d IH|d IH|d IH|d IH|d IH|d IH|d IH];
    [reflexivity|..];
    cbn [NilEmpty.string_of_uint to_ascii_space]; by rewrite IH.
Qed.

Lemma lstrip_no_space (c : ascii) (s : string) :
  is_space c = false → lstrip (String c s) = String c s.
Proof. intros H. cbn [lstrip]. by rewrite H. Qed.

Lemma int_of_numeral (d : Decimal.uint) :
  d ≠ Decimal.Nil →
  int (NilEmpty.string_of_uint d) = Some (horner 0 d)
  ∧ int (String "-" (NilEmpty.string_of_uint d)) = Some (- horner 0 d).
Proof.
  intros Hd.
  pose proof (digits_of_numeral d false 0) as Hdig.
  pose proof (rstrip_numeral d) as Hr.
  assert (Hneg : rstrip (String "-" (NilEmpty.string_of_uint d))
                 = String "-" (NilEmpty.string_of_uint d)).
  { cbn [rstrip]. rewrite Hr. by destruct (NilEmpty.string_of_uint d). }
  unfold int. cbn [to_ascii_space]. change (is_unicode_space "-") with false.
  cbv iota. rewrite to_ascii_space_numeral, Hneg, Hr. clear Hneg Hr.
  rewrite (lstrip_no_space "-") by reflexivity.
  destruct d; [done|..]; cbn [NilEmpty.string_of_uint] in *;
    (rewrite lstrip_no_space by reflexivity);
    cbv beta iota; rewrite Hdig; done.
Qed.

(** [int('%d' % z)] is [z]. *)
Lemma int_format_d (z : Z) : int (format_d z) = Some z.
Proof.
  unfold format_d. destruct z as [|p|p]; [by vm_compute|..];
    cbn [Z.to_int NilZero.string_of_int];
    pose proof (DecimalPos.Unsigned.to_uint_nonnil p) as Hnil;
    pose proof (DecimalPos.Unsigned.of_to p) as Hto;
    pose proof (horner_of_uint (Pos.to_uint p)) as Hh;
    rewrite Hto in Hh; cbn [Z.of_N] in Hh;
    destruct (int_of_numeral (Pos.to_uint p) Hnil) as [Hpos Hneg];
    (replace (NilZero.string_of_uint (Pos.to_uint p))
       with (NilEmpty.string_of_uint (Pos.to_uint p))
       by (by destruct (Pos.to_uint p)));
    first [ rewrite Hpos; f_equal; lia | rewrite Hneg; f_equal; lia ].
Qed.

Lemma has_char_app (c : ascii) (a b : string) :
  has_char c (a +:+ b) = has_char c a || has_char c b.
Proof.
  induction a as [|x a IH]; [reflexivity|].
  change (has_char c (String x (a +:+ b))
          = has_char c (String x a) || has_char c b).
  cbn [has_char]. by rewrite IH, orb_assoc.
Qed.

Lemma split_no_sep (sep : ascii) (s : string) :
  has_char sep s = false → split sep s = [s].
Proof.
  induction s as [|x s IH]; [reflexivity|]. cbn [has_char split].
  intros [Hx Hs]%orb_false_elim. apply bool_decide_eq_false in Hx.
  rewrite decide_False by done. by rewrite IH.
Qed.

Lemma split_at_sep (sep : ascii) (a b : string) :
  has_char sep a = false →
  split sep (a +:+ String sep b) = a :: split sep b.
Proof.
  induction a as [|x a IH].
  - intros _. change (split sep (String sep b) = "" :: split sep b).
    cbn [split]. by rewrite decide_True.
  - cbn [has_char]. intros [Hx Hs]%orb_false_elim.
    apply bool_decide_eq_false in Hx.
    change (split sep (String x (a +:+ String sep b))
            = String x a :: split sep b).
    cbn [split]. rewrite decide_False by done. by rewrite IH.
Qed.

(** [sep.join(l).split(sep)] is [l] when no item holds the separator and
    [l] is not empty. *)
Lemma split_join (sep : ascii) (l : list string) :
  l ≠ [] → Forall (λ w, has_char sep w = false) l →
  split sep (join (String sep "") l) = l.
Proof.
  intros Hne Hl. induction Hl as [|w l Hw Hl IH]; [done|].
  destruct l as [|w' l].
  - by apply split_no_sep.
  - change (split sep (w +:+ String sep "" +:+ join (String sep "") (w' :: l))
            = w :: w' :: l).
    change (String sep "" +:+ ?t) with (String sep t).
    rewrite split_at_sep by done. by rewrite IH.
Qed.

Lemma has_char_numeral (c : ascii) (d : Decimal.uint) :
  digit_value c = None → has_char c (NilEmpty.string_of_uint d) = false.
Proof.
  intros Hc.
  induction d as [|d IH|d IH|d IH|d IH|d IH|d IH|d IH|d IH|d IH|d IH];
    [reflexivity|..];
    cbn [NilEmpty.string_of_uint has_char]; rewrite IH, orb_false_r;
    apply bool_decide_eq_false; by intros <-.
Qed.

(** ['%d' % z] holds digits and a sign only. *)
Lemma has_char_format_d (c : ascii) (z : Z) :
  digit_value c = None → c ≠ "-"%char → has_char c (format_d z) = false.
Proof.
  intros Hc Hm.
  assert (Hu : ∀ d, has_char c (NilZero.string_of_uint d) = false).
  { intros d. destruct d; try exact (has_char_numeral c _ Hc).
    cbn. rewrite orb_false_r. apply bool_decide_eq_false. by intros <-. }
  unfold format_d. destruct z as [|p|p]; cbn [Z.to_int NilZero.string_of_int].
  - apply Hu.
  - apply Hu.
  - cbn [has_char]. rewrite Hu, orb_false_r.
    apply bool_decide_eq_false. congruence.
Qed.

(** One written entry reads back as the entry it was written from. *)
Lemma parse_entry_serialize (h : heap) (nodes : list ref) (d : dependency) :
  readable h nodes d → parse_entry nodes (serialize h d) = Some d.
Proof.
  intros [(i & Hi & Hx) [Hcolon _]]. unfold parse_entry, serialize.
  change (":" +:+ dep_deprel d) with (String ":" (dep_deprel d)).
  rewrite split_at_sep by (by apply has_char_format_d).
  rewrite split_no_sep by done.
  rewrite int_format_d. unfold key. rewrite Hi. simpl. rewrite Hx. simpl.
  by destruct d.
Qed.

Lemma parse_entries_serialize (h : heap) (nodes : list ref)
    (ds : list dependency) :
  Forall (readable h nodes) ds →
  parse_entries nodes (serialize h <$> ds) = Some ds.
Proof.
  induction 1 as [|d ds Hd _ IH]; [reflexivity|].
  rewrite fmap_cons. cbn [parse_entries].
  by rewrite (parse_entry_serialize h nodes d Hd), IH.
Qed.

Lemma serialize_no_bar (h : heap) (d : dependency) :
  plain_label (dep_deprel d) → has_char "|" (serialize h d) = false.
Proof.
  intros [_ Hbar]. unfold serialize. rewrite !has_char_app.
  rewrite has_char_format_d by done. by rewrite Hbar.
Qed.

Lemma serialize_has_colon (h : heap) (d : dependency) :
  has_char ":" (serialize h d) = true.
Proof.
  unfold serialize. rewrite !has_char_app. cbn. by rewrite orb_true_r.
Qed.

Lemma join_has_char (c : ascii) (sep : string) (w : string) (l : list string) :
  has_char c w = true → has_char c (join sep (w :: l)) = true.
Proof.
  intros Hw. destruct l as [|w' l]; [done|].
  change (has_char c (w +:+ sep +:+ join sep (w' :: l)) = true).
  by rewrite has_char_app, Hw.
Qed.

(** X14: a structured list written to [deps], read as [raw_deps], written
    back as a raw string and read as [deps] again is the list that was
    written, provided it is not empty and each of its entries is readable:
    the parent has an ord and stands at that index of the list of all nodes
    of the sentence, and the label holds no colon and no bar. *)
Theorem deps_round_trip (h : heap) (n r : ref) (nd rn : Node)
    (ds : list dependency) :
  h !! n = Some nd → root n h = (Ret r, h) →
  h !! r = Some rn → cls rn = RootClass →
  ds ≠ [] → Forall (readable h (r :: _descendants rn)) ds →
  (set_deps n ds;; s ← raw_deps n; set_raw_deps n s;; deps n) h
  = (Ret ds,
     <[n := with_deps (Some ds)
              (with_raw_deps (join "|" (serialize h <$> ds)) nd)]> h).
Proof.
  intros Hn Hroot Hr Hc Hne Hds.
  set (s := join "|" (serialize h <$> ds)).
  set (h1 := <[n := with_deps (Some ds) nd]> h).
  assert (Hser : serialize h1 <$> ds = serialize h <$> ds).
  { apply list_fmap_ext. intros _ d _. unfold serialize.
    by rewrite (key_insert h n _ nd (with_deps (Some ds) nd)). }
  assert (Hraw : raw_deps n h1
                 = (Ret s, <[n := with_raw_deps s (with_deps (Some ds) nd)]> h1)).
  { unfold s. rewrite <- Hser.
    apply raw_deps_serialized; [apply lookup_insert_eq|done|].
    eapply Forall_impl; [exact Hds|]. intros d [(i & Hi & _) _]. exists i.
    by rewrite (ord_of_insert h n _ nd (with_deps (Some ds) nd)). }
  set (nd3 := with_deps None (with_raw_deps s nd)).
  set (h3 := <[n := nd3]> h).
  assert (Hset : set_raw_deps n s
                   (<[n := with_raw_deps s (with_deps (Some ds) nd)]> h1)
                 = (Ret tt, h3)).
  { rewrite (set_raw_deps_live _ n _ s (lookup_insert_eq _ _ _)).
    unfold h1, h3. by rewrite !insert_insert_eq. }
  rewrite (bind_Ret _ _ _ _ _ (set_deps_live h n nd ds Hn)).
  fold h1. rewrite (bind_Ret _ _ _ _ _ Hraw), (bind_Ret _ _ _ _ _ Hset).
  assert (Hshape : same_shape h h3) by (by apply same_shape_insert with nd).
  destruct (same_shape_lookup h h3 r rn Hshape Hr) as (rn3 & Hr3 & Hsh).
  injection Hsh as Hcls _ _ _ Hdesc.
  rewrite (deps_first_read_parsed h3 n r nd3 rn3 ds).
  - unfold h3, nd3. by rewrite insert_insert_eq.
  - apply lookup_insert_eq.
  - done.
  - by apply (same_shape_root h h3).
  - done.
  - congruence.
  - right. cbn [nd3 with_deps with_raw_deps _raw_deps]. split.
    + destruct ds as [|d ds']; [done|]. intros Hs.
      assert (Hcolon : has_char ":" s = true).
      { unfold s. rewrite fmap_cons.
        apply join_has_char, serialize_has_colon. }
      by rewrite Hs in Hcolon.
    + rewrite Hdesc. unfold s.
      rewrite (split_join "|" (serialize h <$> ds)).
      * by apply parse_entries_serialize.
      * by destruct ds.
      * apply Forall_fmap. eapply Forall_impl; [exact Hds|].
        intros d [_ Hl]. by apply serialize_no_bar.
Qed.

Lemma deps_round_trip_witness :
  ∃ nd : Node,
    (set_deps node_A [Dependency node_C "conj"; Dependency the_root "root"];;
     s ← raw_deps node_A; set_raw_deps node_A s;; deps node_A) chain
    = (Ret [Dependency node_C "conj"; Dependency the_root "root"],
       <[node_A := with_deps
                     (Some [Dependency node_C "conj"; Dependency the_root "root"])
                     (with_raw_deps "3:conj|0:root" nd)]> chain).
Proof.
  eexists.
  eapply (deps_round_trip chain node_A the_root _ _
            [Dependency node_C "conj"; Dependency the_root "root"]).
  - vm_compute. reflexivity.
  - vm_compute. reflexivity.
  - vm_compute. reflexivity.
  - vm_compute. reflexivity.
  - discriminate.
  - repeat constructor.
    + exists 3. split; vm_compute; reflexivity.
    + exists 0. split; vm_compute; reflexivity.
Defined.

(** ** A read of [deps] that fails *)

(** An entry that does not parse makes the body of the loop raise, whatever
    the store; the exception tells what was wrong with the entry. *)
Lemma deps_step_unparsed (n : ref) (nodes : list ref) (bad : string) :
  parse_entry nodes bad = None →
  ∃ e, (∀ g, deps_step n nodes bad g = (Raise e, g))
       ∧ ((length (split ":" bad) < 2)%nat →
          e = ValueError "not enough values to unpack (expected 2, got 1)")
       ∧ ((2 < length (split ":" bad))%nat →
          e = ValueError "too many values to unpack (expected 2)")
       ∧ (∀ head deprel, split ":" bad = [head; deprel] →
            (int head = None →
             e = ValueError "invalid literal for int() with base 10")
            ∧ (is_Some (int head) →
               e = IndexError "list index out of range")).
Proof.
  unfold parse_entry, deps_step.
  destruct (split ":" bad) as [|head [|deprel [|x l]]]; intros Hp.
  - eexists. split; [done|]. cbn [length]. repeat split; try done; lia.
  - eexists. split; [done|]. cbn [length]. repeat split; try done; lia.
  - destruct (int head) as [i|] eqn:Hi.
    + simpl in Hp. destruct (getitem nodes i) as [y|] eqn:Hy; [done|].
      eexists. split.
      * intros g. rewrite (bind_Ret _ _ g g i) by reflexivity.
        unfold index. rewrite Hy. reflexivity.
      * cbn [length]. split; [lia|]. split; [lia|].
        intros ? ? [= <- <-]. rewrite Hi. split; [done|done].
    + eexists. split; [done|]. cbn [length]. split; [lia|]. split; [lia|].
      intros ? ? [= <- <-]. rewrite Hi. split; [done|]. by intros [? ?].
  - eexists. split; [done|]. cbn [length]. repeat split; try done; lia.
Qed.

(** X15: a first read of [deps] that meets an entry it cannot parse, in a
    sentence with a root.  The read raises at the first such entry: the
    ValueError of the unpacking when the entry has no colon or more than
    one, the ValueError of [int] when the text before the colon is no
    integer, IndexError when no node is at that index.  The entries before
    it stay in [_deps], so the next read raises nothing and returns that
    partial list. *)
Theorem deps_failed_read_leaves_partial_list (h : heap) (n r : ref)
    (nd rn : Node) (pre rest : list string) (bad : string)
    (ds : list dependency) :
  h !! n = Some nd → _deps nd = None →
  root n h = (Ret r, h) → h !! r = Some rn → cls rn = RootClass →
  _raw_deps nd ≠ "_" →
  split "|" (_raw_deps nd) = pre ++ bad :: rest →
  parse_entries (r :: _descendants rn) pre = Some ds →
  parse_entry (r :: _descendants rn) bad = None →
  ∃ e, deps n h = (Raise e, <[n := with_deps (Some ds) nd]> h)
       ∧ deps n (<[n := with_deps (Some ds) nd]> h)
         = (Ret ds, <[n := with_deps (Some ds) nd]> h)
       ∧ ((length (split ":" bad) < 2)%nat →
          e = ValueError "not enough values to unpack (expected 2, got 1)")
       ∧ ((2 < length (split ":" bad))%nat →
          e = ValueError "too many values to unpack (expected 2)")
       ∧ (∀ head deprel, split ":" bad = [head; deprel] →
            (int head = None →
             e = ValueError "invalid literal for int() with base 10")
            ∧ (is_Some (int head) →
               e = IndexError "list index out of range")).
Proof.
  intros Hn Hd Hroot Hr Hc Hne Hsplit Hpre Hbad.
  destruct (deps_step_unparsed n (r :: _descendants rn) bad Hbad)
    as (e & Hraise & Hkinds).
  exists e. split; [|split; [|exact Hkinds]].
  - rewrite (deps_first_read h n r nd rn Hn Hd Hroot Hr Hc).
    rewrite decide_False by done. rewrite Hsplit.
    rewrite (bind_Raise _ _ _ _ _
               (deps_loop_stops n _ pre rest bad e _ (with_deps (Some []) nd)
                  [] ds (lookup_insert_eq _ _ _) eq_refl Hpre Hraise)).
    by rewrite insert_insert_eq.
  - by apply deps_cached with (with_deps (Some ds) nd);
      [apply lookup_insert_eq|].
Qed.

Lemma deps_failed_read_leaves_partial_list_witness :
  ∃ (e : exn) (nd : Node),
    deps node_C (set_raw_deps node_C "1:nsubj|x:obj|2:conj" chain).2
    = (Raise e, <[node_C := with_deps (Some [Dependency node_A "nsubj"]) nd]>
                  (set_raw_deps node_C "1:nsubj|x:obj|2:conj" chain).2)
    ∧ e = ValueError "invalid literal for int() with base 10".
Proof.
  destruct (deps_failed_read_leaves_partial_list
              (set_raw_deps node_C "1:nsubj|x:obj|2:conj" chain).2
              node_C the_root
              (default Root__init__
                 ((set_raw_deps node_C "1:nsubj|x:obj|2:conj" chain).2
                    !! node_C))
              (default Root__init__ (chain !! the_root))
              ["1:nsubj"] ["2:conj"] "x:obj"
              [Dependency node_A "nsubj"])
    as (e & Hrun & _ & _ & _ & Hkind).
  - vm_compute. reflexivity.
  - vm_compute. reflexivity.
  - vm_compute. reflexivity.
  - vm_compute. reflexivity.
  - vm_compute. reflexivity.
  - vm_compute. discriminate.
  - vm_compute. reflexivity.
  - vm_compute. reflexivity.
  - vm_compute. reflexivity.
  - exists e. eexists. split; [exact Hrun|].
    apply (Hkind "x" "obj"); vm_compute; reflexivity.
Defined.

(** ** [remove], [next_node], [prev_node] and [is_leaf] on every store *)

(** X16: [remove] removes nothing.  On every store and every node the call
    ends without a result and leaves the store as it was: it raises
    AttributeError at the assignment to [children] when the node has a
    parent, AttributeError on None when it has none, and has no behaviour
    on an identity that denotes no object. *)
Theorem remove_never_removes (h : heap) (self : ref) :
  (remove self h).2 = h
  ∧ ((remove self h).1 = Raise (AttributeError "can't set attribute")
     ∨ (remove self h).1
       = Raise (AttributeError "'NoneType' object has no attribute children")
     ∨ (remove self h).1 = NoResult Dangling).
Proof.
  assert (∃ o, remove self h = (o, h)
               ∧ (o = Raise (AttributeError "can't set attribute")
                  ∨ o = Raise (AttributeError
                                 "'NoneType' object has no attribute children")
                  ∨ o = NoResult Dangling)) as (o & -> & Ho); [|done].
  unfold remove.
  destruct (h !! self) as [n|] eqn:Hn;
    [|rewrite (bind_NoResult _ _ _ _ _ (parent_dead _ _ Hn)); eauto 6].
  rewrite (bind_Ret _ _ _ _ _ (parent_live _ _ _ Hn)).
  destruct (_parent n) as [p|] eqn:Hp; [|eauto 6].
  destruct (h !! p) as [pn|] eqn:Hpn.
  - rewrite (bind_Ret _ _ _ _ _ (children_live _ _ _ Hpn)).
    rewrite (bind_Ret _ _ _ _ _ (parent_live _ _ _ Hn)), Hp.
    unfold set_children.
    rewrite run_bind, run_bind, (load_live _ _ _ Hpn). eauto 6.
  - unfold children, load. rewrite !run_bind, Hpn. eauto 6.
Qed.

Lemma chain_registered : registered chain the_root [node_A; node_B; node_C].
Proof.
  split.
  - eexists. split; [vm_compute; reflexivity|]. by split.
  - intros [|[|[|i]]] y Hy; simpl in Hy; simplify_eq; vm_compute; reflexivity.
Qed.

(** X17: in a registered sentence, [next_node] of the node at index [i] of
    the registry is the node at index [i + 1], and None when there is no
    such index; the store is as before. *)
Theorem next_node_is_registry_successor (h : heap) (x r : ref)
    (reg : list ref) (i : nat) :
  registered h r reg → root x h = (Ret r, h) → reg !! i = Some x →
  next_node x h = (Ret (reg !! S i), h).
Proof.
  intros Hreg Hroot Hx.
  pose proof (proj2 Hreg i x Hx) as Hord.
  destruct (next_node_registered h x r reg (Z.of_nat i + 1) Hreg Hroot Hord
              ltac:(lia)) as [Hrun _].
  rewrite Hrun. do 2 f_equal. f_equal. lia.
Qed.

Lemma next_node_is_registry_successor_witness :
  next_node node_A chain = (Ret (Some node_B), chain)
  ∧ next_node node_C chain = (Ret None, chain).
Proof.
  pose proof chain_registered as Hreg.
  split.
  - apply (next_node_is_registry_successor chain node_A the_root
             [node_A; node_B; node_C] 0 Hreg); vm_compute; reflexivity.
  - apply (next_node_is_registry_successor chain node_C the_root
             [node_A; node_B; node_C] 2 Hreg); vm_compute; reflexivity.
Defined.

(** X18: in a registered sentence, [prev_node] of the first node of the
    registry is the root, and [prev_node] of every later node of the
    registry is that node itself, not the node before it. *)
Theorem prev_node_in_registry (h : heap) (x r : ref) (reg : list ref)
    (i : nat) :
  registered h r reg → root x h = (Ret r, h) → reg !! i = Some x →
  prev_node x h = (Ret (Some (match i with O => r | S _ => x end)), h).
Proof.
  intros Hreg Hroot Hx.
  pose proof (proj2 Hreg i x Hx) as Hord.
  destruct i as [|i].
  - by apply (proj2 (prev_node_at_start h x r Hroot)).
  - destruct Hreg as [(rn & Hr & Hc & Hdesc) _]. unfold prev_node.
    rewrite (bind_Ret _ _ _ _ _ (get_ord_live _ _ _ Hord)).
    destruct (Z.ltb_spec (Z.of_nat (S i) + 1 - 1) 0); [lia|].
    destruct (Z.eqb_spec (Z.of_nat (S i) + 1 - 1) 0); [lia|].
    rewrite (bind_Ret _ _ _ _ _ Hroot).
    rewrite (bind_Ret _ _ _ _ _ (get__descendants_root _ _ _ Hr Hc)).
    rewrite (bind_Ret _ _ _ _ _ (get_ord_live _ _ _ Hord)).
    rewrite (bind_Ret _ _ h h x); [done|].
    unfold index. rewrite getitem_nonneg by lia. rewrite Hdesc.
    replace (Z.to_nat (Z.of_nat (S i) + 1 - 1)) with (S i) by lia.
    by rewrite Hx.
Qed.

Lemma prev_node_in_registry_witness :
  prev_node node_A chain = (Ret (Some the_root), chain)
  ∧ prev_node node_C chain = (Ret (Some node_C), chain).
Proof.
  pose proof chain_registered as Hreg.
  split.
  - apply (prev_node_in_registry chain node_A the_root
             [node_A; node_B; node_C] 0 Hreg); vm_compute; reflexivity.
  - apply (prev_node_in_registry chain node_C the_root
             [node_A; node_B; node_C] 2 Hreg); vm_compute; reflexivity.
Defined.

(** X19: [is_leaf] and [descendants] agree on a plain node: whenever both
    return, the node is a leaf exactly when its list of descendants is
    empty, and [is_leaf] leaves the store as it is. *)
Theorem is_leaf_iff_no_descendants (h h1 h2 : heap) (self : ref) (n : Node)
    (b : bool) (ds : ListOfNodes) :
  h !! self = Some n → cls n = NodeClass →
  is_leaf self h = (Ret b, h1) → descendants self h = (Ret ds, h2) →
  h1 = h ∧ (b = true ↔ items ds = []).
Proof.
  intros Hn Hc Hleaf Hds.
  apply (descendants_inv h h2 self n ds Hn Hc) in Hds
    as (_ & _ & Hin & _).
  unfold is_leaf in Hleaf.
  rewrite (bind_Ret _ _ _ _ _ (children_live _ _ _ Hn)) in Hleaf.
  cbn [items] in Hleaf. injection Hleaf as <- <-. split; [done|].
  destruct (_children n) as [|c cs] eqn:Hcs.
  - split; [intros _|done].
    destruct (items ds) as [|y l]; [done|]. exfalso.
    assert (below h self y) as Hy by (apply Hin; by left).
    destruct Hy as [? nn ? Hnn Hy|? nn c y Hnn Hc' _]; simplify_eq;
      rewrite Hcs in *; by eapply not_elem_of_nil.
  - split; [done|]. intros Hds.
    assert (c ∈ items ds) as Hc'.
    { apply Hin. apply below_child with n; [done|]. rewrite Hcs. by left. }
    rewrite Hds in Hc'. by apply not_elem_of_nil in Hc'.
Qed.

Lemma is_leaf_iff_no_descendants_witness :
  (is_leaf node_C chain).2 = chain
  ∧ (true = true ↔ items (mkListOfNodes [] node_C) = []).
Proof.
  apply (is_leaf_iff_no_descendants chain chain chain node_C
           (default Root__init__ (chain !! node_C)) true
           (mkListOfNodes [] node_C));
    vm_compute; reflexivity.
Defined.

(** ** The MarkBugs block: the parts of [process_node] *)
Section process_node_parts.
Import MarkBugs.
Context (P : ∀ A : Type, B A → Prop).
Hypothesis P_ret : ∀ (A : Type) (a : A), P A (mret a).
Hypothesis P_raise : ∀ (A : Type) (e : exn), P A (raise e).
Hypothesis P_load : ∀ x : ref, P MarkBugs.Node (load x).
Hypothesis P_bind :
  ∀ (A C : Type) (m : B A) (k : A → B C),
    P A m → (∀ a, P C (k a)) → P C (m ≫= k).

Lemma parts_when (c : bool) (m : B unit) : P unit m → P unit (when c m).
Proof. intros Hm. destruct c; [done|apply P_ret]. Qed.

Lemma parts_for_each {A} (l : list A) (body : A → B unit) :
  (∀ x, P unit (body x)) → P unit (for_each l body).
Proof.
  intros Hb. induction l as [|x l IH]; [apply P_ret|].
  cbn [for_each]. by apply P_bind.
Qed.

Lemma parts_parent_deprel (p : option ref) : P _ (parent_deprel p).
Proof.
  destruct p; [|apply P_raise].
  apply P_bind; [apply P_load|intros; apply P_ret].
Qed.

Lemma parts_parent_upos (p : option ref) : P _ (parent_upos p).
Proof.
  destruct p; [|apply P_raise].
  apply P_bind; [apply P_load|intros; apply P_ret].
Qed.

Lemma parts_precedes (x : ref) (p : option ref) : P _ (precedes x p).
Proof. apply P_bind; [apply P_load|intros; apply P_raise]. Qed.

Lemma parts_children_where (cond : string → bool) (l : list ref) :
  P _ (children_where cond l).
Proof.
  induction l as [|x l IH]; [apply P_ret|]. cbn [children_where].
  apply P_bind; [apply P_load|]. intros n.
  apply P_bind.
  - destruct (deprel n); [apply P_ret|apply P_raise].
  - intros b. apply P_bind; [exact IH|intros; apply P_ret].
Qed.

Lemma parts_children_in (labels : list string) (l : list ref) :
  P _ (children_in labels l).
Proof.
  induction l as [|x l IH]; [apply P_ret|]. cbn [children_in].
  apply P_bind; [apply P_load|]. intros n.
  apply P_bind; [exact IH|intros; apply P_ret].
Qed.

(** [process_node] is made of reads of nodes and of calls of [log] on its
    node: what holds of these parts and is kept by sequencing holds of
    [process_node]. *)
Lemma process_node_parts (node : ref) :
  (∀ short_msg long_msg, P unit (log node short_msg long_msg)) →
  P unit (process_node node).
Proof.
  intros Hlog. unfold process_node.
  apply P_bind; [apply P_load|]. intros n. cbv zeta.
  repeat first
    [ apply P_ret | apply P_raise | apply P_load
    | apply parts_parent_deprel | apply parts_parent_upos
    | apply parts_precedes | apply parts_children_where
    | apply parts_children_in
    | apply Hlog
    | apply parts_when
    | apply parts_for_each; intros ?
    | apply P_bind; [|intros ?]
    | match goal with
      | |- P _ (if ?b then _ else _) => destruct b
      | |- P _ (let '(_, _) := ?x in _) => destruct x
      end ].
Qed.
End process_node_parts.

Section block_invariants.
Import MarkBugs.

Lemma keeps_B_bind (I : state → Prop) {A C} (m : B A) (k : A → B C) :
  keeps I m → (∀ a, keeps I (k a)) → keeps I (m ≫= k).
Proof.
  intros Hm Hk s Hs. rewrite B_run_bind. specialize (Hm s Hs).
  destruct (m s) as [[a| |] s1]; simpl in *; [by apply Hk|done..].
Qed.

(** What every call of [log] on the node keeps, [process_node] keeps. *)
Lemma process_node_keeps (I : state → Prop) (node : ref) :
  (∀ short_msg long_msg, keeps I (log node short_msg long_msg)) →
  keeps I (process_node node).
Proof.
  apply (process_node_parts (λ A, keeps I)).
  - by intros A a s.
  - by intros A e s.
  - intros x s Hs. unfold load. by destruct (nodes s !! x).
  - intros A C. apply keeps_B_bind.
Qed.

Lemma sos_ret {A} (a : A) : silent_or_stopped (mret a : B A).
Proof. intros s. by left. Qed.

Lemma sos_raise {A} (e : exn) : silent_or_stopped (@raise A e).
Proof. intros s. by left. Qed.

Lemma sos_load (x : ref) : silent_or_stopped (load x).
Proof. intros s. left. unfold load. by destruct (nodes s !! x). Qed.

Lemma sos_bind {A C} (m : B A) (k : A → B C) :
  silent_or_stopped m → (∀ a, silent_or_stopped (k a)) →
  silent_or_stopped (m ≫= k).
Proof.
  intros Hm Hk s. rewrite B_run_bind.
  destruct (Hm s) as [Hs|(line & msg & ->)]; [|right; by eauto].
  destruct (m s) as [[a| |] s1]; simpl in Hs; subst s1;
    [apply Hk|by left..].
Qed.

Lemma sos_log (node : ref) (short_msg long_msg : string) :
  silent_or_stopped (log node short_msg long_msg).
Proof.
  intros s. destruct (nodes s !! node) as [n|] eqn:Hn.
  - right. rewrite (log_run s node n _ _ Hn).
    destruct (MarkBugs.misc n); by eauto.
  - left. by rewrite (log_dead s node _ _ Hn).
Qed.

Lemma sos_when (c : bool) (m : B unit) :
  silent_or_stopped m → silent_or_stopped (when c m).
Proof. intros Hm. destruct c; [done|apply sos_ret]. Qed.

Lemma sos_for_each {A} (l : list A) (body : A → B unit) :
  (∀ x, silent_or_stopped (body x)) → silent_or_stopped (for_each l body).
Proof.
  intros Hb. induction l as [|x l IH]; [apply sos_ret|].
  cbn [for_each]. by apply sos_bind.
Qed.

Lemma sos_parent_deprel (p : option ref) :
  silent_or_stopped (parent_deprel p).
Proof.
  apply (parts_parent_deprel (@silent_or_stopped)).
  - intros A. apply sos_ret.
  - intros A. apply sos_raise.
  - apply sos_load.
  - intros A C. apply sos_bind.
Qed.

Lemma sos_parent_upos (p : option ref) : silent_or_stopped (parent_upos p).
Proof.
  apply (parts_parent_upos (@silent_or_stopped)).
  - intros A. apply sos_ret.
  - intros A. apply sos_raise.
  - apply sos_load.
  - intros A C. apply sos_bind.
Qed.

Lemma sos_children_where (cond : string → bool) (l : list ref) :
  silent_or_stopped (children_where cond l).
Proof.
  apply (parts_children_where (@silent_or_stopped)).
  - intros A. apply sos_ret.
  - intros A. apply sos_raise.
  - apply sos_load.
  - intros A C. apply sos_bind.
Qed.

Lemma sos_children_in (labels : list string) (l : list ref) :
  silent_or_stopped (children_in labels l).
Proof.
  apply (parts_children_in (@silent_or_stopped)).
  - intros A. apply sos_ret.
  - apply sos_load.
  - intros A C. apply sos_bind.
Qed.

Lemma sos_process_node (node : ref) : silent_or_stopped (process_node node).
Proof.
  apply (process_node_parts (@silent_or_stopped)).
  - intros A. apply sos_ret.
  - intros A. apply sos_raise.
  - apply sos_load.
  - intros A C. apply sos_bind.
  - apply sos_log.
Qed.

(** A part that is silent or stopped and returns has left the state as it
    was, so what follows it starts from the same state. *)
Lemma sos_bind_inv {A C} (m : B A) (k : A → B C) (s s' : state) (c : C) :
  silent_or_stopped m → (m ≫= k) s = (Ret c, s') →
  ∃ a, m s = (Ret a, s) ∧ k a s = (Ret c, s').
Proof.
  intros Hm. rewrite B_run_bind.
  destruct (Hm s) as [Hs|(line & msg & ->)]; [|done].
  destruct (m s) as [[a| |] s1]; simpl in Hs; subst s1; [by eauto|done..].
Qed.
End block_invariants.

(** X20: [process_node] changes no node.  However the call ends, every node
    is as before (nothing is written under [Bug], nor anywhere else) and
    so is the address of the root. *)
Theorem process_node_changes_no_node (s : MarkBugs.state) (node : ref) :
  MarkBugs.nodes (MarkBugs.process_node node s).2 = MarkBugs.nodes s
  ∧ MarkBugs.root_address (MarkBugs.process_node node s).2
    = MarkBugs.root_address s.
Proof.
  apply (process_node_keeps
           (λ s', MarkBugs.nodes s' = MarkBugs.nodes s
                  ∧ MarkBugs.root_address s' = MarkBugs.root_address s));
    [|done].
  intros short_msg long_msg s1 Hs1.
  destruct (MarkBugs.nodes s1 !! node) as [n|] eqn:Hn.
  - by rewrite (log_run s1 node n _ _ Hn).
  - by rewrite (log_dead s1 node _ _ Hn).
Qed.

(** X21: [process_node] counts nothing and logs one line at most.  However
    the call ends, the counters are as before; and either the whole state
    is as before, or exactly one line was added to the log and the call
    stopped there with a TypeError. *)
Theorem process_node_counts_nothing (s : MarkBugs.state) (node : ref) :
  MarkBugs.stats (MarkBugs.process_node node s).2 = MarkBugs.stats s
  ∧ ((MarkBugs.process_node node s).2 = s
     ∨ ∃ line msg,
         MarkBugs.process_node node s = (Raise (TypeError msg), logged s line)).
Proof.
  destruct (sos_process_node node s) as [Hs|(line & msg & Hs)].
  - split; [by rewrite Hs|by left].
  - split; [by rewrite Hs|right; by eauto].
Qed.
(** ** The MarkBugs block: the overview and the rules *)
Section block_overview.
Import MarkBugs.

Lemma overview_result (l : list (Z * string)) :
  ∀ (t : Z) (s : state),
    overview t l s
    = (Ret (t + sum_of_counts l),
       {| nodes := nodes s; root_address := root_address s; stats := stats s;
          warnings := warnings s
            ++ ((λ '(count, bug), overview_line bug count) <$> l) |}).
Proof.
  induction l as [|[count bug] l IH]; intros t s.
  - cbn [overview fmap list_fmap sum_of_counts foldr].
    rewrite app_nil_r, Z.add_0_r. by destruct s.
  - cbn [overview]. rewrite B_run_bind. unfold warning. rewrite IH.
    cbn [nodes root_address stats warnings fmap list_fmap].
    rewrite <- app_assoc. cbn [sum_of_counts foldr fst].
    do 2 f_equal. unfold sum_of_counts. lia.
Qed.

Lemma sum_of_counts_perm (l l' : list (Z * string)) :
  l ≡ₚ l' → sum_of_counts l = sum_of_counts l'.
Proof.
  unfold sum_of_counts.
  induction 1 as [|x l l' _ IH|x y l|l l' l'' _ IH1 _ IH2];
    cbn [foldr]; lia.
Qed.

Lemma sum_of_counts_items (c : Counter) :
  sum_of_counts ((λ '(bug, count), (count, bug)) <$> c) = total c.
Proof.
  unfold sum_of_counts, total.
  induction c as [|[k v] c IH]; [done|].
  cbn [fmap list_fmap foldr fst snd]. cbn [fmap] in IH. by rewrite IH.
Qed.
End block_overview.

(** X22: the report of [process_end].  The call returns and changes nothing
    but the log, to which it adds the heading, one line for each counter in
    ascending order of the counts, and the line TOTAL with the sum of all
    counters. *)
Theorem process_end_overview (s : MarkBugs.state) :
  ∃ lines : list (Z * string),
    lines ≡ₚ (λ '(bug, count), (count, bug)) <$> MarkBugs.stats s
    ∧ StronglySorted (λ a b, a.1 ≤ b.1) lines
    ∧ MarkBugs.process_end s
      = (Ret tt,
         {| MarkBugs.nodes := MarkBugs.nodes s;
            MarkBugs.root_address := MarkBugs.root_address s;
            MarkBugs.stats := MarkBugs.stats s;
            MarkBugs.warnings :=
              MarkBugs.warnings s
              ++ ["ud.MarkBugs Error Overview:"]
              ++ ((λ '(count, bug), MarkBugs.overview_line bug count) <$> lines)
              ++ [MarkBugs.overview_line "TOTAL" (total (MarkBugs.stats s))] |}).
Proof.
  exists (sort_by_key ((λ '(bug, count), (count, bug)) <$> MarkBugs.stats s)).
  split; [apply sort_by_key_perm|]. split; [apply sort_by_key_sorted|].
  unfold MarkBugs.process_end, MarkBugs.stats_items, MarkBugs.warning.
  rewrite !B_run_bind. cbn [MarkBugs.stats].
  rewrite overview_result.
  cbn [MarkBugs.nodes MarkBugs.root_address MarkBugs.stats MarkBugs.warnings].
  rewrite (sum_of_counts_perm _ _ (sort_by_key_perm _)), sum_of_counts_items.
  rewrite Z.add_0_l. f_equal. f_equal. by rewrite <- !app_assoc.
Qed.

Section block_stops.
Import MarkBugs.

Lemma stops_raise {A} (e : exn) : stops (@raise A e).
Proof. by intros s a. Qed.

Lemma stops_bind_l {A C} (m : B A) (k : A → B C) : stops m → stops (m ≫= k).
Proof.
  intros Hm s c. rewrite B_run_bind. specialize (Hm s).
  destruct (m s) as [[a| |] s1]; simpl in *; [by destruct (Hm a)|done..].
Qed.

Lemma stops_bind_r {A C} (m : B A) (k : A → B C) :
  (∀ a, stops (k a)) → stops (m ≫= k).
Proof.
  intros Hk s c. rewrite B_run_bind.
  destruct (m s) as [[a| |] s1]; simpl; [apply Hk|done..].
Qed.
End block_stops.

(** X23: [process_node] needs a node with a parent.  On a node whose parent
    is None the call never returns normally, whatever the node and the
    state are: at the latest [parent.upos] fails. *)
Theorem process_node_needs_a_parent (s : MarkBugs.state) (node : ref)
    (n : MarkBugs.Node) (u : unit) :
  MarkBugs.nodes s !! node = Some n → MarkBugs.parent n = None →
  (MarkBugs.process_node node s).1 ≠ Ret u.
Proof.
  intros Hn Hp. unfold MarkBugs.process_node.
  rewrite (B_bind_Ret _ _ s s n) by (unfold MarkBugs.load; by rewrite Hn).
  cbv zeta. rewrite Hp.
  revert s Hn u.
  lazymatch goal with
  | |- ∀ s, _ → ∀ u, (?m s).1 ≠ Ret u =>
      assert (stops m) as Hstops; [|by intros s _ u; apply Hstops]
  end.
  repeat first
    [ apply stops_bind_l; apply stops_raise
    | apply stops_bind_r; intros ? ].
Qed.

Lemma process_node_needs_a_parent_witness :
  (MarkBugs.process_node 0%nat cop_state).1 ≠ Ret tt.
Proof.
  apply (process_node_needs_a_parent cop_state 0%nat cop_root tt);
    vm_compute; reflexivity.
Defined.



(** ** The MarkBugs block: when [process_node] returns *)
Section block_returns.
Import MarkBugs.

Lemma stops_precedes (x : ref) (p : option ref) : stops (precedes x p).
Proof.
  intros s a. unfold precedes. rewrite B_run_bind. unfold load.
  by destruct (nodes s !! x).
Qed.

(** A loop over relations that stops on the relation of the node returns
    only if that relation is not in the list. *)
Lemma left_headed_loop_needs (d : option string) (m : string → B unit)
    (l : list string) (s s' : state) (c : unit) :
  (∀ dep, stops (m dep)) →
  for_each l (λ dep, if bool_decide (d = Some dep) then m dep else mret tt) s
    = (Ret c, s') →
  among d l = false.
Proof.
  intros Hm. unfold among. revert s.
  induction l as [|dep l IH]; intros s Hrun.
  - apply bool_decide_eq_false. rewrite fmap_nil. apply not_elem_of_nil.
  - cbn [for_each] in Hrun. rewrite B_run_bind in Hrun.
    destruct (bool_decide (d = Some dep)) eqn:Hd.
    + pose proof (Hm dep s) as Hstop.
      destruct (m dep s) as [[[]| |] s1]; [by destruct (Hstop tt)|done..].
    + apply bool_decide_eq_false in Hd. cbn in Hrun.
      specialize (IH s Hrun). apply bool_decide_eq_false in IH.
      apply bool_decide_eq_false. rewrite fmap_cons, elem_of_cons.
      intros [?|?]; [by apply Hd|by apply IH].
Qed.

Lemma parent_upos_needs (p : option ref) (s s' : state) (a : option string) :
  parent_upos p s = (Ret a, s') →
  ∃ q pn, p = Some q ∧ nodes s !! q = Some pn.
Proof.
  destruct p as [q|]; [|done]. unfold parent_upos.
  rewrite B_run_bind. unfold load.
  destruct (nodes s !! q) as [pn|] eqn:Hq; [|done]. intros _. by exists q, pn.
Qed.

Lemma children_where_needs (cond : string → bool) (l : list ref)
    (s : state) :
  ∀ xs s', children_where cond l s = (Ret xs, s') →
    Forall (λ c, ∃ cn, nodes s !! c = Some cn ∧ is_Some (MarkBugs.deprel cn)) l.
Proof.
  induction l as [|x l IH]; intros xs s' Hrun; [done|].
  cbn [children_where] in Hrun.
  apply (sos_bind_inv _ _ _ _ _ (sos_load x)) in Hrun as (n' & Hx & Hrun).
  unfold load in Hx. destruct (nodes s !! x) as [cn|] eqn:Hcn; [|done].
  injection Hx as <-.
  destruct (MarkBugs.deprel cn) as [d|] eqn:Hd; [|done].
  rewrite (B_bind_Ret _ _ s s (cond d)) in Hrun by reflexivity.
  rewrite B_run_bind in Hrun.
  destruct (children_where cond l s) as [[ys| |] s1] eqn:Hl; [|done..].
  constructor; [by eauto|by apply (IH ys s1)].
Qed.
End block_returns.

Ltac sos_part :=
  repeat first
    [ apply sos_ret | apply sos_raise | apply sos_load
    | apply sos_parent_deprel | apply sos_parent_upos
    | apply sos_children_where | apply sos_children_in
    | apply sos_log
    | apply sos_when
    | apply sos_for_each; intros ?
    | apply sos_bind; [|intros ?]
    | match goal with
      | |- silent_or_stopped (if ?b then _ else _) => destruct b
      | |- silent_or_stopped (let '(_, _) := ?x in _) => destruct x
      end ].

(** X25: when [process_node] returns.  If the call returns normally on a
    live node, then nothing was logged and the state is as before, the
    parent of the node is a live node, every child of the node is a live
    node with a relation, and the relation of the node is none of [flat],
    [fixed], [conj] and [appos], whose rule calls [node.precedes]. *)
Theorem process_node_returns_only_in_silence (s : MarkBugs.state)
    (node : ref) (n : MarkBugs.Node) :
  MarkBugs.nodes s !! node = Some n →
  (MarkBugs.process_node node s).1 = Ret tt →
  (MarkBugs.process_node node s).2 = s
  ∧ (∃ p pn, MarkBugs.parent n = Some p ∧ MarkBugs.nodes s !! p = Some pn)
  ∧ Forall (λ c, ∃ cn, MarkBugs.nodes s !! c = Some cn
                       ∧ is_Some (MarkBugs.deprel cn))
           (MarkBugs.children n)
  ∧ MarkBugs.among (MarkBugs.deprel n) ["flat"; "fixed"; "conj"; "appos"]
    = false.
Proof.
  intros Hn Hret.
  assert ((MarkBugs.process_node node s).2 = s) as Hsame.
  { destruct (sos_process_node node s) as [Hs|(line & msg & Hs)]; [done|].
    by rewrite Hs in Hret. }
  split; [exact Hsame|].
  destruct (MarkBugs.process_node node s) as [out s'] eqn:Hrun.
  simpl in Hret, Hsame. subst out s'.
  unfold MarkBugs.process_node in Hrun.
  rewrite (B_bind_Ret _ _ s s n) in Hrun
    by (unfold MarkBugs.load; by rewrite Hn).
  cbv zeta in Hrun.
  (* the loop of the chains *)
  apply sos_bind_inv in Hrun as (? & _ & Hrun);
    [|sos_part].
  (* the loop of the left-headed relations *)
  apply sos_bind_inv in Hrun as (? & Hleft & Hrun);
    [|sos_part].
  (* the four rules on the tag, the required features, the finite verb and
     the degree *)
  do 7 (apply sos_bind_inv in Hrun as (? & _ & Hrun);
          [|sos_part]).
  (* the children *)
  apply sos_bind_inv in Hrun as (subjects & Hsubj & Hrun);
    [|sos_part].
  do 3 (apply sos_bind_inv in Hrun as (? & _ & Hrun);
          [|sos_part]).
  (* the parent *)
  apply sos_bind_inv in Hrun as (pu & Hparent & _);
    [|sos_part].
  split; [|split].
  - by apply parent_upos_needs in Hparent.
  - by apply children_where_needs in Hsubj.
  - lazymatch type of Hleft with
    | MarkBugs.for_each _ (λ dep, if _ then @?m dep else _) _ = _ =>
        apply (left_headed_loop_needs _ m) in Hleft; [exact Hleft|]
    end.
    intros dep. apply stops_bind_l, stops_precedes.
Qed.

Lemma process_node_returns_only_in_silence_witness :
  (MarkBugs.process_node 1%nat plain_state).2 = plain_state
  ∧ (∃ p pn, MarkBugs.parent plain_word = Some p
             ∧ MarkBugs.nodes plain_state !! p = Some pn)
  ∧ Forall (λ c, ∃ cn, MarkBugs.nodes plain_state !! c = Some cn
                       ∧ is_Some (MarkBugs.deprel cn))
           (MarkBugs.children plain_word)
  ∧ MarkBugs.among (MarkBugs.deprel plain_word)
      ["flat"; "fixed"; "conj"; "appos"] = false.
Proof.
  apply (process_node_returns_only_in_silence plain_state 1%nat plain_word).
  - vm_compute. reflexivity.
  - vm_compute. reflexivity.
Defined.
